(** * A buffer cache between callers and a block device

    The repository holds three revisions of one C module, [bcache.c]:
    the file of that name, [x.c], and a third revision whose file name
    is lost (called [part_000] below).  Each revision is embedded in a
    module of its own; the declarations they share come first.

    Every API call is embedded as a function on the cache object.  The
    calls of [bcache.c] hold [cache_lock] from their first to their last
    statement, so for that revision the functions below are the calls
    themselves; for the other two they describe calls that do not
    overlap.  The interleaving of overlapping [bcache_read] calls is the
    subject of the module [Interleaving] further down. *)

From Stdlib Require Import ZArith List Lia.
From stdpp Require Import base decidable option list gmap.

Local Open Scope Z_scope.

Set Warnings "-clear-no-such-hyp".

(** ** Bytes and buffers *)

Abbreviation byte := Byte.byte.

#[global] Instance byte_eq_dec : EqDecision byte := Byte.byte_eq_dec.

(** Every [memcpy], [disk_read] and [disk_write] of the module moves
    4096 bytes. *)
Definition BLOCK_SIZE : nat := 4096.

(** [memcpy(dst, src, n)]: the first [n] bytes of [dst] are replaced
    by the first [n] bytes of [src]. *)
Definition memcpy (dst src : list byte) (n : nat) : list byte :=
  take n src ++ drop n dst.

Arguments BLOCK_SIZE : simpl never.
Arguments memcpy : simpl never.

(** [memset(p, 0, 4096)] on the data of a block. *)
Definition zero_block : list byte := replicate BLOCK_SIZE Byte.x00.

(** ** Counters

    [nreads] and [nwrites] are C [int]s.  [__sync_fetch_and_add] wraps
    in two's complement; the plain [++] of [bcache.c] is given the same
    meaning. *)

Definition INT_MAX : Z := 2147483647.

Definition wrap_int (z : Z) : Z := (z + 2147483648) mod 4294967296 - 2147483648.

Definition int_incr (n : Z) : Z := wrap_int (n + 1).

(** ** The device *)

(** Which function of the module called the device. *)
Inductive component : Type :=
  | In_read
  | In_write
  | In_sync
  | In_scheduler.

Inductive transfer : Type :=
  | Disk_read (who : component) (blocknum : Z)
  | Disk_write (who : component) (blocknum : Z).

(** Modelled from the spec: [disk.h] and [disk.c] are not among the
    sources.  The device "fills buffer with exactly the fixed block size
    from persistent storage" on a read and "persists exactly the fixed
    block size" on a write, and reports its [block_count].  The record
    also keeps the calls it received, latest first, as the device mock
    of the spec does.  What the device does with a block number outside
    [0 .. nblocks - 1] is not specified; the model stores and returns it
    like any other. *)
Record struct_disk : Type := {
  nblocks : Z;
  sectors : gmap Z (list byte);
  calls : list transfer
}.

Definition disk_nblocks (d : struct_disk) : Z := nblocks d.

Definition sector (d : struct_disk) (blocknum : Z) : list byte :=
  default zero_block (sectors d !! blocknum).

Definition disk_read (who : component) (d : struct_disk) (blocknum : Z)
    (buf : list byte) : struct_disk * list byte :=
  ({| nblocks := nblocks d; sectors := sectors d;
      calls := Disk_read who blocknum :: calls d |},
   memcpy buf (sector d blocknum) BLOCK_SIZE).

Definition disk_write (who : component) (d : struct_disk) (blocknum : Z)
    (buf : list byte) : struct_disk :=
  {| nblocks := nblocks d;
     sectors := <[blocknum := take BLOCK_SIZE buf]> (sectors d);
     calls := Disk_write who blocknum :: calls d |}.

(** The device reads and writes recorded so far. *)
Definition is_read_of (blocknum : Z) (t : transfer) : bool :=
  match t with
  | Disk_read _ b => bool_decide (b = blocknum)
  | Disk_write _ _ => false
  end.

Definition device_reads (d : struct_disk) (blocknum : Z) : nat :=
  length (filter (fun t => is_read_of blocknum t = true) (calls d)).

(** ** Blocks and the cache object *)

Inductive block_state : Type :=
  | BLOCK_FREE
  | BLOCK_READING
  | BLOCK_READY
  | BLOCK_DIRTY
  | BLOCK_WRITING.

#[global] Instance block_state_eq_dec : EqDecision block_state.
Proof. solve_decision. Defined.

(** [struct block] without its lock, its condition and its [next]
    pointer: the linked list that starts at [bc->cache] is the list
    [cache] below, head first. *)
Record block : Type := {
  blocknum : Z;
  state : block_state;
  data : list byte
}.

Definition set_state (s : block_state) (blk : block) : block :=
  {| blocknum := blocknum blk; state := s; data := data blk |}.

Definition set_data (buf : list byte) (blk : block) : block :=
  {| blocknum := blocknum blk; state := state blk; data := buf |}.

Record bcache : Type := {
  disk : struct_disk;
  cache : list block;
  memory_blocks : Z;
  nreads : Z;
  nwrites : Z
}.

Definition set_disk (d : struct_disk) (bc : bcache) : bcache :=
  {| disk := d; cache := cache bc; memory_blocks := memory_blocks bc;
     nreads := nreads bc; nwrites := nwrites bc |}.

Definition set_cache (l : list block) (bc : bcache) : bcache :=
  {| disk := disk bc; cache := l; memory_blocks := memory_blocks bc;
     nreads := nreads bc; nwrites := nwrites bc |}.

Definition incr_nreads (bc : bcache) : bcache :=
  {| disk := disk bc; cache := cache bc; memory_blocks := memory_blocks bc;
     nreads := int_incr (nreads bc); nwrites := nwrites bc |}.

Definition incr_nwrites (bc : bcache) : bcache :=
  {| disk := disk bc; cache := cache bc; memory_blocks := memory_blocks bc;
     nreads := nreads bc; nwrites := int_incr (nwrites bc) |}.

(** The four accessors are the same in the three revisions. *)
Definition bcache_memory_blocks (bc : bcache) : Z := memory_blocks bc.
Definition bcache_disk_blocks (bc : bcache) : Z := disk_nblocks (disk bc).
Definition bcache_nreads (bc : bcache) : Z := nreads bc.
Definition bcache_nwrites (bc : bcache) : Z := nwrites bc.

(** How a call ends.  The C functions return [void]; the embedding
    keeps apart the four ways a call can go. *)
Inductive result (A : Type) : Type :=
  | Done (bc : bcache) (a : A)   (* returned after doing its work *)
  | Failed (bc : bcache)         (* returned early, work not done *)
  | Blocked (bc : bcache)        (* waits on a condition for ever *)
  | Crashed.                     (* dereferenced a null pointer *)

Arguments Done {A} bc a.
Arguments Failed {A} bc.
Arguments Blocked {A} bc.
Arguments Crashed {A}.

(** One call of a caller thread or one pass of the scheduler loop.
    [m] is what [malloc] gives the call if it asks: [None] for a null
    pointer, [Some junk] for a block whose [data] holds [junk]. *)
Inductive op : Type :=
  | Read (blocknum : Z) (out : list byte) (m : option (list byte))
  | Write (blocknum : Z) (p : list byte) (m : option (list byte))
  | Sync
  | Sched.

(** [find_block] of [bcache.c] and [x.c]: the pointer it returns is
    the position of the block in the list. *)
Fixpoint find_block_from (l : list block) (b : Z) : option nat :=
  match l with
  | [] => None
  | current :: next =>
      if decide (blocknum current = b ∧ state current ≠ BLOCK_FREE)
      then Some 0%nat
      else S <$> find_block_from next b
  end.

Definition find_block (bc : bcache) (b : Z) : option nat :=
  find_block_from (cache bc) b.

(** [bcache_write] is the same text in [bcache.c] and [x.c]. *)
Definition bcache_write_locked (m : option (list byte)) (bc : bcache) (b : Z)
    (p : list byte) : result unit :=
  let store (l : list block) (i : nat) :=
    alter (fun blk => set_state BLOCK_DIRTY
                        (set_data (memcpy (data blk) p BLOCK_SIZE) blk)) i l in
  match find_block bc b with
  | Some i => Done (incr_nwrites (set_cache (store (cache bc) i) bc)) tt
  | None =>
      match m with
      | None => Failed bc
      | Some junk =>
          let blk := {| blocknum := b; state := BLOCK_DIRTY; data := junk |} in
          Done (incr_nwrites (set_cache (store (blk :: cache bc) 0%nat) bc)) tt
      end
  end.

(** [bcache_sync] is the same text in [bcache.c] and [x.c]: the walk
    stops at the first dirty block, marks it [BLOCK_WRITING] and waits
    on its condition with [cache_lock] held.  The scheduler takes
    [cache_lock] before it looks at any block, so nothing signals the
    condition. *)
Fixpoint sync_walk (l : list block) : list block * bool :=
  match l with
  | [] => ([], false)
  | current :: next =>
      if decide (state current = BLOCK_DIRTY)
      then (set_state BLOCK_WRITING current :: next, true)
      else let '(next', waits) := sync_walk next in (current :: next', waits)
  end.

Definition bcache_sync_locked (bc : bcache) : result unit :=
  let '(l, waits) := sync_walk (cache bc) in
  if waits then Blocked (set_cache l bc) else Done (set_cache l bc) tt.

(** One pass of the scan of the scheduler in [bcache.c] and [x.c]:
    every block found [BLOCK_READING] is read, every block found
    [BLOCK_WRITING] is written. *)
Fixpoint scheduler_scan (d : struct_disk) (l : list block)
    : struct_disk * list block :=
  match l with
  | [] => (d, [])
  | current :: next =>
      let '(d1, current') :=
        match state current with
        | BLOCK_READING =>
            let '(d', buf) :=
              disk_read In_scheduler d (blocknum current) (data current) in
            (d', set_state BLOCK_READY (set_data buf current))
        | BLOCK_WRITING =>
            (disk_write In_scheduler d (blocknum current) (data current),
             set_state BLOCK_READY current)
        | _ => (d, current)
        end in
      let '(d2, next') := scheduler_scan d1 next in
      (d2, current' :: next')
  end.

Definition bcache_io_scheduler_pass (bc : bcache) : bcache :=
  let '(d, l) := scheduler_scan (disk bc) (cache bc) in
  set_disk d (set_cache l bc).

(** A call of the sequence, given the four functions of a revision.
    The value of a finished [Read] is the caller's buffer after it. *)
Definition exec_with
    (read : option (list byte) -> bcache -> Z -> list byte -> result (list byte))
    (write : option (list byte) -> bcache -> Z -> list byte -> result unit)
    (sync : bcache -> result unit)
    (scheduler : bcache -> bcache)
    (o : op) (bc : bcache) : result (option (list byte)) :=
  match o with
  | Read b out m =>
      match read m bc b out with
      | Done bc' buf => Done bc' (Some buf)
      | Failed bc' => Failed bc'
      | Blocked bc' => Blocked bc'
      | Crashed => Crashed
      end
  | Write b p m =>
      match write m bc b p with
      | Done bc' _ => Done bc' None
      | Failed bc' => Failed bc'
      | Blocked bc' => Blocked bc'
      | Crashed => Crashed
      end
  | Sync =>
      match sync bc with
      | Done bc' _ => Done bc' None
      | Failed bc' => Failed bc'
      | Blocked bc' => Blocked bc'
      | Crashed => Crashed
      end
  | Sched => Done (scheduler bc) None
  end.

(** What a sequence of calls that all return leaves behind: the cache
    object, the number of reads that copied a block to their caller and
    the number of writes that stored one.  A call that never returns
    ends the sequence with [None]. *)
Record tally : Type := {
  final : bcache;
  reads_done : Z;
  writes_done : Z
}.

Definition count (o : op) (t : tally) : tally :=
  match o with
  | Read _ _ _ =>
      {| final := final t; reads_done := reads_done t + 1;
         writes_done := writes_done t |}
  | Write _ _ _ =>
      {| final := final t; reads_done := reads_done t;
         writes_done := writes_done t + 1 |}
  | _ => t
  end.

Fixpoint run (exec : op -> bcache -> result (option (list byte)))
    (ops : list op) (bc : bcache) : option tally :=
  match ops with
  | [] => Some {| final := bc; reads_done := 0; writes_done := 0 |}
  | o :: ops' =>
      match exec o bc with
      | Done bc' _ => count o <$> run exec ops' bc'
      | Failed bc' => run exec ops' bc'
      | Blocked _ => None
      | Crashed => None
      end
  end.

(** The block a pointer refers to.  Pointers handed out by
    [find_block] are always in range; the default is never used. *)
Definition deref (l : list block) (i : nat) : block :=
  default {| blocknum := 0; state := BLOCK_FREE; data := [] |} (l !! i).

(** The end of [bcache_read] in [x.c] and [part_000]:
    [while (blk->state != BLOCK_READY) pthread_cond_wait(...)], then the
    copy to the caller and the count.  When no other call is running, a
    block that is not ready stays so. *)
Definition wait_ready_and_copy (bc : bcache) (i : nat) (out : list byte)
    : result (list byte) :=
  let blk := deref (cache bc) i in
  if decide (state blk = BLOCK_READY)
  then Done (incr_nreads bc) (memcpy out (data blk) BLOCK_SIZE)
  else Blocked bc.

(** [blk->state = BLOCK_READING] is already done; the transfer and
    [blk->state = BLOCK_READY] follow. *)
Definition read_from_disk (bc : bcache) (b : Z) (i : nat) : bcache :=
  let '(d, buf) := disk_read In_read (disk bc) b (data (deref (cache bc) i)) in
  set_disk d
    (set_cache
       (alter (fun blk => set_state BLOCK_READY (set_data buf blk)) i (cache bc))
       bc).

(** ** [bcache.c] *)
Module BcacheC.

(** [malloc_ok] and [mutex_ok] say whether [malloc] and
    [pthread_mutex_init] succeed. *)
Definition bcache_create (malloc_ok mutex_ok : bool) (d : struct_disk)
    (memory_blocks : Z) : option bcache :=
  if malloc_ok then
    if mutex_ok then
      Some {| disk := d; cache := []; memory_blocks := memory_blocks;
              nreads := 0; nwrites := 0 |}
    else None
  else None.

Definition bcache_read (m : option (list byte)) (bc : bcache) (b : Z)
    (out : list byte) : result (list byte) :=
  let finish (bc : bcache) (i : nat) :=
    let blk := deref (cache bc) i in
    if decide (state blk = BLOCK_READY)
    then Done (incr_nreads bc) (memcpy out (data blk) BLOCK_SIZE)
    else Failed bc in
  match find_block bc b with
  | Some i => finish bc i
  | None =>
      match m with
      | None => Failed bc
      | Some junk =>
          let '(d, buf) := disk_read In_read (disk bc) b junk in
          let blk := {| blocknum := b; state := BLOCK_READY; data := buf |} in
          finish (set_disk d (set_cache (blk :: cache bc) bc)) 0%nat
      end
  end.

Definition bcache_write := bcache_write_locked.
Definition bcache_sync := bcache_sync_locked.
Definition bcache_io_scheduler := bcache_io_scheduler_pass.

Definition exec : op -> bcache -> result (option (list byte)) :=
  exec_with bcache_read bcache_write bcache_sync bcache_io_scheduler.

End BcacheC.

(** ** [x.c] *)
Module XC.

(** Only [disk_lock] is initialised, and only that can fail. *)
Definition bcache_create (malloc_ok mutex_ok : bool) (d : struct_disk)
    (memory_blocks : Z) : option bcache :=
  if malloc_ok then
    if mutex_ok then
      Some {| disk := d; cache := []; memory_blocks := memory_blocks;
              nreads := 0; nwrites := 0 |}
    else None
  else None.

Definition bcache_read (m : option (list byte)) (bc : bcache) (b : Z)
    (out : list byte) : result (list byte) :=
  let transfer (bc : bcache) (i : nat) :=
    if decide (state (deref (cache bc) i) = BLOCK_READING)
    then read_from_disk bc b i
    else bc in
  match find_block bc b with
  | Some i => wait_ready_and_copy (transfer bc i) i out
  | None =>
      match m with
      | None => Failed bc
      | Some _ =>
          let blk := {| blocknum := b; state := BLOCK_READING;
                        data := zero_block |} in
          wait_ready_and_copy
            (transfer (set_cache (blk :: cache bc) bc) 0%nat) 0%nat out
      end
  end.

Definition bcache_write := bcache_write_locked.
Definition bcache_sync := bcache_sync_locked.
Definition bcache_io_scheduler := bcache_io_scheduler_pass.

Definition exec : op -> bcache -> result (option (list byte)) :=
  exec_with bcache_read bcache_write bcache_sync bcache_io_scheduler.

End XC.

(** ** [part_000] *)
Module Part000.

Definition bcache_create (malloc_ok : bool) (d : struct_disk)
    (memory_blocks : Z) : option bcache :=
  if malloc_ok then
    Some {| disk := d; cache := []; memory_blocks := memory_blocks;
            nreads := 0; nwrites := 0 |}
  else None.

(** The search of [find_or_create_block]. *)
Fixpoint find_from (l : list block) (b : Z) : option nat :=
  match l with
  | [] => None
  | blk :: next =>
      if decide (blocknum blk = b) then Some 0%nat
      else S <$> find_from next b
  end.

(** [None] is the null pointer the function returns when [malloc]
    fails. *)
Definition find_or_create_block (m : option (list byte)) (bc : bcache)
    (b : Z) : bcache * option nat :=
  match find_from (cache bc) b with
  | Some i => (bc, Some i)
  | None =>
      match m with
      | None => (bc, None)
      | Some junk =>
          let blk := {| blocknum := b; state := BLOCK_FREE; data := junk |} in
          (set_cache (blk :: cache bc) bc, Some 0%nat)
      end
  end.

Definition bcache_read (m : option (list byte)) (bc : bcache) (b : Z)
    (out : list byte) : result (list byte) :=
  match find_or_create_block m bc b with
  | (_, None) => Crashed
  | (bc, Some i) =>
      let s := state (deref (cache bc) i) in
      let bc :=
        if decide (s = BLOCK_FREE ∨ s = BLOCK_DIRTY)
        then read_from_disk
               (set_cache (alter (set_state BLOCK_READING) i (cache bc)) bc) b i
        else bc in
      wait_ready_and_copy bc i out
  end.

Definition bcache_write (m : option (list byte)) (bc : bcache) (b : Z)
    (p : list byte) : result unit :=
  match find_or_create_block m bc b with
  | (_, None) => Crashed
  | (bc, Some i) =>
      Done
        (incr_nwrites
           (set_cache
              (alter (fun blk => set_state BLOCK_DIRTY
                                   (set_data (memcpy (data blk) p BLOCK_SIZE) blk))
                 i (cache bc))
              bc))
        tt
  end.

(** The walk of [bcache_sync]: every dirty block is written by the
    caller itself. *)
Fixpoint sync_blocks (d : struct_disk) (l : list block)
    : struct_disk * list block :=
  match l with
  | [] => (d, [])
  | blk :: next =>
      let '(d1, blk') :=
        if decide (state blk = BLOCK_DIRTY)
        then (disk_write In_sync d (blocknum blk) (data blk),
              set_state BLOCK_READY blk)
        else (d, blk) in
      let '(d2, next') := sync_blocks d1 next in
      (d2, blk' :: next')
  end.

Definition bcache_sync (bc : bcache) : result unit :=
  let '(d, l) := sync_blocks (disk bc) (cache bc) in
  Done (set_disk d (set_cache l bc)) tt.

(** One pass of the loop of the scheduler: the first dirty block is
    written, then the [for] loop is left. *)
Fixpoint write_first_dirty (d : struct_disk) (l : list block)
    : struct_disk * list block :=
  match l with
  | [] => (d, [])
  | blk :: next =>
      if decide (state blk = BLOCK_DIRTY)
      then (disk_write In_scheduler d (blocknum blk) (data blk),
            set_state BLOCK_READY blk :: next)
      else let '(d', next') := write_first_dirty d next in (d', blk :: next')
  end.

Definition bcache_io_scheduler (bc : bcache) : bcache :=
  let '(d, l) := write_first_dirty (disk bc) (cache bc) in
  set_disk d (set_cache l bc).

Definition exec : op -> bcache -> result (option (list byte)) :=
  exec_with bcache_read bcache_write bcache_sync bcache_io_scheduler.

End Part000.

(** The block found for a number: what the search of a revision points
    at. *)
Definition entry (find : list block -> Z -> option nat) (l : list block)
    (b : Z) : option block :=
  find l b ≫= (fun i => l !! i).

(** ** Overlapping calls of [bcache_read] in [part_000]

    Several threads call [bcache_read] for the same block number at
    the same time; no other thread runs.  (The scheduler of this
    revision acts on dirty blocks only, and no block becomes dirty
    here.)  A thread advances one statement at a time, and the
    statements of different threads interleave in any order.  [malloc]
    gives a block whenever it is asked, and [pthread_cond_wait] returns
    only after a broadcast. *)
Module Interleaving.

(** The statement a thread is about to execute, by its line in the
    source. *)
Inductive pc : Type :=
  | Lock_cache      (* 99   pthread_mutex_lock(&bc->cache_lock) *)
  | Find            (* 100  blk = find_or_create_block(bc, blocknum) *)
  | Unlock_cache    (* 101  pthread_mutex_unlock(&bc->cache_lock) *)
  | Lock_blk        (* 103  pthread_mutex_lock(&blk->lock) *)
  | Test_state      (* 104  if (state == BLOCK_FREE || state == BLOCK_DIRTY) *)
  | Set_reading     (* 105  blk->state = BLOCK_READING *)
  | Unlock_blk      (* 106  pthread_mutex_unlock(&blk->lock) *)
  | Lock_disk       (* 108  pthread_mutex_lock(&bc->disk_lock) *)
  | Do_read         (* 109  disk_read(bc->disk, blocknum, blk->data) *)
  | Unlock_disk     (* 110  pthread_mutex_unlock(&bc->disk_lock) *)
  | Relock_blk      (* 112  pthread_mutex_lock(&blk->lock) *)
  | Set_ready       (* 113  blk->state = BLOCK_READY *)
  | Broadcast       (* 114  pthread_cond_broadcast(&blk->cond) *)
  | Test_ready      (* 117  while (blk->state != BLOCK_READY) *)
  | Waiting         (* 118  asleep in pthread_cond_wait, lock released *)
  | Woken           (* 118  woken, taking blk->lock again *)
  | Copy            (* 121  memcpy(data, blk->data, 4096) *)
  | Unlock_blk_end  (* 122  pthread_mutex_unlock(&blk->lock) *)
  | Count           (* 123  __sync_fetch_and_add(&bc->nreads, 1) *)
  | Returned.

#[global] Instance pc_eq_dec : EqDecision pc.
Proof. solve_decision. Defined.

(** The locals of a call: where it is, its [blk], the buffer [data]
    of its caller, and what [malloc] will hand it.  A block is pointed
    at by its age: the block allocated first is at address 0, and a
    block keeps its address when others are put before it in the
    list. *)
Record thread : Type := {
  th_pc : pc;
  th_blk : nat;
  th_data : list byte;
  th_junk : list byte
}.

Definition goto (p : pc) (t : thread) : thread :=
  {| th_pc := p; th_blk := th_blk t; th_data := th_data t;
     th_junk := th_junk t |}.

Definition address (l : list block) (i : nat) : nat := (length l - S i)%nat.

Definition at_addr (l : list block) (a : nat) : block :=
  deref l (length l - S a).

Definition store_addr (f : block -> block) (a : nat) (l : list block)
    : list block :=
  alter f (length l - S a)%nat l.

(** The cache object, who holds each lock, and the threads. *)
Record sys : Type := {
  shared : bcache;
  cache_lock : option nat;
  disk_lock : option nat;
  blk_lock : gmap nat nat;
  threads : list thread
}.

Definition set_shared (bc : bcache) (s : sys) : sys :=
  {| shared := bc; cache_lock := cache_lock s; disk_lock := disk_lock s;
     blk_lock := blk_lock s; threads := threads s |}.

Definition set_cache_lock (o : option nat) (s : sys) : sys :=
  {| shared := shared s; cache_lock := o; disk_lock := disk_lock s;
     blk_lock := blk_lock s; threads := threads s |}.

Definition set_disk_lock (o : option nat) (s : sys) : sys :=
  {| shared := shared s; cache_lock := cache_lock s; disk_lock := o;
     blk_lock := blk_lock s; threads := threads s |}.

Definition set_blk_lock (m : gmap nat nat) (s : sys) : sys :=
  {| shared := shared s; cache_lock := cache_lock s; disk_lock := disk_lock s;
     blk_lock := m; threads := threads s |}.

Definition set_threads (ts : list thread) (s : sys) : sys :=
  {| shared := shared s; cache_lock := cache_lock s; disk_lock := disk_lock s;
     blk_lock := blk_lock s; threads := ts |}.

Definition set_thread (i : nat) (t : thread) (s : sys) : sys :=
  set_threads (<[i := t]> (threads s)) s.

(** [pthread_cond_broadcast] on the condition of the block at [a]. *)
Definition wake (a : nat) (t : thread) : thread :=
  if decide (th_pc t = Waiting /\ th_blk t = a) then goto Woken t else t.

(** One statement of thread [i] of a call [bcache_read(bc, b, data)];
    [None] when the thread does not exist, has returned, sleeps, or
    asks for a lock that is held. *)
Definition step (b : Z) (i : nat) (s : sys) : option sys :=
  match threads s !! i with
  | None => None
  | Some t =>
      let blk := at_addr (cache (shared s)) (th_blk t) in
      match th_pc t with
      | Lock_cache =>
          match cache_lock s with
          | None => Some (set_thread i (goto Find t) (set_cache_lock (Some i) s))
          | Some _ => None
          end
      | Find =>
          match Part000.find_or_create_block (Some (th_junk t)) (shared s) b with
          | (bc, Some idx) =>
              Some (set_thread i
                      {| th_pc := Unlock_cache;
                         th_blk := address (cache bc) idx;
                         th_data := th_data t; th_junk := th_junk t |}
                      (set_shared bc s))
          | (_, None) => None
          end
      | Unlock_cache =>
          Some (set_thread i (goto Lock_blk t) (set_cache_lock None s))
      | Lock_blk =>
          match blk_lock s !! th_blk t with
          | None =>
              Some (set_thread i (goto Test_state t)
                      (set_blk_lock (<[th_blk t := i]> (blk_lock s)) s))
          | Some _ => None
          end
      | Test_state =>
          if decide (state blk = BLOCK_FREE \/ state blk = BLOCK_DIRTY)
          then Some (set_thread i (goto Set_reading t) s)
          else Some (set_thread i (goto Test_ready t) s)
      | Set_reading =>
          Some (set_thread i (goto Unlock_blk t)
                  (set_shared
                     (set_cache
                        (store_addr (set_state BLOCK_READING) (th_blk t)
                           (cache (shared s)))
                        (shared s)) s))
      | Unlock_blk =>
          Some (set_thread i (goto Lock_disk t)
                  (set_blk_lock (delete (th_blk t) (blk_lock s)) s))
      | Lock_disk =>
          match disk_lock s with
          | None => Some (set_thread i (goto Do_read t) (set_disk_lock (Some i) s))
          | Some _ => None
          end
      | Do_read =>
          let '(d, buf) := disk_read In_read (disk (shared s)) b (data blk) in
          Some (set_thread i (goto Unlock_disk t)
                  (set_shared
                     (set_disk d
                        (set_cache
                           (store_addr (set_data buf) (th_blk t)
                              (cache (shared s)))
                           (shared s))) s))
      | Unlock_disk =>
          Some (set_thread i (goto Relock_blk t) (set_disk_lock None s))
      | Relock_blk =>
          match blk_lock s !! th_blk t with
          | None =>
              Some (set_thread i (goto Set_ready t)
                      (set_blk_lock (<[th_blk t := i]> (blk_lock s)) s))
          | Some _ => None
          end
      | Set_ready =>
          Some (set_thread i (goto Broadcast t)
                  (set_shared
                     (set_cache
                        (store_addr (set_state BLOCK_READY) (th_blk t)
                           (cache (shared s)))
                        (shared s)) s))
      | Broadcast =>
          Some (set_thread i (goto Test_ready t)
                  (set_threads (wake (th_blk t) <$> threads s) s))
      | Test_ready =>
          if decide (state blk = BLOCK_READY)
          then Some (set_thread i (goto Copy t) s)
          else Some (set_thread i (goto Waiting t)
                       (set_blk_lock (delete (th_blk t) (blk_lock s)) s))
      | Waiting => None
      | Woken =>
          match blk_lock s !! th_blk t with
          | None =>
              Some (set_thread i (goto Test_ready t)
                      (set_blk_lock (<[th_blk t := i]> (blk_lock s)) s))
          | Some _ => None
          end
      | Copy =>
          Some (set_thread i
                  {| th_pc := Unlock_blk_end; th_blk := th_blk t;
                     th_data := memcpy (th_data t) (data blk) BLOCK_SIZE;
                     th_junk := th_junk t |} s)
      | Unlock_blk_end =>
          Some (set_thread i (goto Count t)
                  (set_blk_lock (delete (th_blk t) (blk_lock s)) s))
      | Count =>
          Some (set_thread i (goto Returned t)
                  (set_shared (incr_nreads (shared s)) s))
      | Returned => None
      end
  end.

(** A schedule names the thread that moves next; a thread that cannot
    move when it is named is passed over. *)
Fixpoint run_schedule (b : Z) (sched : list nat) (s : sys) : sys :=
  match sched with
  | [] => s
  | i :: sched' =>
      match step b i s with
      | Some s' => run_schedule b sched' s'
      | None => run_schedule b sched' s
      end
  end.

(** The statements executed under a schedule. *)
Fixpoint steps_taken (b : Z) (sched : list nat) (s : sys) : nat :=
  match sched with
  | [] => 0%nat
  | i :: sched' =>
      match step b i s with
      | Some s' => S (steps_taken b sched' s')
      | None => steps_taken b sched' s
      end
  end.

(** The calls start together on the cache object [bc]: one thread for
    each pair of a caller's buffer and the bytes [malloc] would hand
    out. *)
Definition start (bc : bcache) (callers : list (list byte * list byte)) : sys :=
  {| shared := bc; cache_lock := None; disk_lock := None; blk_lock := ∅;
     threads := (fun c => {| th_pc := Lock_cache; th_blk := 0%nat;
                             th_data := c.1; th_junk := c.2 |}) <$> callers |}.

Definition all_returned (s : sys) : Prop :=
  Forall (fun t => th_pc t = Returned) (threads s).

Definition stuck (b : Z) (s : sys) : Prop :=
  forall i, step b i s = None.

(** *** The invariant of the interleaving

    [l0] is the list the calls start on, which holds no block numbered
    [b]; [r0] the reads of [b] the device had received before; [sec]
    the 4096 bytes the device holds for [b]. *)

(** The statements at which a thread holds [cache_lock], [disk_lock]
    and the lock of its block. *)
Definition holds_cache (p : pc) : bool :=
  match p with
  | Find | Unlock_cache => true
  | _ => false
  end.

Definition holds_disk (p : pc) : bool :=
  match p with
  | Do_read | Unlock_disk => true
  | _ => false
  end.

Definition holds_blk (p : pc) : bool :=
  match p with
  | Test_state | Set_reading | Unlock_blk | Set_ready | Broadcast
  | Test_ready | Copy | Unlock_blk_end => true
  | _ => false
  end.

(** The thread has its [blk]. *)
Definition has_blk (p : pc) : bool :=
  match p with
  | Lock_cache | Find => false
  | _ => true
  end.

(** The thread has marked the block [BLOCK_READING] and not yet
    [BLOCK_READY]. *)
Definition in_transfer (p : pc) : bool :=
  match p with
  | Unlock_blk | Lock_disk | Do_read | Unlock_disk | Relock_blk
  | Set_ready => true
  | _ => false
  end.

(** The entry for [b], once a thread has created it, against the reads
    [r] the device has received. *)
Definition view_ok (b : Z) (r0 : nat) (sec : list byte) (r : nat)
    (v : option block) : Prop :=
  match v with
  | None => r = r0
  | Some blk =>
      blocknum blk = b
      /\ match state blk with
         | BLOCK_FREE => r = r0
         | BLOCK_READING => True
         | BLOCK_READY => r = S r0 /\ take BLOCK_SIZE (data blk) = sec
         | _ => False
         end
  end.

(** What a thread may rely on at each statement: the state of the
    entry, the reads made so far, and what its buffer holds once it has
    copied. *)
Definition pc_ok (r0 : nat) (sec : list byte) (r : nat) (blk : block)
    (t : thread) : Prop :=
  match th_pc t with
  | Set_reading => state blk = BLOCK_FREE
  | Unlock_blk | Lock_disk | Do_read => state blk = BLOCK_READING /\ r = r0
  | Unlock_disk | Relock_blk | Set_ready =>
      state blk = BLOCK_READING /\ r = S r0
      /\ take BLOCK_SIZE (data blk) = sec
  | Broadcast | Woken | Copy => state blk = BLOCK_READY
  | Test_ready | Waiting => state blk <> BLOCK_FREE
  | Unlock_blk_end | Count | Returned =>
      state blk = BLOCK_READY /\ take BLOCK_SIZE (th_data t) = sec
  | _ => True
  end.

(** Thread [i] holds exactly the locks its statement says, and points
    at the entry for [b], the block allocated after those of [l0]. *)
Definition thread_ok (l0 : list block) (r0 : nat) (sec : list byte)
    (s : sys) (r : nat) (v : option block) (i : nat) (t : thread) : Prop :=
  (holds_cache (th_pc t) = true <-> cache_lock s = Some i)
  /\ (holds_disk (th_pc t) = true <-> disk_lock s = Some i)
  /\ (holds_blk (th_pc t) = true <-> blk_lock s !! length l0 = Some i)
  /\ match v with
     | None => has_blk (th_pc t) = false
     | Some blk =>
         (has_blk (th_pc t) = true -> th_blk t = length l0)
         /\ pc_ok r0 sec r blk t
     end.

(** Some thread is at a statement of the kind [P]. *)
Definition some_thread (s : sys) (P : pc -> bool) : Prop :=
  exists j t, threads s !! j = Some t /\ P (th_pc t) = true.

Definition is_pc (p q : pc) : bool := bool_decide (p = q).

(** The invariant: the list is [l0], with the entry [v] for [b] before
    it once created; the device holds what it held; locks have owners
    that exist; a block marked [BLOCK_READING] has a thread that
    transfers it, and only one; a sleeping thread has a broadcast ahead
    of it. *)
Record Inv (l0 : list block) (b : Z) (r0 : nat) (sec : list byte) (s : sys)
    (v : option block) : Prop := {
  inv_cache : cache (shared s) = from_option (fun blk => blk :: l0) l0 v;
  inv_sector : sector (disk (shared s)) b = sec;
  inv_view : view_ok b r0 sec (device_reads (disk (shared s)) b) v;
  inv_threads : forall i t, threads s !! i = Some t ->
      thread_ok l0 r0 sec s (device_reads (disk (shared s)) b) v i t;
  inv_cache_owner : forall j, cache_lock s = Some j -> is_Some (threads s !! j);
  inv_disk_owner : forall j, disk_lock s = Some j -> is_Some (threads s !! j);
  inv_blk_owner : forall j,
      blk_lock s !! length l0 = Some j -> is_Some (threads s !! j);
  inv_reading : forall blk, v = Some blk -> state blk = BLOCK_READING ->
      some_thread s in_transfer;
  inv_waiting : forall blk, v = Some blk -> some_thread s (is_pc Waiting) ->
      state blk = BLOCK_READING \/ some_thread s (is_pc Broadcast);
  inv_one_transfer : forall i j ti tj,
      threads s !! i = Some ti -> threads s !! j = Some tj ->
      in_transfer (th_pc ti) = true -> in_transfer (th_pc tj) = true -> i = j
}.

(** A thread that is at a statement other than a lock request or the
    sleep can execute it. *)
Definition ready_to_run (p : pc) : bool :=
  match p with
  | Lock_cache | Lock_blk | Lock_disk | Relock_blk | Woken | Waiting
  | Returned => false
  | _ => true
  end.

(** *** Termination

    How far a thread is from its return, in statements; a thread at
    the test of the [while] loop is close when the block is ready and
    has the sleep before it when not. *)
Definition rank (ready : bool) (p : pc) : nat :=
  match p with
  | Lock_cache => 20
  | Find => 19
  | Unlock_cache => 18
  | Lock_blk => 17
  | Test_state => 16
  | Set_reading => 15
  | Unlock_blk => 14
  | Lock_disk => 13
  | Do_read => 12
  | Unlock_disk => 11
  | Relock_blk => 10
  | Set_ready => 9
  | Broadcast => 8
  | Test_ready => if ready then 4 else 7
  | Waiting => 6
  | Woken => 5
  | Copy => 3
  | Unlock_blk_end => 2
  | Count => 1
  | Returned => 0
  end%nat.

(** Whether the entry for [b] is ready, and the statements all
    threads together still have before them. *)
Definition ready_in (l : list block) (b : Z) : bool :=
  match entry Part000.find_from l b with
  | Some blk => bool_decide (state blk = BLOCK_READY)
  | None => false
  end.

Definition measure (b : Z) (s : sys) : nat :=
  sum_list ((fun t => rank (ready_in (cache (shared s)) b) (th_pc t))
              <$> threads s).

End Interleaving.

(** ** Concrete inputs

    A device of ten blocks that holds zeros, a fresh cache object on it,
    and a block of 4096 bytes ['A']. *)

Definition disk10 : struct_disk := {| nblocks := 10; sectors := ∅; calls := [] |}.

Definition fresh (d : struct_disk) (memory_blocks : Z) : bcache :=
  {| disk := d; cache := []; memory_blocks := memory_blocks;
     nreads := 0; nwrites := 0 |}.

Definition bytes_A : list byte := replicate BLOCK_SIZE Byte.x41.

(** ** Notions the statements use *)

(** What [bcache_write] does to the block it points at: the copy of
    the caller's bytes and [blk->state = BLOCK_DIRTY]. *)
Definition dirty_with (p : list byte) (blk : block) : block :=
  set_state BLOCK_DIRTY (set_data (memcpy (data blk) p BLOCK_SIZE) blk).

(** The entries of the list whose number is not [b], in list order. *)
Definition others (b : Z) (l : list block) : list block :=
  filter (fun blk => blocknum blk <> b) l.

(** A list that holds blocks 1 (ready) and 0 (dirty). *)
Definition two_blocks : bcache :=
  {| disk := disk10;
     cache := [ {| blocknum := 1; state := BLOCK_READY; data := zero_block |};
                {| blocknum := 0; state := BLOCK_DIRTY; data := zero_block |} ];
     memory_blocks := 2; nreads := 1; nwrites := 1 |}.

(** The same after [bcache_write] of 4096 bytes ['A'] to block 0. *)
Definition two_blocks_after_write : bcache :=
  {| disk := disk10;
     cache := [ {| blocknum := 1; state := BLOCK_READY; data := zero_block |};
                {| blocknum := 0; state := BLOCK_DIRTY; data := bytes_A |} ];
     memory_blocks := 2; nreads := 1; nwrites := 2 |}.

(** The cache object after [bcache_write] of block 0 on the fresh
    cache, the same in the three revisions. *)
Definition written_0 : bcache :=
  {| disk := disk10;
     cache := [{| blocknum := 0; state := BLOCK_DIRTY; data := bytes_A |}];
     memory_blocks := 2; nreads := 0; nwrites := 1 |}.

(** The block numbers in the list, head first. *)
Definition nums (l : list block) : list Z := blocknum <$> l.

(** A block at rest between calls: its data are valid, no transfer is
    under way. *)
Definition settled (blk : block) : Prop :=
  state blk = BLOCK_READY \/ state blk = BLOCK_DIRTY.

(** Neither dirty nor being written. *)
Definition clean (blk : block) : Prop :=
  state blk <> BLOCK_DIRTY /\ state blk <> BLOCK_WRITING.

(** The block numbers a sequence of calls reads or writes. *)
Definition touched (ops : list op) : list Z :=
  omap (fun o => match o with
                 | Read b _ _ => Some b
                 | Write b _ _ => Some b
                 | _ => None
                 end) ops.

(** The block numbers of the list once [b] has been looked up in it
    and, if missing, put at its head. *)
Definition grown (b : Z) (l : list block) : list Z :=
  if decide (b ∈ nums l) then nums l else b :: nums l.

(** A revision counts its calls when a read that copied adds one to
    [nreads], a write that stored adds one to [nwrites], and nothing
    else touches the counters. *)
Definition counts_calls (exec : op -> bcache -> result (option (list byte)))
    : Prop :=
  forall o bc,
    match exec o bc with
    | Done bc' _ =>
        nreads bc' = match o with
                     | Read _ _ _ => int_incr (nreads bc)
                     | _ => nreads bc
                     end
        /\ nwrites bc' = match o with
                         | Write _ _ _ => int_incr (nwrites bc)
                         | _ => nwrites bc
                         end
    | Failed bc' => nreads bc' = nreads bc /\ nwrites bc' = nwrites bc
    | _ => True
    end.

(** [P] survives every call that returns. *)
Definition preserves (P : bcache -> Prop)
    (exec : op -> bcache -> result (option (list byte))) : Prop :=
  forall o bc, P bc ->
    match exec o bc with
    | Done bc' _ => P bc'
    | Failed bc' => P bc'
    | _ => True
    end.

Definition all_settled (bc : bcache) : Prop := Forall settled (cache bc).

(** Writes to two blocks; and six calls that touch three. *)
Definition two_writes : list op :=
  [Write 0 bytes_A (Some zero_block); Write 1 bytes_A (Some zero_block)].

Definition six_calls : list op :=
  [Write 0 bytes_A (Some zero_block); Write 1 bytes_A (Some zero_block);
   Sync; Read 1 zero_block None; Read 2 zero_block (Some zero_block); Sched].

(** [malloc] gives the call a block if it asks for one. *)
Definition gets_memory (o : op) : Prop :=
  match o with
  | Read _ _ None => False
  | Write _ _ None => False
  | _ => True
  end.

(** No block of the list is [BLOCK_FREE]: [bcache.c] and [x.c] never
    leave one so, and their search skips such blocks. *)
Definition no_free (bc : bcache) : Prop :=
  Forall (fun blk => state blk <> BLOCK_FREE) (cache bc).

(** A revision grows its list by need when a call that returns leaves
    the block numbers as they were, except that a read or a write of a
    number that is not in the list puts it at the head; [P] is what the
    revision keeps true of the cache object meanwhile. *)
Definition grows_by_need (ok : op -> Prop) (P : bcache -> Prop)
    (exec : op -> bcache -> result (option (list byte))) : Prop :=
  forall o bc, ok o -> P bc ->
    let after bc' :=
      P bc' /\ memory_blocks bc' = memory_blocks bc
      /\ nums (cache bc') = match o with
                            | Read b _ _ => grown b (cache bc)
                            | Write b _ _ => grown b (cache bc)
                            | _ => nums (cache bc)
                            end in
    match exec o bc with
    | Done bc' _ => after bc'
    | Failed bc' => after bc'
    | _ => True
    end.

(** Three callers and a schedule that lets them take turns. *)
Definition three_callers : list (list byte * list byte) :=
  [(zero_block, bytes_A); (bytes_A, bytes_A); (bytes_A, zero_block)].

Definition taking_turns : list nat := concat (replicate 20 [0; 1; 2]%nat).

(** ** The three revisions side by side *)

Inductive revision : Type :=
  | Bcache_c
  | X_c
  | Part_000.

#[global] Instance revision_eq_dec : EqDecision revision.
Proof. solve_decision. Defined.

(** The search, the calls and the scheduler pass of each revision. *)
Definition find_of (r : revision) : list block -> Z -> option nat :=
  match r with
  | Part_000 => Part000.find_from
  | _ => find_block_from
  end.

Definition read_of (r : revision)
    : option (list byte) -> bcache -> Z -> list byte -> result (list byte) :=
  match r with
  | Bcache_c => BcacheC.bcache_read
  | X_c => XC.bcache_read
  | Part_000 => Part000.bcache_read
  end.

Definition write_of (r : revision)
    : option (list byte) -> bcache -> Z -> list byte -> result unit :=
  match r with
  | Bcache_c => BcacheC.bcache_write
  | X_c => XC.bcache_write
  | Part_000 => Part000.bcache_write
  end.

Definition exec_of (r : revision) : op -> bcache -> result (option (list byte)) :=
  match r with
  | Bcache_c => BcacheC.exec
  | X_c => XC.exec
  | Part_000 => Part000.exec
  end.

(** [add_block_to_cache] of [bcache.c] and [x.c]: a ready block with
    the first 4096 bytes of [buf] is put at the head of the list; on a
    null [malloc] the function returns with the list as it was.  It does
    not look for a block of that number first. *)
Definition add_block_to_cache (m : option (list byte)) (bc : bcache) (b : Z)
    (buf : list byte) : bcache :=
  match m with
  | None => bc
  | Some junk =>
      set_cache ({| blocknum := b; state := BLOCK_READY;
                    data := memcpy junk buf BLOCK_SIZE |} :: cache bc) bc
  end.

(** ** More notions the statements use *)

(** The block after [disk_read] into its data and
    [blk->state = BLOCK_READY]. *)
Definition fetched (d : struct_disk) (blk : block) : block :=
  {| blocknum := blocknum blk; state := BLOCK_READY;
     data := memcpy (data blk) (sector d (blocknum blk)) BLOCK_SIZE |}.

(** The cache object after a caller's [disk_read] into the block at
    [i]. *)
Definition after_fetch (bc : bcache) (i : nat) (blk : block) : bcache :=
  set_disk (disk_read In_read (disk bc) (blocknum blk) (data blk)).1
    (set_cache (<[i := fetched (disk bc) blk]> (cache bc)) bc).

(** The block a read puts in the list when the number is not there:
    [x.c] clears the new block with [memset] before the transfer. *)
Definition brought_in (r : revision) (d : struct_disk) (b : Z)
    (junk : list byte) : block :=
  fetched d {| blocknum := b; state := BLOCK_READING;
               data := match r with X_c => zero_block | _ => junk end |}.

(** The dirty blocks of the list, head first. *)
Definition dirty_blocks (l : list block) : list block :=
  filter (fun blk => state blk = BLOCK_DIRTY) l.

(** What a write-back leaves of a block: a dirty block becomes ready,
    its data stay; any other block is as it was. *)
Definition written_back (blk : block) : block :=
  if decide (state blk = BLOCK_DIRTY) then set_state BLOCK_READY blk else blk.

(** The device's blocks once the dirty blocks of [l] have been written
    to it in list order. *)
Definition sectors_after (l : list block) (m : gmap Z (list byte))
    : gmap Z (list byte) :=
  foldl (fun m blk => <[blocknum blk := take BLOCK_SIZE (data blk)]> m) m
    (dirty_blocks l).

(** [n] turns of the [while (1)] loop of [bcache_io_scheduler] in
    [part_000]. *)
Definition scheduler_turns (n : nat) (bc : bcache) : bcache :=
  Nat.iter n Part000.bcache_io_scheduler bc.

(** A block with a transfer asked for and not yet made. *)
Definition pending (blk : block) : Prop :=
  state blk = BLOCK_READING \/ state blk = BLOCK_WRITING.

#[global] Instance pending_dec blk : Decision (pending blk).
Proof. unfold pending. apply _. Defined.

(** A call of the device made by [bcache_read]. *)
Definition read_by_caller (t : transfer) : Prop :=
  exists b, t = Disk_read In_read b.

(** A call that writes nothing: a read that gets a block from [malloc]
    if it asks, [bcache_sync], or a pass of the scheduler. *)
Definition reads_only (o : op) : Prop :=
  match o with
  | Read _ _ (Some _) => True
  | Sync | Sched => True
  | _ => False
  end.

(** What the reads of a sequence handed to their callers, in call
    order, each with the block number asked for. *)
Fixpoint read_results (exec : op -> bcache -> result (option (list byte)))
    (ops : list op) (bc : bcache) : list (Z * list byte) :=
  match ops with
  | [] => []
  | o :: ops' =>
      match exec o bc with
      | Done bc' got =>
          match o, got with
          | Read b _ _, Some buf => (b, buf) :: read_results exec ops' bc'
          | _, _ => read_results exec ops' bc'
          end
      | Failed bc' => read_results exec ops' bc'
      | _ => []
      end
  end.

(** The list holds what the device [d] holds: every block is ready
    with the device's 4096 bytes, the device's blocks are those of [d],
    and it has received one read more than [d] for each block number of
    the list. *)
Definition mirrors (d : struct_disk) (bc : bcache) : Prop :=
  Forall (fun blk => state blk = BLOCK_READY
                     /\ take BLOCK_SIZE (data blk) = sector d (blocknum blk))
    (cache bc)
  /\ sectors (disk bc) = sectors d
  /\ forall b, device_reads (disk bc) b
               = (device_reads d b
                  + if decide (b ∈ nums (cache bc)) then 1 else 0)%nat.

(** The device has been read by callers and never written: its blocks
    are those of [d], and it has received only calls of [bcache_read]
    since. *)
Definition only_read_since (d : struct_disk) (bc : bcache) : Prop :=
  all_settled bc
  /\ sectors (disk bc) = sectors d
  /\ exists reads, calls (disk bc) = reads ++ calls d
                   /\ Forall read_by_caller reads.

(** The callers of the interleaving that have returned. *)
Definition returned (s : Interleaving.sys) : nat :=
  length (filter (fun t => Interleaving.th_pc t = Interleaving.Returned)
            (Interleaving.threads s)).

(** Reads of blocks 3, 3 and 4 with a sync and a scheduler pass
    between them; and writes, reads and scheduler passes mixed. *)
Definition reads_3_3_4 : list op :=
  [Read 3 zero_block (Some bytes_A); Sync; Read 3 bytes_A (Some bytes_A);
   Sched; Read 4 zero_block (Some bytes_A)].

Definition writes_and_reads : list op :=
  [Write 0 bytes_A (Some zero_block); Sched; Read 1 zero_block (Some zero_block);
   Write 0 zero_block None; Sched; Read 1 bytes_A None].

(** A schedule long enough for the three callers to return. *)
Definition turns_to_the_end : list nat := concat (replicate 30 [0; 1; 2]%nat).

(** ** Overlapping calls of [bcache_read] in [x.c]

    Several threads call [bcache_read] of [x.c] for the same block
    number at the same time; no other thread runs.  A thread advances
    one statement at a time, the statements of different threads
    interleave in any order, and [malloc] gives a block whenever it is
    asked.  The search and, when it finds nothing, the making of the new
    block (lines 119 to 135) are one step: they run with [cache_lock]
    held, and no other thread has a pointer to the new block before the
    lock is released.  As in [Interleaving], a block is pointed at by
    its age. *)
Module XReaders.

(** The statement a thread is about to execute, by its line in the
    source. *)
Inductive pc : Type :=
  | Lock_cache      (* 118  pthread_mutex_lock(&bc->cache_lock) *)
  | Find            (* 119  blk = find_block(bc, blocknum), and 121-135 *)
  | Unlock_cache    (* 137  pthread_mutex_unlock(&bc->cache_lock) *)
  | Lock_blk        (* 140  pthread_mutex_lock(&blk->lock) *)
  | Test_reading    (* 141  if (blk->state == BLOCK_READING) *)
  | Lock_disk       (* 143  pthread_mutex_lock(&bc->disk_lock) *)
  | Do_read         (* 144  disk_read(bc->disk, blocknum, blk->data) *)
  | Unlock_disk     (* 145  pthread_mutex_unlock(&bc->disk_lock) *)
  | Set_ready       (* 147  blk->state = BLOCK_READY *)
  | Broadcast       (* 148  pthread_cond_broadcast(&blk->cond) *)
  | Test_ready      (* 152  while (blk->state != BLOCK_READY) *)
  | Waiting         (* 153  asleep in pthread_cond_wait, lock released *)
  | Woken           (* 153  woken, taking blk->lock again *)
  | Copy            (* 157  memcpy(data, blk->data, 4096) *)
  | Unlock_blk      (* 158  pthread_mutex_unlock(&blk->lock) *)
  | Count           (* 161  __sync_fetch_and_add(&bc->nreads, 1) *)
  | Returned.

#[global] Instance pc_eq_dec : EqDecision pc.
Proof. solve_decision. Defined.

(** The locals of a call: where it is, its [blk] and the buffer
    [data] of its caller. *)
Record thread : Type := {
  th_pc : pc;
  th_blk : nat;
  th_data : list byte
}.

Definition goto (p : pc) (t : thread) : thread :=
  {| th_pc := p; th_blk := th_blk t; th_data := th_data t |}.

(** The cache object, who holds each lock, and the threads. *)
Record sys : Type := {
  shared : bcache;
  cache_lock : option nat;
  disk_lock : option nat;
  blk_lock : gmap nat nat;
  threads : list thread
}.

Definition set_shared (bc : bcache) (s : sys) : sys :=
  {| shared := bc; cache_lock := cache_lock s; disk_lock := disk_lock s;
     blk_lock := blk_lock s; threads := threads s |}.

Definition set_cache_lock (o : option nat) (s : sys) : sys :=
  {| shared := shared s; cache_lock := o; disk_lock := disk_lock s;
     blk_lock := blk_lock s; threads := threads s |}.

Definition set_disk_lock (o : option nat) (s : sys) : sys :=
  {| shared := shared s; cache_lock := cache_lock s; disk_lock := o;
     blk_lock := blk_lock s; threads := threads s |}.

Definition set_blk_lock (m : gmap nat nat) (s : sys) : sys :=
  {| shared := shared s; cache_lock := cache_lock s; disk_lock := disk_lock s;
     blk_lock := m; threads := threads s |}.

Definition set_threads (ts : list thread) (s : sys) : sys :=
  {| shared := shared s; cache_lock := cache_lock s; disk_lock := disk_lock s;
     blk_lock := blk_lock s; threads := ts |}.

Definition set_thread (i : nat) (t : thread) (s : sys) : sys :=
  set_threads (<[i := t]> (threads s)) s.

(** [pthread_cond_broadcast] on the condition of the block at [a]. *)
Definition wake (a : nat) (t : thread) : thread :=
  if decide (th_pc t = Waiting /\ th_blk t = a) then goto Woken t else t.

(** One statement of thread [i] of a call [bcache_read(bc, b, data)];
    [None] when the thread does not exist, has returned, sleeps, or
    asks for a lock that is held. *)
Definition step (b : Z) (i : nat) (s : sys) : option sys :=
  match threads s !! i with
  | None => None
  | Some t =>
      let blk := Interleaving.at_addr (cache (shared s)) (th_blk t) in
      match th_pc t with
      | Lock_cache =>
          match cache_lock s with
          | None => Some (set_thread i (goto Find t) (set_cache_lock (Some i) s))
          | Some _ => None
          end
      | Find =>
          match find_block (shared s) b with
          | Some idx =>
              Some (set_thread i
                      {| th_pc := Unlock_cache;
                         th_blk := Interleaving.address (cache (shared s)) idx;
                         th_data := th_data t |} s)
          | None =>
              let l := {| blocknum := b; state := BLOCK_READING;
                          data := zero_block |} :: cache (shared s) in
              Some (set_thread i
                      {| th_pc := Unlock_cache;
                         th_blk := Interleaving.address l 0;
                         th_data := th_data t |}
                      (set_shared (set_cache l (shared s)) s))
          end
      | Unlock_cache =>
          Some (set_thread i (goto Lock_blk t) (set_cache_lock None s))
      | Lock_blk =>
          match blk_lock s !! th_blk t with
          | None =>
              Some (set_thread i (goto Test_reading t)
                      (set_blk_lock (<[th_blk t := i]> (blk_lock s)) s))
          | Some _ => None
          end
      | Test_reading =>
          if decide (state blk = BLOCK_READING)
          then Some (set_thread i (goto Lock_disk t) s)
          else Some (set_thread i (goto Test_ready t) s)
      | Lock_disk =>
          match disk_lock s with
          | None => Some (set_thread i (goto Do_read t) (set_disk_lock (Some i) s))
          | Some _ => None
          end
      | Do_read =>
          let '(d, buf) := disk_read In_read (disk (shared s)) b (data blk) in
          Some (set_thread i (goto Unlock_disk t)
                  (set_shared
                     (set_disk d
                        (set_cache
                           (Interleaving.store_addr (set_data buf) (th_blk t)
                              (cache (shared s)))
                           (shared s))) s))
      | Unlock_disk =>
          Some (set_thread i (goto Set_ready t) (set_disk_lock None s))
      | Set_ready =>
          Some (set_thread i (goto Broadcast t)
                  (set_shared
                     (set_cache
                        (Interleaving.store_addr (set_state BLOCK_READY)
                           (th_blk t) (cache (shared s)))
                        (shared s)) s))
      | Broadcast =>
          Some (set_thread i (goto Test_ready t)
                  (set_threads (wake (th_blk t) <$> threads s) s))
      | Test_ready =>
          if decide (state blk = BLOCK_READY)
          then Some (set_thread i (goto Copy t) s)
          else Some (set_thread i (goto Waiting t)
                       (set_blk_lock (delete (th_blk t) (blk_lock s)) s))
      | Waiting => None
      | Woken =>
          match blk_lock s !! th_blk t with
          | None =>
              Some (set_thread i (goto Test_ready t)
                      (set_blk_lock (<[th_blk t := i]> (blk_lock s)) s))
          | Some _ => None
          end
      | Copy =>
          Some (set_thread i
                  {| th_pc := Unlock_blk; th_blk := th_blk t;
                     th_data := memcpy (th_data t) (data blk) BLOCK_SIZE |} s)
      | Unlock_blk =>
          Some (set_thread i (goto Count t)
                  (set_blk_lock (delete (th_blk t) (blk_lock s)) s))
      | Count =>
          Some (set_thread i (goto Returned t)
                  (set_shared (incr_nreads (shared s)) s))
      | Returned => None
      end
  end.

(** A schedule names the thread that moves next; a thread that cannot
    move when it is named is passed over. *)
Fixpoint run_schedule (b : Z) (sched : list nat) (s : sys) : sys :=
  match sched with
  | [] => s
  | i :: sched' =>
      match step b i s with
      | Some s' => run_schedule b sched' s'
      | None => run_schedule b sched' s
      end
  end.

(** The statements executed under a schedule. *)
Fixpoint steps_taken (b : Z) (sched : list nat) (s : sys) : nat :=
  match sched with
  | [] => 0%nat
  | i :: sched' =>
      match step b i s with
      | Some s' => S (steps_taken b sched' s')
      | None => steps_taken b sched' s
      end
  end.

(** The calls start together on the cache object [bc], one thread for
    each caller's buffer.  [bcache_create] of [x.c] initialises
    [disk_lock] (line 67) and never [cache_lock]: what
    [pthread_mutex_lock] finds at line 118 is what [malloc] left in the
    object.  [lock0] is that content taken as a mutex: [None] when it is
    a free mutex, [Some k] when it reads as held by a thread [k].  The
    locks of the blocks are initialised where the blocks are made (lines
    99 and 134). *)
Definition start (bc : bcache) (lock0 : option nat)
    (callers : list (list byte)) : sys :=
  {| shared := bc; cache_lock := lock0; disk_lock := None; blk_lock := ∅;
     threads := (fun c => {| th_pc := Lock_cache; th_blk := 0%nat;
                             th_data := c |}) <$> callers |}.

Definition all_returned (s : sys) : Prop :=
  Forall (fun t => th_pc t = Returned) (threads s).

Definition stuck (b : Z) (s : sys) : Prop :=
  forall i, step b i s = None.

(** *** The invariant of the interleaving

    [l0] is the list the calls start on and [a] the address of the
    block for [b]: the next free address when the list does not hold
    the block ([miss]), the address of the block found when it holds it
    ready.  [r0] is the number of reads of [b] the device had received
    before, and [sec] the 4096 bytes every caller is to get: those the
    device holds for [b], or those of the ready block. *)

(** The statements at which a thread holds [cache_lock], [disk_lock]
    and the lock of its block. *)
Definition holds_cache (p : pc) : bool :=
  match p with
  | Find | Unlock_cache => true
  | _ => false
  end.

Definition holds_disk (p : pc) : bool :=
  match p with
  | Do_read | Unlock_disk => true
  | _ => false
  end.

Definition holds_blk (p : pc) : bool :=
  match p with
  | Test_reading | Lock_disk | Do_read | Unlock_disk | Set_ready | Broadcast
  | Test_ready | Copy | Unlock_blk => true
  | _ => false
  end.

(** The thread has its [blk]. *)
Definition has_blk (p : pc) : bool :=
  match p with
  | Lock_cache | Find => false
  | _ => true
  end.

(** The block for [b], once it is in the list, against the reads the
    device has received: a block marked [BLOCK_READING] has not been
    read yet unless a thread holds its lock. *)
Definition view_ok (b : Z) (a r0 : nat) (sec : list byte) (miss : bool)
    (s : sys) (v : option block) : Prop :=
  let r := device_reads (disk (shared s)) b in
  match v with
  | None =>
      miss = true /\ r = r0 /\ find_block (shared s) b = None
      /\ length (cache (shared s)) = a
  | Some blk =>
      blocknum blk = b
      /\ (exists idx, find_block (shared s) b = Some idx
                      /\ cache (shared s) !! idx = Some blk
                      /\ Interleaving.address (cache (shared s)) idx = a)
      /\ match state blk with
         | BLOCK_READING => miss = true /\ (r = r0 \/ is_Some (blk_lock s !! a))
         | BLOCK_READY =>
             r = (if miss then S r0 else r0)
             /\ take BLOCK_SIZE (data blk) = sec
         | _ => False
         end
  end.

(** What a thread may rely on at each statement. *)
Definition pc_ok (r0 : nat) (sec : list byte) (r : nat) (blk : block)
    (t : thread) : Prop :=
  match th_pc t with
  | Test_reading => state blk = BLOCK_READING -> r = r0
  | Lock_disk | Do_read => state blk = BLOCK_READING /\ r = r0
  | Unlock_disk | Set_ready =>
      state blk = BLOCK_READING /\ r = S r0
      /\ take BLOCK_SIZE (data blk) = sec
  | Broadcast | Test_ready | Copy => state blk = BLOCK_READY
  | Waiting | Woken => False
  | Unlock_blk | Count | Returned =>
      state blk = BLOCK_READY /\ take BLOCK_SIZE (th_data t) = sec
  | _ => True
  end.

(** Thread [i] holds exactly the locks its statement says, and points
    at the block for [b]. *)
Definition thread_ok (b : Z) (a r0 : nat) (sec : list byte) (s : sys)
    (v : option block) (i : nat) (t : thread) : Prop :=
  (holds_cache (th_pc t) = true <-> cache_lock s = Some i)
  /\ (holds_disk (th_pc t) = true <-> disk_lock s = Some i)
  /\ (holds_blk (th_pc t) = true <-> blk_lock s !! a = Some i)
  /\ match v with
     | None => has_blk (th_pc t) = false
     | Some blk =>
         (has_blk (th_pc t) = true -> th_blk t = a)
         /\ pc_ok r0 sec (device_reads (disk (shared s)) b) blk t
     end.

(** The invariant: the list is [l0], with the block for [b] before it
    once a miss has made it; on a miss the device holds [sec] for [b];
    locks have owners that exist. *)
Record Inv (l0 : list block) (b : Z) (a r0 : nat) (sec : list byte)
    (miss : bool) (s : sys) (v : option block) : Prop := {
  inv_shape : cache (shared s)
              = if miss then from_option (fun blk => blk :: l0) l0 v else l0;
  inv_sector : miss = true -> sector (disk (shared s)) b = sec;
  inv_view : view_ok b a r0 sec miss s v;
  inv_threads : forall i t, threads s !! i = Some t ->
      thread_ok b a r0 sec s v i t;
  inv_cache_owner : forall j, cache_lock s = Some j -> is_Some (threads s !! j);
  inv_disk_owner : forall j, disk_lock s = Some j -> is_Some (threads s !! j);
  inv_blk_owner : forall j,
      blk_lock s !! a = Some j -> is_Some (threads s !! j)
}.

(** A thread that is at a statement other than a lock request or the
    sleep can execute it. *)
Definition ready_to_run (p : pc) : bool :=
  match p with
  | Lock_cache | Lock_blk | Lock_disk | Woken | Waiting | Returned => false
  | _ => true
  end.

(** How far a thread is from its return, in statements. *)
Definition rank (p : pc) : nat :=
  match p with
  | Lock_cache => 14
  | Find => 13
  | Unlock_cache => 12
  | Lock_blk => 11
  | Test_reading => 10
  | Lock_disk => 9
  | Do_read => 8
  | Unlock_disk => 7
  | Set_ready => 6
  | Broadcast => 5
  | Test_ready => 4
  | Waiting => 16
  | Woken => 15
  | Copy => 3
  | Unlock_blk => 2
  | Count => 1
  | Returned => 0
  end%nat.

Definition measure (s : sys) : nat :=
  sum_list ((fun t => rank (th_pc t)) <$> threads s).

End XReaders.

(** The buffers of three callers. *)
Definition three_buffers : list (list byte) := [zero_block; bytes_A; bytes_A].

(** ** Overlapping calls of [bcache_write] in [part_000]

    Several threads call [bcache_write] at the same time, each with a
    block number and 4096 bytes of its own; no other thread runs.  A
    thread advances one statement at a time and the statements of
    different threads interleave in any order; [malloc] gives a block
    whenever it is asked.  A block is pointed at by its age, as in
    [Interleaving]. *)
Module Writers.

(** The statement a thread is about to execute, by its line in the
    source. *)
Inductive pc : Type :=
  | Lock_cache      (* 127  pthread_mutex_lock(&bc->cache_lock) *)
  | Find            (* 128  blk = find_or_create_block(bc, blocknum) *)
  | Unlock_cache    (* 129  pthread_mutex_unlock(&bc->cache_lock) *)
  | Lock_blk        (* 131  pthread_mutex_lock(&blk->lock) *)
  | Copy            (* 132  memcpy(blk->data, data, 4096) *)
  | Set_dirty       (* 133  blk->state = BLOCK_DIRTY *)
  | Unlock_blk      (* 134  pthread_mutex_unlock(&blk->lock) *)
  | Count           (* 135  __sync_fetch_and_add(&bc->nwrites, 1) *)
  | Returned.

#[global] Instance pc_eq_dec : EqDecision pc.
Proof. solve_decision. Defined.

(** The locals of a call: where it is, the block number and the bytes
    it was given, its [blk], and what [malloc] will hand it. *)
Record thread : Type := {
  th_pc : pc;
  th_num : Z;
  th_blk : nat;
  th_data : list byte;
  th_junk : list byte
}.

Definition goto (p : pc) (t : thread) : thread :=
  {| th_pc := p; th_num := th_num t; th_blk := th_blk t;
     th_data := th_data t; th_junk := th_junk t |}.

(** The cache object, who holds each lock, and the threads. *)
Record sys : Type := {
  shared : bcache;
  cache_lock : option nat;
  blk_lock : gmap nat nat;
  threads : list thread
}.

Definition set_shared (bc : bcache) (s : sys) : sys :=
  {| shared := bc; cache_lock := cache_lock s; blk_lock := blk_lock s;
     threads := threads s |}.

Definition set_cache_lock (o : option nat) (s : sys) : sys :=
  {| shared := shared s; cache_lock := o; blk_lock := blk_lock s;
     threads := threads s |}.

Definition set_blk_lock (m : gmap nat nat) (s : sys) : sys :=
  {| shared := shared s; cache_lock := cache_lock s; blk_lock := m;
     threads := threads s |}.

Definition set_thread (i : nat) (t : thread) (s : sys) : sys :=
  {| shared := shared s; cache_lock := cache_lock s; blk_lock := blk_lock s;
     threads := <[i := t]> (threads s) |}.

(** One statement of thread [i]; [None] when the thread does not
    exist, has returned, or asks for a lock that is held. *)
Definition step (i : nat) (s : sys) : option sys :=
  match threads s !! i with
  | None => None
  | Some t =>
      match th_pc t with
      | Lock_cache =>
          match cache_lock s with
          | None => Some (set_thread i (goto Find t) (set_cache_lock (Some i) s))
          | Some _ => None
          end
      | Find =>
          match Part000.find_or_create_block (Some (th_junk t)) (shared s)
                  (th_num t) with
          | (bc, Some idx) =>
              Some (set_thread i
                      {| th_pc := Unlock_cache; th_num := th_num t;
                         th_blk := Interleaving.address (cache bc) idx;
                         th_data := th_data t; th_junk := th_junk t |}
                      (set_shared bc s))
          | (_, None) => None
          end
      | Unlock_cache =>
          Some (set_thread i (goto Lock_blk t) (set_cache_lock None s))
      | Lock_blk =>
          match blk_lock s !! th_blk t with
          | None =>
              Some (set_thread i (goto Copy t)
                      (set_blk_lock (<[th_blk t := i]> (blk_lock s)) s))
          | Some _ => None
          end
      | Copy =>
          Some (set_thread i (goto Set_dirty t)
                  (set_shared
                     (set_cache
                        (Interleaving.store_addr
                           (fun blk => set_data (memcpy (data blk) (th_data t)
                                                   BLOCK_SIZE) blk)
                           (th_blk t) (cache (shared s)))
                        (shared s)) s))
      | Set_dirty =>
          Some (set_thread i (goto Unlock_blk t)
                  (set_shared
                     (set_cache
                        (Interleaving.store_addr (set_state BLOCK_DIRTY)
                           (th_blk t) (cache (shared s)))
                        (shared s)) s))
      | Unlock_blk =>
          Some (set_thread i (goto Count t)
                  (set_blk_lock (delete (th_blk t) (blk_lock s)) s))
      | Count =>
          Some (set_thread i (goto Returned t)
                  (set_shared (incr_nwrites (shared s)) s))
      | Returned => None
      end
  end.

(** A schedule names the thread that moves next; a thread that cannot
    move when it is named is passed over. *)
Fixpoint run_schedule (sched : list nat) (s : sys) : sys :=
  match sched with
  | [] => s
  | i :: sched' =>
      match step i s with
      | Some s' => run_schedule sched' s'
      | None => run_schedule sched' s
      end
  end.

(** The statements executed under a schedule. *)
Fixpoint steps_taken (sched : list nat) (s : sys) : nat :=
  match sched with
  | [] => 0%nat
  | i :: sched' =>
      match step i s with
      | Some s' => S (steps_taken sched' s')
      | None => steps_taken sched' s
      end
  end.

(** A caller: the block number, the bytes to write, and the bytes
    [malloc] would hand out. *)
Record caller : Type := {
  c_num : Z;
  c_data : list byte;
  c_junk : list byte
}.

Definition caller_of (t : thread) : caller :=
  {| c_num := th_num t; c_data := th_data t; c_junk := th_junk t |}.

(** The calls start together on the cache object [bc]. *)
Definition start (bc : bcache) (callers : list caller) : sys :=
  {| shared := bc; cache_lock := None; blk_lock := ∅;
     threads := (fun c => {| th_pc := Lock_cache; th_num := c_num c;
                             th_blk := 0%nat; th_data := c_data c;
                             th_junk := c_junk c |}) <$> callers |}.

Definition all_returned (s : sys) : Prop :=
  Forall (fun t => th_pc t = Returned) (threads s).

Definition returned (s : sys) : nat :=
  length (filter (fun t => th_pc t = Returned) (threads s)).

Definition stuck (s : sys) : Prop :=
  forall i, step i s = None.

(** *** The invariant of the interleaving *)

(** The statements at which a thread holds [cache_lock] and the lock
    of its block; has its [blk]; has copied its bytes; has marked the
    block dirty. *)
Definition holds_cache (p : pc) : bool :=
  match p with
  | Find | Unlock_cache => true
  | _ => false
  end.

Definition holds_blk (p : pc) : bool :=
  match p with
  | Copy | Set_dirty | Unlock_blk => true
  | _ => false
  end.

Definition has_blk (p : pc) : bool :=
  match p with
  | Lock_cache | Find => false
  | _ => true
  end.

Definition past_copy (p : pc) : bool :=
  match p with
  | Set_dirty | Unlock_blk | Count | Returned => true
  | _ => false
  end.

Definition past_dirty (p : pc) : bool :=
  match p with
  | Unlock_blk | Count | Returned => true
  | _ => false
  end.

(** The first 4096 bytes of [blk] are those of a call for block [b]
    that has made its copy. *)
Definition written (s : sys) (b : Z) (blk : block) : Prop :=
  exists j tj, threads s !! j = Some tj /\ th_num tj = b
               /\ past_copy (th_pc tj) = true
               /\ take BLOCK_SIZE (data blk) = th_data tj.

(** What is known of the block of a thread that has its [blk]: it is
    the block the search finds for the thread's number; once the thread
    has copied, the block holds the bytes of some call for that number;
    once the thread has marked it, it is dirty. *)
Definition blk_ok (s : sys) (t : thread) : Prop :=
  exists idx blk,
    Part000.find_from (cache (shared s)) (th_num t) = Some idx
    /\ cache (shared s) !! idx = Some blk
    /\ Interleaving.address (cache (shared s)) idx = th_blk t
    /\ (past_copy (th_pc t) = true -> written s (th_num t) blk)
    /\ (past_dirty (th_pc t) = true -> state blk = BLOCK_DIRTY).

Definition thread_ok (s : sys) (i : nat) (t : thread) : Prop :=
  (holds_cache (th_pc t) = true <-> cache_lock s = Some i)
  /\ (holds_blk (th_pc t) = true -> blk_lock s !! th_blk t = Some i)
  /\ (has_blk (th_pc t) = true -> blk_ok s t).

(** The invariant: the device, the read counter and the capacity are
    those of the start [bc0]; a block whose number no call writes is as
    it was; threads are the callers; locks have the owners their
    statements say. *)
Record Inv (bc0 : bcache) (callers : list caller) (s : sys) : Prop := {
  inv_disk : disk (shared s) = disk bc0;
  inv_nreads : nreads (shared s) = nreads bc0;
  inv_memory : memory_blocks (shared s) = memory_blocks bc0;
  inv_frame : forall b,
      (forall c, c ∈ callers -> c_num c <> b) ->
      entry Part000.find_from (cache (shared s)) b
      = entry Part000.find_from (cache bc0) b;
  inv_callers : caller_of <$> threads s = callers;
  inv_threads : forall i t, threads s !! i = Some t -> thread_ok s i t;
  inv_cache_owner : forall j, cache_lock s = Some j -> is_Some (threads s !! j);
  inv_blk_owner : forall a j,
      blk_lock s !! a = Some j ->
      exists tj, threads s !! j = Some tj /\ holds_blk (th_pc tj) = true
                 /\ th_blk tj = a
}.

Definition ready_to_run (p : pc) : bool :=
  match p with
  | Lock_cache | Lock_blk | Returned => false
  | _ => true
  end.

(** How far a thread is from its return, in statements. *)
Definition rank (p : pc) : nat :=
  match p with
  | Lock_cache => 8
  | Find => 7
  | Unlock_cache => 6
  | Lock_blk => 5
  | Copy => 4
  | Set_dirty => 3
  | Unlock_blk => 2
  | Count => 1
  | Returned => 0
  end%nat.

Definition measure (s : sys) : nat :=
  sum_list ((fun t => rank (th_pc t)) <$> threads s).

End Writers.

(** Three calls: two write block 7, one writes block 0. *)
Definition three_writers : list Writers.caller :=
  [ {| Writers.c_num := 7; Writers.c_data := bytes_A;
       Writers.c_junk := zero_block |};
    {| Writers.c_num := 0; Writers.c_data := bytes_A;
       Writers.c_junk := zero_block |};
    {| Writers.c_num := 7; Writers.c_data := zero_block;
       Writers.c_junk := bytes_A |} ].


(** ** [bcache_sync] beside the scheduler in [bcache.c]

    One thread calls [bcache_sync] of [bcache.c] while the scheduler
    thread runs [bcache_io_scheduler]; no other thread runs.  Each
    advances one statement at a time, and the statements of the two
    interleave in any order.  Neither function adds or removes a block,
    so a block is pointed at by its place in the list, and [current] is
    null when that place is past the end.  [pthread_cond_wait] returns
    only after the condition has been signalled. *)
Module SyncAndScheduler.

Inductive who : Type :=
  | Caller
  | Scheduler.

#[global] Instance who_eq_dec : EqDecision who.
Proof. solve_decision. Defined.

(** The statement [bcache_sync] is about to execute, by its line in
    [bcache.c]. *)
Inductive sync_pc : Type :=
  | Y_lock_cache     (* 168  pthread_mutex_lock(&bc->cache_lock) *)
  | Y_first          (* 169  current = bc->cache *)
  | Y_while          (* 170  while (current) *)
  | Y_lock_blk       (* 171  pthread_mutex_lock(&current->lock) *)
  | Y_if_dirty       (* 172  if (current->state == BLOCK_DIRTY) *)
  | Y_mark           (* 173  current->state = BLOCK_WRITING *)
  | Y_wait           (* 174  pthread_cond_wait: releases current->lock *)
  | Y_asleep         (* 174  asleep on current->cond *)
  | Y_woken          (* 174  signalled, taking current->lock again *)
  | Y_unlock_blk     (* 176  pthread_mutex_unlock(&current->lock) *)
  | Y_next           (* 177  current = current->next *)
  | Y_unlock_cache   (* 179  pthread_mutex_unlock(&bc->cache_lock) *)
  | Y_returned.

(** The statement [bcache_io_scheduler] is about to execute. *)
Inductive sched_pc : Type :=
  | K_lock_cache     (* 191  pthread_mutex_lock(&bc->cache_lock) *)
  | K_first          (* 192  current = bc->cache *)
  | K_while          (* 193  while (current) *)
  | K_lock_blk       (* 194  pthread_mutex_lock(&current->lock) *)
  | K_if_reading     (* 195  if (current->state == BLOCK_READING) *)
  | K_disk_read      (* 196  disk_read(bc->disk, ..., current->data) *)
  | K_ready_read     (* 197  current->state = BLOCK_READY *)
  | K_if_writing     (* 198  else if (current->state == BLOCK_WRITING) *)
  | K_disk_write     (* 199  disk_write(bc->disk, ..., current->data) *)
  | K_ready_written  (* 200  current->state = BLOCK_READY *)
  | K_signal         (* 202  pthread_cond_signal(&current->cond) *)
  | K_unlock_blk     (* 203  pthread_mutex_unlock(&current->lock) *)
  | K_next           (* 204  current = current->next *)
  | K_unlock_cache   (* 206  pthread_mutex_unlock(&bc->cache_lock) *)
  | K_usleep.        (* 207  usleep(10000), then line 191 again *)

#[global] Instance sync_pc_eq_dec : EqDecision sync_pc.
Proof. solve_decision. Defined.

#[global] Instance sched_pc_eq_dec : EqDecision sched_pc.
Proof. solve_decision. Defined.

(** The cache object, who holds each lock, and where the two threads
    are, each with its [current]. *)
Record sys : Type := {
  shared : bcache;
  cache_lock : option who;
  blk_lock : gmap nat who;
  sync_at : sync_pc;
  sync_current : nat;
  sched_at : sched_pc;
  sched_current : nat
}.

Definition set_shared (bc : bcache) (s : sys) : sys :=
  {| shared := bc; cache_lock := cache_lock s; blk_lock := blk_lock s;
     sync_at := sync_at s; sync_current := sync_current s;
     sched_at := sched_at s; sched_current := sched_current s |}.

Definition set_cache_lock (o : option who) (s : sys) : sys :=
  {| shared := shared s; cache_lock := o; blk_lock := blk_lock s;
     sync_at := sync_at s; sync_current := sync_current s;
     sched_at := sched_at s; sched_current := sched_current s |}.

Definition set_blk_lock (m : gmap nat who) (s : sys) : sys :=
  {| shared := shared s; cache_lock := cache_lock s; blk_lock := m;
     sync_at := sync_at s; sync_current := sync_current s;
     sched_at := sched_at s; sched_current := sched_current s |}.

Definition sync_goto (p : sync_pc) (s : sys) : sys :=
  {| shared := shared s; cache_lock := cache_lock s; blk_lock := blk_lock s;
     sync_at := p; sync_current := sync_current s;
     sched_at := sched_at s; sched_current := sched_current s |}.

Definition set_sync_current (i : nat) (s : sys) : sys :=
  {| shared := shared s; cache_lock := cache_lock s; blk_lock := blk_lock s;
     sync_at := sync_at s; sync_current := i;
     sched_at := sched_at s; sched_current := sched_current s |}.

Definition sched_goto (p : sched_pc) (s : sys) : sys :=
  {| shared := shared s; cache_lock := cache_lock s; blk_lock := blk_lock s;
     sync_at := sync_at s; sync_current := sync_current s;
     sched_at := p; sched_current := sched_current s |}.

Definition set_sched_current (i : nat) (s : sys) : sys :=
  {| shared := shared s; cache_lock := cache_lock s; blk_lock := blk_lock s;
     sync_at := sync_at s; sync_current := sync_current s;
     sched_at := sched_at s; sched_current := i |}.

(** [current->state = st] and the like, on the block at place [i]. *)
Definition store (f : block -> block) (i : nat) (s : sys) : sys :=
  set_shared (set_cache (alter f i (cache (shared s))) (shared s)) s.

(** [pthread_cond_signal(&current->cond)] for the block at place [i]:
    the caller is woken if it sleeps on that condition. *)
Definition signal (i : nat) (s : sys) : sys :=
  if decide (sync_at s = Y_asleep /\ sync_current s = i)
  then sync_goto Y_woken s
  else s.

(** One statement of [bcache_sync]; [None] when the thread has
    returned, is asleep, or asks for a lock that is held. *)
Definition sync_step (s : sys) : option sys :=
  let i := sync_current s in
  match sync_at s with
  | Y_lock_cache =>
      match cache_lock s with
      | None => Some (sync_goto Y_first (set_cache_lock (Some Caller) s))
      | Some _ => None
      end
  | Y_first => Some (sync_goto Y_while (set_sync_current 0 s))
  | Y_while =>
      if decide (i < length (cache (shared s)))%nat
      then Some (sync_goto Y_lock_blk s)
      else Some (sync_goto Y_unlock_cache s)
  | Y_lock_blk =>
      match blk_lock s !! i with
      | None => Some (sync_goto Y_if_dirty
                        (set_blk_lock (<[i := Caller]> (blk_lock s)) s))
      | Some _ => None
      end
  | Y_if_dirty =>
      if decide (state (deref (cache (shared s)) i) = BLOCK_DIRTY)
      then Some (sync_goto Y_mark s)
      else Some (sync_goto Y_unlock_blk s)
  | Y_mark => Some (sync_goto Y_wait (store (set_state BLOCK_WRITING) i s))
  | Y_wait =>
      Some (sync_goto Y_asleep (set_blk_lock (delete i (blk_lock s)) s))
  | Y_asleep => None
  | Y_woken =>
      match blk_lock s !! i with
      | None => Some (sync_goto Y_unlock_blk
                        (set_blk_lock (<[i := Caller]> (blk_lock s)) s))
      | Some _ => None
      end
  | Y_unlock_blk =>
      Some (sync_goto Y_next (set_blk_lock (delete i (blk_lock s)) s))
  | Y_next => Some (sync_goto Y_while (set_sync_current (S i) s))
  | Y_unlock_cache => Some (sync_goto Y_returned (set_cache_lock None s))
  | Y_returned => None
  end.

(** One statement of [bcache_io_scheduler]; [None] when it asks for a
    lock that is held. *)
Definition sched_step (s : sys) : option sys :=
  let i := sched_current s in
  let current := deref (cache (shared s)) i in
  match sched_at s with
  | K_lock_cache =>
      match cache_lock s with
      | None => Some (sched_goto K_first (set_cache_lock (Some Scheduler) s))
      | Some _ => None
      end
  | K_first => Some (sched_goto K_while (set_sched_current 0 s))
  | K_while =>
      if decide (i < length (cache (shared s)))%nat
      then Some (sched_goto K_lock_blk s)
      else Some (sched_goto K_unlock_cache s)
  | K_lock_blk =>
      match blk_lock s !! i with
      | None => Some (sched_goto K_if_reading
                        (set_blk_lock (<[i := Scheduler]> (blk_lock s)) s))
      | Some _ => None
      end
  | K_if_reading =>
      if decide (state current = BLOCK_READING)
      then Some (sched_goto K_disk_read s)
      else Some (sched_goto K_if_writing s)
  | K_disk_read =>
      let '(d, buf) :=
        disk_read In_scheduler (disk (shared s)) (blocknum current)
          (data current) in
      Some (sched_goto K_ready_read
              (store (set_data buf) i (set_shared (set_disk d (shared s)) s)))
  | K_ready_read =>
      Some (sched_goto K_signal (store (set_state BLOCK_READY) i s))
  | K_if_writing =>
      if decide (state current = BLOCK_WRITING)
      then Some (sched_goto K_disk_write s)
      else Some (sched_goto K_signal s)
  | K_disk_write =>
      Some (sched_goto K_ready_written
              (set_shared
                 (set_disk (disk_write In_scheduler (disk (shared s))
                              (blocknum current) (data current))
                    (shared s)) s))
  | K_ready_written =>
      Some (sched_goto K_signal (store (set_state BLOCK_READY) i s))
  | K_signal => Some (sched_goto K_unlock_blk (signal i s))
  | K_unlock_blk =>
      Some (sched_goto K_next (set_blk_lock (delete i (blk_lock s)) s))
  | K_next => Some (sched_goto K_while (set_sched_current (S i) s))
  | K_unlock_cache => Some (sched_goto K_usleep (set_cache_lock None s))
  | K_usleep => Some (sched_goto K_lock_cache s)
  end.

Definition step (w : who) (s : sys) : option sys :=
  match w with
  | Caller => sync_step s
  | Scheduler => sched_step s
  end.

(** A schedule names the thread that moves next; a thread that cannot
    move when it is named is passed over. *)
Fixpoint run_schedule (sched : list who) (s : sys) : sys :=
  match sched with
  | [] => s
  | w :: sched' =>
      match step w s with
      | Some s' => run_schedule sched' s'
      | None => run_schedule sched' s
      end
  end.

(** [bcache_sync] is called on the cache object [bc] while the
    scheduler is about to start a pass; both locks of [bcache.c] have
    been initialised ([cache_lock] at line 65, the locks of the blocks
    where the blocks are made). *)
Definition start (bc : bcache) : sys :=
  {| shared := bc; cache_lock := None; blk_lock := ∅;
     sync_at := Y_lock_cache; sync_current := 0;
     sched_at := K_lock_cache; sched_current := 0 |}.

(** *** The invariant of the interleaving *)

(** The statements at which each thread holds [cache_lock]. *)
Definition sync_inside (p : sync_pc) : bool :=
  match p with
  | Y_lock_cache | Y_returned => false
  | _ => true
  end.

Definition sched_inside (p : sched_pc) : bool :=
  match p with
  | K_lock_cache | K_usleep => false
  | _ => true
  end.

(** Where [bcache_sync] can be, on a list [l0] whose first dirty block
    is at place [k]: it walks up to that block, marks it, and sleeps;
    the statements after the wait are never reached. *)
Definition sync_ok (l0 : list block) (k : nat) (s : sys) : Prop :=
  let l := cache (shared s) in
  let i := sync_current s in
  match sync_at s with
  | Y_lock_cache | Y_first => l = l0
  | Y_while | Y_lock_blk | Y_if_dirty => l = l0 /\ (i <= k)%nat
  | Y_mark => l = l0 /\ i = k
  | Y_wait | Y_asleep => l = alter (set_state BLOCK_WRITING) k l0 /\ i = k
  | Y_unlock_blk | Y_next => l = l0 /\ (i < k)%nat
  | Y_woken | Y_unlock_cache | Y_returned => False
  end.

(** The scheduler never finds a block to transfer. *)
Definition sched_ok (s : sys) : Prop :=
  match sched_at s with
  | K_disk_read | K_ready_read | K_disk_write | K_ready_written => False
  | _ => True
  end.

Record Inv (bc0 : bcache) (k : nat) (s : sys) : Prop := {
  inv_disk : disk (shared s) = disk bc0;
  inv_sync_owner :
    sync_inside (sync_at s) = true <-> cache_lock s = Some Caller;
  inv_sched_owner :
    sched_inside (sched_at s) = true <-> cache_lock s = Some Scheduler;
  inv_sync : sync_ok (cache bc0) k s;
  inv_sched : sched_ok s
}.

End SyncAndScheduler.

(** The two threads take turns. *)
Definition caller_and_scheduler : list SyncAndScheduler.who :=
  concat (replicate 40 [SyncAndScheduler.Scheduler; SyncAndScheduler.Caller]).

(** * Properties *)

(** ** Buffers and counters *)

Lemma take_memcpy (dst src : list byte) (n : nat) :
  length src = n -> take n (memcpy dst src n) = src.
Proof.
  intros Hs. unfold memcpy.
  rewrite (take_ge src) by lia.
  rewrite take_app_le by lia. apply take_ge. lia.
Qed.

Lemma length_bytes_A : length bytes_A = BLOCK_SIZE.
Proof. unfold bytes_A. apply length_replicate. Qed.

Lemma length_zero_block : length zero_block = BLOCK_SIZE.
Proof. unfold zero_block. apply length_replicate. Qed.

Lemma wrap_int_small (z : Z) :
  -2147483648 <= z <= INT_MAX -> wrap_int z = z.
Proof.
  unfold wrap_int, INT_MAX. intros H.
  rewrite Z.mod_small by lia. lia.
Qed.

(** ** Searching the list *)

Lemma find_block_from_Some l b i :
  find_block_from l b = Some i ->
  exists blk, l !! i = Some blk /\ blocknum blk = b /\ state blk <> BLOCK_FREE.
Proof.
  revert i. induction l as [|current next IH]; intros i; simpl; [done|].
  destruct (decide _) as [Hc|Hc].
  - intros [= <-]. exists current. destruct Hc. done.
  - destruct (find_block_from next b) as [j|] eqn:Hj; [|done].
    intros [= <-]. simpl. apply IH. reflexivity.
Qed.

Lemma find_from_Some l b i :
  Part000.find_from l b = Some i ->
  exists blk, l !! i = Some blk /\ blocknum blk = b.
Proof.
  revert i. induction l as [|blk next IH]; intros i; simpl; [done|].
  destruct (decide _) as [Hc|Hc].
  - intros [= <-]. exists blk. naive_solver.
  - destruct (Part000.find_from next b) as [j|] eqn:Hj; [|done].
    intros [= <-]. simpl. apply IH. reflexivity.
Qed.

Lemma find_from_None l b :
  Part000.find_from l b = None <-> Forall (fun blk => blocknum blk <> b) l.
Proof.
  induction l as [|blk next IH]; simpl.
  - split; [constructor | done].
  - rewrite Forall_cons. case_decide.
    + split; [done|]. intros [? _]. done.
    + destruct (Part000.find_from next b) as [j|]; simpl.
      * split; [done|]. intros [_ Hn]. by apply IH in Hn.
      * split; [|done]. intros _. split; [done|]. by apply IH.
Qed.

(** A store through a pointer to a block numbered [b] leaves the block
    that a search for another number finds as it was. *)
Lemma entry_find_block_alter (f : block -> block) l i b b' :
  (forall blk, blocknum (f blk) = blocknum blk) ->
  (exists blk, l !! i = Some blk /\ blocknum blk = b) ->
  b' <> b ->
  entry find_block_from (alter f i l) b' = entry find_block_from l b'.
Proof.
  intros Hf. revert i. induction l as [|current next IH]; intros i [blk [Hi Hb]] Hne.
  - done.
  - destruct i as [|i]; simpl in Hi.
    + injection Hi as ->. unfold entry. simpl.
      rewrite Hf.
      rewrite !decide_False by (intros [? ?]; congruence).
      destruct (find_block_from next b'); done.
    + unfold entry in *. simpl.
      case_decide; [done|].
      specialize (IH i (ex_intro _ blk (conj Hi Hb)) Hne).
      change (list_alter f i next) with (alter f i next).
      destruct (find_block_from (alter f i next) b') as [j|];
        destruct (find_block_from next b') as [k|]; simpl in *; done.
Qed.

Lemma entry_find_from_alter (f : block -> block) l i b b' :
  (forall blk, blocknum (f blk) = blocknum blk) ->
  (exists blk, l !! i = Some blk /\ blocknum blk = b) ->
  b' <> b ->
  entry Part000.find_from (alter f i l) b' = entry Part000.find_from l b'.
Proof.
  intros Hf. revert i. induction l as [|current next IH]; intros i [blk [Hi Hb]] Hne.
  - done.
  - destruct i as [|i]; simpl in Hi.
    + injection Hi as ->. unfold entry. simpl.
      rewrite Hf.
      rewrite !decide_False by congruence.
      destruct (Part000.find_from next b'); done.
    + unfold entry in *. simpl.
      case_decide; [done|].
      specialize (IH i (ex_intro _ blk (conj Hi Hb)) Hne).
      change (list_alter f i next) with (alter f i next).
      destruct (Part000.find_from (alter f i next) b') as [j|];
        destruct (Part000.find_from next b') as [k|]; simpl in *; done.
Qed.

Lemma entry_find_block_cons blk l b' :
  blocknum blk <> b' ->
  entry find_block_from (blk :: l) b' = entry find_block_from l b'.
Proof.
  intros Hne. unfold entry. simpl.
  rewrite decide_False by (intros [? ?]; congruence).
  destruct (find_block_from l b'); done.
Qed.

Lemma entry_find_from_cons blk l b' :
  blocknum blk <> b' ->
  entry Part000.find_from (blk :: l) b' = entry Part000.find_from l b'.
Proof.
  intros Hne. unfold entry. simpl.
  rewrite decide_False by congruence.
  destruct (Part000.find_from l b'); done.
Qed.

(** ** [bcache_create] *)

(** C3 (as amended): [bcache_create] does not look at the capacity.  It
    returns null exactly when [malloc] or, in [bcache.c] and [x.c], the
    initialisation of a lock fails; otherwise it returns, for every
    capacity (also one below 1), a cache object on the device with that
    capacity, no block and both counters at 0. *)
Theorem C3_create_ignores_capacity (malloc_ok mutex_ok : bool)
    (d : struct_disk) (capacity : Z) :
  let made := Some (fresh d capacity) in
  BcacheC.bcache_create malloc_ok mutex_ok d capacity
    = (if malloc_ok && mutex_ok then made else None)
  /\ XC.bcache_create malloc_ok mutex_ok d capacity
    = (if malloc_ok && mutex_ok then made else None)
  /\ Part000.bcache_create malloc_ok d capacity
    = (if malloc_ok then made else None)
  /\ bcache_memory_blocks (fresh d capacity) = capacity
  /\ bcache_nreads (fresh d capacity) = 0
  /\ bcache_nwrites (fresh d capacity) = 0
  /\ cache (fresh d capacity) = [].
Proof.
  destruct malloc_ok, mutex_ok; repeat split.
Qed.

(** C3 as the spec words it fails: a capacity of 0, or a negative one,
    gives a cache object, not an error. *)
Lemma C3_capacity_zero_accepted :
  BcacheC.bcache_create true true disk10 0 = Some (fresh disk10 0)
  /\ XC.bcache_create true true disk10 0 = Some (fresh disk10 0)
  /\ Part000.bcache_create true disk10 (-3) = Some (fresh disk10 (-3)).
Proof. repeat split. Qed.

(** ** Single calls *)

Lemma dirty_with_blocknum p blk : blocknum (dirty_with p blk) = blocknum blk.
Proof. reflexivity. Qed.

Lemma dirty_with_not_free p blk : state (dirty_with p blk) <> BLOCK_FREE.
Proof. discriminate. Qed.

Lemma find_block_from_alter_found (f : block -> block) l b i :
  (forall blk, blocknum (f blk) = blocknum blk) ->
  (forall blk, state (f blk) <> BLOCK_FREE) ->
  find_block_from l b = Some i ->
  find_block_from (alter f i l) b = Some i.
Proof.
  intros Hn Hs. revert i. induction l as [|current next IH]; intros i; simpl; [done|].
  destruct (decide _) as [Hc|Hc].
  - intros [= <-]. simpl. rewrite decide_True; [done|].
    rewrite Hn. split; [tauto | apply Hs].
  - destruct (find_block_from next b) as [j|] eqn:Hj; [|done].
    intros [= <-]. simpl. rewrite decide_False by done.
    change (list_alter f j next) with (alter f j next).
    by rewrite (IH j).
Qed.

Lemma find_from_alter (f : block -> block) l b i :
  (forall blk, blocknum (f blk) = blocknum blk) ->
  Part000.find_from (alter f i l) b = Part000.find_from l b.
Proof.
  intros Hn. revert i. induction l as [|blk next IH]; intros i; [done|].
  destruct i as [|i]; simpl.
  - rewrite Hn. done.
  - change (list_alter f i next) with (alter f i next). by rewrite IH.
Qed.

(** What [bcache_write] of [bcache.c] and [x.c] leaves behind. *)
Lemma bcache_write_locked_found m bc b p i :
  find_block bc b = Some i ->
  bcache_write_locked m bc b p
  = Done (incr_nwrites (set_cache (alter (dirty_with p) i (cache bc)) bc)) tt.
Proof. intros H. unfold bcache_write_locked. by rewrite H. Qed.

Lemma bcache_write_locked_absent junk bc b p :
  find_block bc b = None ->
  bcache_write_locked (Some junk) bc b p
  = Done (incr_nwrites
            (set_cache
               ({| blocknum := b; state := BLOCK_DIRTY;
                   data := memcpy junk p BLOCK_SIZE |} :: cache bc) bc)) tt.
Proof. intros H. unfold bcache_write_locked. by rewrite H. Qed.

Lemma bcache_write_locked_no_memory bc b p :
  find_block bc b = None -> bcache_write_locked None bc b p = Failed bc.
Proof. intros H. unfold bcache_write_locked. by rewrite H. Qed.

(** What [bcache_write] of [part_000] leaves behind. *)
Lemma part000_write_found m bc b p i :
  Part000.find_from (cache bc) b = Some i ->
  Part000.bcache_write m bc b p
  = Done (incr_nwrites (set_cache (alter (dirty_with p) i (cache bc)) bc)) tt.
Proof.
  intros H. unfold Part000.bcache_write, Part000.find_or_create_block.
  by rewrite H.
Qed.

Lemma part000_write_absent junk bc b p :
  Part000.find_from (cache bc) b = None ->
  Part000.bcache_write (Some junk) bc b p
  = Done (incr_nwrites
            (set_cache
               ({| blocknum := b; state := BLOCK_DIRTY;
                   data := memcpy junk p BLOCK_SIZE |} :: cache bc) bc)) tt.
Proof.
  intros H. unfold Part000.bcache_write, Part000.find_or_create_block.
  by rewrite H.
Qed.

(** A read of a block that is not in the list, when [malloc] gives a
    block: the caller's thread calls the device. *)
Lemma bcachec_read_absent junk bc b out :
  find_block bc b = None ->
  let buf := memcpy junk (sector (disk bc) b) BLOCK_SIZE in
  BcacheC.bcache_read (Some junk) bc b out
  = Done (incr_nreads
            (set_disk (disk_read In_read (disk bc) b junk).1
               (set_cache
                  ({| blocknum := b; state := BLOCK_READY; data := buf |}
                   :: cache bc) bc)))
         (memcpy out buf BLOCK_SIZE).
Proof. intros H. unfold BcacheC.bcache_read. by rewrite H. Qed.

Lemma xc_read_absent junk bc b out :
  find_block bc b = None ->
  let buf := memcpy zero_block (sector (disk bc) b) BLOCK_SIZE in
  XC.bcache_read (Some junk) bc b out
  = Done (incr_nreads
            (set_disk (disk_read In_read (disk bc) b zero_block).1
               (set_cache
                  ({| blocknum := b; state := BLOCK_READY; data := buf |}
                   :: cache bc) bc)))
         (memcpy out buf BLOCK_SIZE).
Proof. intros H. unfold XC.bcache_read. by rewrite H. Qed.

Lemma part000_read_absent junk bc b out :
  Part000.find_from (cache bc) b = None ->
  let buf := memcpy junk (sector (disk bc) b) BLOCK_SIZE in
  Part000.bcache_read (Some junk) bc b out
  = Done (incr_nreads
            (set_disk (disk_read In_read (disk bc) b junk).1
               (set_cache
                  ({| blocknum := b; state := BLOCK_READY; data := buf |}
                   :: cache bc) bc)))
         (memcpy out buf BLOCK_SIZE).
Proof.
  intros H. unfold Part000.bcache_read, Part000.find_or_create_block.
  by rewrite H.
Qed.

(** ** Block numbers beyond the device *)

(** C2 (as amended): neither [bcache_read] nor [bcache_write] compares
    the block number with the block count of the device, and there is no
    out-of-range result.  For every block number, also one at or beyond
    the block count, a write whose [malloc] succeeds returns after
    storing the 4096 bytes in an entry for that number, marking it dirty
    and counting the write; a read of a number that is not in the list
    puts an entry for it in the list and hands the number to the
    device. *)
Theorem C2_no_range_check (bc : bcache) (b : Z) (p out junk : list byte) :
  length p = BLOCK_SIZE ->
  (exists bc' blk,
      BcacheC.bcache_write (Some junk) bc b p = Done bc' tt
      /\ bcache_nwrites bc' = int_incr (bcache_nwrites bc)
      /\ entry find_block_from (cache bc') b = Some blk
      /\ state blk = BLOCK_DIRTY /\ take BLOCK_SIZE (data blk) = p)
  /\ (exists bc' blk,
      Part000.bcache_write (Some junk) bc b p = Done bc' tt
      /\ bcache_nwrites bc' = int_incr (bcache_nwrites bc)
      /\ entry Part000.find_from (cache bc') b = Some blk
      /\ state blk = BLOCK_DIRTY /\ take BLOCK_SIZE (data blk) = p)
  /\ (Part000.find_from (cache bc) b = None ->
      exists bc' buf,
        Part000.bcache_read (Some junk) bc b out = Done bc' buf
        /\ length (cache bc') = S (length (cache bc))
        /\ calls (disk bc') = Disk_read In_read b :: calls (disk bc)).
Proof.
  intros Hp. split; [|split].
  - unfold BcacheC.bcache_write.
    destruct (find_block bc b) as [i|] eqn:Hf.
    + rewrite (bcache_write_locked_found _ _ _ _ _ Hf).
      destruct (find_block_from_Some _ _ _ Hf) as (blk & Hi & _).
      eexists _, (dirty_with p blk). split; [done|]. split; [done|].
      unfold entry. simpl.
      rewrite (find_block_from_alter_found _ _ _ _ (dirty_with_blocknum p)
                 (dirty_with_not_free p) Hf).
      simpl. rewrite list_lookup_alter_eq, Hi. simpl.
      split; [done|]. split; [done|]. by apply take_memcpy.
    + rewrite (bcache_write_locked_absent _ _ _ _ Hf).
      eexists _, _. split; [done|]. split; [done|].
      unfold entry. simpl. rewrite decide_True by done. simpl.
      split; [done|]. split; [done|]. by apply take_memcpy.
  - destruct (Part000.find_from (cache bc) b) as [i|] eqn:Hf.
    + rewrite (part000_write_found _ _ _ _ _ Hf).
      destruct (find_from_Some _ _ _ Hf) as (blk & Hi & _).
      eexists _, (dirty_with p blk). split; [done|]. split; [done|].
      unfold entry. simpl.
      rewrite (find_from_alter _ _ _ _ (dirty_with_blocknum p)), Hf.
      simpl. rewrite list_lookup_alter_eq, Hi. simpl.
      split; [done|]. split; [done|]. by apply take_memcpy.
    + rewrite (part000_write_absent _ _ _ _ Hf).
      eexists _, _. split; [done|]. split; [done|].
      unfold entry. simpl. rewrite decide_True by done. simpl.
      split; [done|]. split; [done|]. by apply take_memcpy.
  - intros Hf. rewrite (part000_read_absent _ _ _ _ Hf).
    eexists _, _. split; [done|]. split; done.
Qed.

(** C2 at block 10 of a device of ten blocks. *)
Lemma C2_no_range_check_witness :
  length bytes_A = BLOCK_SIZE
  /\ bcache_disk_blocks (fresh disk10 2) <= 10
  /\ exists bc' blk,
      Part000.bcache_write (Some zero_block) (fresh disk10 2) 10 bytes_A
      = Done bc' tt
      /\ bcache_nwrites bc' = int_incr (bcache_nwrites (fresh disk10 2))
      /\ entry Part000.find_from (cache bc') 10 = Some blk
      /\ state blk = BLOCK_DIRTY /\ take BLOCK_SIZE (data blk) = bytes_A.
Proof.
  split; [apply length_bytes_A|]. split; [done|].
  exact (proj1 (proj2
    (C2_no_range_check (fresh disk10 2) 10 bytes_A zero_block zero_block
       length_bytes_A))).
Defined.

(** C2 as the spec words it fails: on a device of ten blocks, a write
    to block 10 is not rejected.  It returns after creating an entry and
    counting the write. *)
Lemma C2_write_beyond_device_accepted :
  bcache_disk_blocks (fresh disk10 2) = 10
  /\ BcacheC.bcache_write (Some zero_block) (fresh disk10 2) 10 bytes_A
     = Done {| disk := disk10;
               cache := [{| blocknum := 10; state := BLOCK_DIRTY;
                            data := bytes_A |}];
               memory_blocks := 2; nreads := 0; nwrites := 1 |} tt
  /\ Part000.bcache_write (Some zero_block) (fresh disk10 2) 10 bytes_A
     = Done {| disk := disk10;
               cache := [{| blocknum := 10; state := BLOCK_DIRTY;
                            data := bytes_A |}];
               memory_blocks := 2; nreads := 0; nwrites := 1 |} tt.
Proof. split; [done|]. split; vm_compute; reflexivity. Qed.

(** ** [malloc] returning null *)

(** C9: in [bcache.c] and [x.c], when the block is not in the list and
    [malloc] returns null, [bcache_read] and [bcache_write] return with
    the cache object as it was: list, states, data, device and both
    counters.  Nothing is copied to the caller of the read. *)
Theorem C9_no_memory_no_change (bc : bcache) (b : Z) (out p : list byte) :
  find_block bc b = None ->
  BcacheC.bcache_read None bc b out = Failed bc
  /\ BcacheC.bcache_write None bc b p = Failed bc
  /\ XC.bcache_read None bc b out = Failed bc
  /\ XC.bcache_write None bc b p = Failed bc.
Proof.
  intros Hf.
  unfold BcacheC.bcache_read, XC.bcache_read, BcacheC.bcache_write,
    XC.bcache_write, bcache_write_locked.
  rewrite Hf. done.
Qed.

Lemma C9_no_memory_no_change_witness :
  find_block (fresh disk10 2) 3 = None
  /\ BcacheC.bcache_read None (fresh disk10 2) 3 zero_block
     = Failed (fresh disk10 2).
Proof.
  split; [reflexivity|].
  exact (proj1 (C9_no_memory_no_change (fresh disk10 2) 3 zero_block bytes_A
                  eq_refl)).
Defined.

(** The third revision does not test the pointer that
    [find_or_create_block] returns. *)
Lemma part000_no_memory_crashes bc b out p :
  Part000.find_from (cache bc) b = None ->
  Part000.bcache_read None bc b out = Crashed
  /\ Part000.bcache_write None bc b p = Crashed.
Proof.
  intros Hf. unfold Part000.bcache_read, Part000.bcache_write,
    Part000.find_or_create_block. by rewrite Hf.
Qed.

(** ** What a write leaves alone *)

Lemma others_alter (f : block -> block) l i b :
  (forall blk, blocknum (f blk) = blocknum blk) ->
  (exists blk, l !! i = Some blk /\ blocknum blk = b) ->
  others b (alter f i l) = others b l.
Proof.
  intros Hf. unfold others.
  revert i. induction l as [|current next IH]; intros i [blk [Hi Hb]]; [done|].
  destruct i as [|i]; simpl in *.
  - injection Hi as ->.
    rewrite !filter_cons_False; [done| |]; rewrite ?Hf; intros Hn; by apply Hn.
  - change (list_alter f i next) with (alter f i next).
    rewrite !filter_cons, (IH i); [done|]. by exists blk.
Qed.

Lemma others_cons_same blk l :
  others (blocknum blk) (blk :: l) = others (blocknum blk) l.
Proof. unfold others. rewrite filter_cons_False; [done|]. intros Hn. by apply Hn. Qed.

(** C10: [bcache_write] on block [b] stores through the pointer to the
    entry for [b] only.  Whatever the list held for another number is
    what it holds afterwards, state and data; the device is as it was, no
    transfer made; and [bcache_memory_blocks] returns what it returned
    before.  This is so in [bcache.c] (and [x.c], the same text) and in
    [part_000]. *)
Theorem C10_write_frame (m : option (list byte)) (bc bc' : bcache) (b b' : Z)
    (p : list byte) :
  b' <> b ->
  (BcacheC.bcache_write m bc b p = Done bc' tt ->
     entry find_block_from (cache bc') b' = entry find_block_from (cache bc) b'
     /\ others b (cache bc') = others b (cache bc)
     /\ disk bc' = disk bc
     /\ bcache_memory_blocks bc' = bcache_memory_blocks bc)
  /\ (Part000.bcache_write m bc b p = Done bc' tt ->
     entry Part000.find_from (cache bc') b' = entry Part000.find_from (cache bc) b'
     /\ others b (cache bc') = others b (cache bc)
     /\ disk bc' = disk bc
     /\ bcache_memory_blocks bc' = bcache_memory_blocks bc).
Proof.
  intros Hne. split.
  - unfold BcacheC.bcache_write.
    destruct (find_block bc b) as [i|] eqn:Hf.
    + rewrite (bcache_write_locked_found _ _ _ _ _ Hf). intros [= <-].
      destruct (find_block_from_Some _ _ _ Hf) as (blk & Hi & Hb & _).
      simpl. split; [|split; [|done]].
      * apply (entry_find_block_alter _ _ _ b); [done| by exists blk |done].
      * apply others_alter; [done| by exists blk].
    + destruct m as [junk|].
      * rewrite (bcache_write_locked_absent _ _ _ _ Hf). intros [= <-].
        simpl. split; [|split; [|done]].
        -- by apply entry_find_block_cons.
        -- apply (others_cons_same {| blocknum := b |}).
      * by rewrite (bcache_write_locked_no_memory _ _ _ Hf).
  - destruct (Part000.find_from (cache bc) b) as [i|] eqn:Hf.
    + rewrite (part000_write_found _ _ _ _ _ Hf). intros [= <-].
      destruct (find_from_Some _ _ _ Hf) as (blk & Hi & Hb).
      simpl. split; [|split; [|done]].
      * apply (entry_find_from_alter _ _ _ b); [done| by exists blk |done].
      * apply others_alter; [done| by exists blk].
    + destruct m as [junk|].
      * rewrite (part000_write_absent _ _ _ _ Hf). intros [= <-].
        simpl. split; [|split; [|done]].
        -- by apply entry_find_from_cons.
        -- apply (others_cons_same {| blocknum := b |}).
      * intros Hw. exfalso. revert Hw.
        unfold Part000.bcache_write, Part000.find_or_create_block.
        by rewrite Hf.
Qed.

Lemma two_blocks_write :
  BcacheC.bcache_write None two_blocks 0 bytes_A = Done two_blocks_after_write tt.
Proof. vm_compute. reflexivity. Qed.

Lemma C10_write_frame_witness :
  1 <> 0
  /\ BcacheC.bcache_write None two_blocks 0 bytes_A = Done two_blocks_after_write tt
  /\ entry find_block_from (cache two_blocks_after_write) 1
     = entry find_block_from (cache two_blocks) 1
  /\ disk two_blocks_after_write = disk two_blocks.
Proof.
  split; [discriminate|]. split; [exact two_blocks_write|].
  pose proof (proj1 (C10_write_frame None two_blocks two_blocks_after_write
                       0 1 bytes_A ltac:(discriminate)) two_blocks_write) as H.
  split; [exact (proj1 H) | exact (proj1 (proj2 (proj2 H)))].
Defined.

(** ** A read after a write *)

Lemma deref_alter_eq (f : block -> block) l i blk :
  l !! i = Some blk -> deref (alter f i l) i = f blk.
Proof. intros H. unfold deref. by rewrite list_lookup_alter_eq, H. Qed.

Lemma lookup_alter_Some (f : block -> block) (l : list block) i blk :
  l !! i = Some blk -> alter f i l !! i = Some (f blk).
Proof. intros H. by rewrite list_lookup_alter_eq, H. Qed.

(** After [bcache_write] of [bcache.c] and [x.c] has returned, the
    search for the block finds it, and finds it dirty. *)
Lemma bcache_write_locked_leaves_dirty m bc b p bc1 :
  bcache_write_locked m bc b p = Done bc1 tt ->
  exists i blk, find_block bc1 b = Some i /\ cache bc1 !! i = Some blk
                /\ state blk = BLOCK_DIRTY.
Proof.
  destruct (find_block bc b) as [i|] eqn:Hf.
  - rewrite (bcache_write_locked_found _ _ _ _ _ Hf). intros [= <-].
    destruct (find_block_from_Some _ _ _ Hf) as (blk & Hi & _).
    exists i, (dirty_with p blk). split; [|split; [|done]].
    + apply find_block_from_alter_found;
        [apply dirty_with_blocknum | apply dirty_with_not_free | done].
    + by apply lookup_alter_Some.
  - destruct m as [junk|].
    + rewrite (bcache_write_locked_absent _ _ _ _ Hf). intros [= <-].
      eexists 0%nat, _. split; [|split; [reflexivity|done]].
      unfold find_block. simpl. by rewrite decide_True.
    + by rewrite (bcache_write_locked_no_memory _ _ _ Hf).
Qed.

(** [bcache.c]: the read that follows copies nothing and is not
    counted, because the block is dirty, not ready. *)
Lemma bcachec_read_after_write m m' bc b p bc1 out :
  BcacheC.bcache_write m bc b p = Done bc1 tt ->
  BcacheC.bcache_read m' bc1 b out = Failed bc1.
Proof.
  intros Hw. apply bcache_write_locked_leaves_dirty in Hw as (i & blk & Hf & Hi & Hs).
  unfold BcacheC.bcache_read. rewrite Hf. unfold deref. rewrite Hi. simpl.
  rewrite Hs. done.
Qed.

(** [x.c]: the read that follows waits for the block to become ready. *)
Lemma xc_read_after_write m m' bc b p bc1 out :
  XC.bcache_write m bc b p = Done bc1 tt ->
  XC.bcache_read m' bc1 b out = Blocked bc1.
Proof.
  intros Hw. apply bcache_write_locked_leaves_dirty in Hw as (i & blk & Hf & Hi & Hs).
  unfold XC.bcache_read, wait_ready_and_copy. rewrite Hf.
  unfold deref. rewrite Hi. simpl. rewrite Hs. simpl.
  rewrite Hi. simpl. rewrite Hs. done.
Qed.

(** [part_000]: the read that follows takes the dirty block for one
    without data, fills it from the device and hands that to the
    caller. *)
Lemma part000_read_after_write m m' bc b p bc1 out :
  Part000.bcache_write m bc b p = Done bc1 tt ->
  exists bc2 written,
    Part000.bcache_read m' bc1 b out
    = Done bc2 (memcpy out (memcpy written (sector (disk bc) b) BLOCK_SIZE)
                  BLOCK_SIZE)
    /\ calls (disk bc2) = Disk_read In_read b :: calls (disk bc).
Proof.
  assert (Hgen : forall l i blk d nr nw mb,
    Part000.find_from l b = Some i -> l !! i = Some blk ->
    state blk = BLOCK_DIRTY ->
    exists bc2,
      Part000.bcache_read m'
        {| disk := d; cache := l; memory_blocks := mb; nreads := nr;
           nwrites := nw |} b out
      = Done bc2 (memcpy out (memcpy (data blk) (sector d b) BLOCK_SIZE)
                    BLOCK_SIZE)
      /\ calls (disk bc2) = Disk_read In_read b :: calls d).
  { intros l i blk d nr nw mb Hf Hi Hs.
    unfold Part000.bcache_read, Part000.find_or_create_block. simpl.
    rewrite Hf. simpl.
    assert (Hd : deref l i = blk) by (unfold deref; by rewrite Hi).
    rewrite Hd, Hs. rewrite decide_True by (by right).
    unfold read_from_disk, wait_ready_and_copy. simpl.
    rewrite (deref_alter_eq _ _ _ _ Hi). simpl.
    rewrite (deref_alter_eq _ _ _ _ (lookup_alter_Some _ _ _ _ Hi)). simpl.
    eexists. split; reflexivity. }
  destruct (Part000.find_from (cache bc) b) as [i|] eqn:Hf.
  - rewrite (part000_write_found _ _ _ _ _ Hf). intros [= <-].
    destruct (find_from_Some _ _ _ Hf) as (blk & Hi & _).
    destruct (Hgen (alter (dirty_with p) i (cache bc)) i (dirty_with p blk)
                (disk bc) (nreads bc) (int_incr (nwrites bc)) (memory_blocks bc))
      as (bc2 & Hr & Hc).
    + by rewrite (find_from_alter _ _ _ _ (dirty_with_blocknum p)).
    + by apply lookup_alter_Some.
    + done.
    + exists bc2, (data (dirty_with p blk)). split; [exact Hr | exact Hc].
  - destruct m as [junk|].
    + rewrite (part000_write_absent _ _ _ _ Hf). intros [= <-].
      edestruct (Hgen ({| blocknum := b; state := BLOCK_DIRTY;
                         data := memcpy junk p BLOCK_SIZE |} :: cache bc)
                  0%nat) as (bc2 & Hr & Hc);
        [simpl; by rewrite decide_True | reflexivity | reflexivity |].
      eexists bc2, _. split; [exact Hr | exact Hc].
    + intros Hw. exfalso. revert Hw.
      unfold Part000.bcache_write, Part000.find_or_create_block.
      by rewrite Hf.
Qed.

Lemma zero_block_not_bytes_A : zero_block <> bytes_A.
Proof.
  intros H. assert (Hh : head zero_block = head bytes_A) by (by rewrite H).
  vm_compute in Hh. discriminate.
Qed.

(** C1 on the code: on a device that holds zeros, [bcache_write] of
    4096 bytes ['A'] to block 0 and then [bcache_read] of block 0, with
    no call in between.  In [part_000] the read fetches block 0 from
    the device over the written bytes and the caller gets zeros; in
    [bcache.c] the read copies nothing and is not counted; in [x.c] the
    read does not return. *)
Theorem C1_read_after_write_misses :
  Part000.bcache_write (Some zero_block) (fresh disk10 2) 0 bytes_A
    = Done written_0 tt
  /\ Part000.bcache_read None written_0 0 zero_block
    = Done {| disk := {| nblocks := 10; sectors := ∅;
                         calls := [Disk_read In_read 0] |};
              cache := [{| blocknum := 0; state := BLOCK_READY;
                           data := zero_block |}];
              memory_blocks := 2; nreads := 1; nwrites := 1 |}
           zero_block
  /\ BcacheC.bcache_write (Some zero_block) (fresh disk10 2) 0 bytes_A
    = Done written_0 tt
  /\ BcacheC.bcache_read None written_0 0 zero_block = Failed written_0
  /\ XC.bcache_read None written_0 0 zero_block = Blocked written_0
  /\ zero_block <> bytes_A.
Proof.
  repeat split; try (vm_compute; reflexivity).
  apply zero_block_not_bytes_A.
Qed.

(** ** Who calls the device *)

(** C6 on the code: [bcache_read] of a block that is not in the list
    calls [disk_read] itself, in each revision, and [bcache_sync] of
    [part_000] calls [disk_write] itself.  The calls the device
    received are listed latest first. *)
Theorem C6_callers_transfer_themselves :
  (exists bc' buf,
      Part000.bcache_read (Some zero_block) (fresh disk10 2) 5 zero_block
      = Done bc' buf
      /\ calls (disk bc') = [Disk_read In_read 5])
  /\ (exists bc' buf,
      XC.bcache_read (Some zero_block) (fresh disk10 2) 5 zero_block
      = Done bc' buf
      /\ calls (disk bc') = [Disk_read In_read 5])
  /\ (exists bc' buf,
      BcacheC.bcache_read (Some zero_block) (fresh disk10 2) 5 zero_block
      = Done bc' buf
      /\ calls (disk bc') = [Disk_read In_read 5])
  /\ (exists bc',
      Part000.bcache_sync written_0 = Done bc' tt
      /\ calls (disk bc') = [Disk_write In_sync 0]).
Proof.
  split; [|split; [|split]].
  - rewrite part000_read_absent by reflexivity. eexists _, _. split; reflexivity.
  - rewrite xc_read_absent by reflexivity. eexists _, _. split; reflexivity.
  - rewrite bcachec_read_absent by reflexivity. eexists _, _. split; reflexivity.
  - eexists. split; vm_compute; reflexivity.
Qed.

(** ** Sequences of calls *)

Lemma nums_alter (f : block -> block) i l :
  (forall blk, blocknum (f blk) = blocknum blk) ->
  nums (alter f i l) = nums l.
Proof.
  intros Hf. unfold nums. revert i.
  induction l as [|blk next IH]; intros [|i]; simpl; [done|done| |].
  - by rewrite Hf.
  - change (list_alter f i next) with (alter f i next). by rewrite IH.
Qed.

Lemma find_from_elem l b i : Part000.find_from l b = Some i -> b ∈ nums l.
Proof.
  intros H. destruct (find_from_Some _ _ _ H) as (blk & Hi & <-).
  unfold nums. apply list_elem_of_fmap. exists blk. split; [done|].
  by apply list_elem_of_lookup_2 in Hi.
Qed.

Lemma find_from_not_elem l b : Part000.find_from l b = None -> b ∉ nums l.
Proof.
  intros H%find_from_None Hin. unfold nums in Hin.
  apply list_elem_of_fmap in Hin as (blk & -> & Hin).
  rewrite Forall_forall in H. by apply (H blk).
Qed.

(** *** [part_000], call by call *)

Lemma part000_find_or_create m bc b bc0 i :
  Part000.find_or_create_block m bc b = (bc0, Some i) ->
  disk bc0 = disk bc /\ nreads bc0 = nreads bc /\ nwrites bc0 = nwrites bc
  /\ memory_blocks bc0 = memory_blocks bc
  /\ nums (cache bc0) = grown b (cache bc)
  /\ (exists blk, cache bc0 !! i = Some blk /\ blocknum blk = b)
  /\ (Forall settled (cache bc) ->
      forall j blk, j <> i -> cache bc0 !! j = Some blk -> settled blk).
Proof.
  unfold Part000.find_or_create_block, grown.
  destruct (Part000.find_from (cache bc) b) as [j|] eqn:Hf.
  - intros [= <- <-]. rewrite decide_True by by eapply find_from_elem.
    repeat (split; [done|]).
    split; [by apply find_from_Some|].
    intros Hs k blk _ Hk. rewrite Forall_lookup in Hs. by eapply Hs.
  - destruct m as [junk|]; [|done]. intros [= <- <-].
    rewrite decide_False by by apply find_from_not_elem.
    repeat (split; [done|]).
    split; [by eexists|].
    intros Hs [|k] blk Hne Hk; [done|]. simpl in Hk.
    rewrite Forall_lookup in Hs. by eapply Hs.
Qed.

(** A store through a pointer settles the list when the other blocks
    are settled and the stored block is. *)
Lemma Forall_settled_store (f : block -> block) i l blk :
  l !! i = Some blk -> settled (f blk) ->
  (forall j x, j <> i -> l !! j = Some x -> settled x) ->
  Forall settled (alter f i l).
Proof.
  intros Hi Hf Hrest. apply Forall_lookup. intros j x Hj.
  destruct (decide (j = i)) as [->|Hne].
  - rewrite (lookup_alter_Some _ _ _ _ Hi) in Hj. by injection Hj as <-.
  - rewrite list_lookup_alter_ne in Hj by done. by eapply Hrest.
Qed.

Lemma part000_read_done m bc b out bc' buf :
  Part000.bcache_read m bc b out = Done bc' buf ->
  nreads bc' = int_incr (nreads bc) /\ nwrites bc' = nwrites bc
  /\ memory_blocks bc' = memory_blocks bc
  /\ nums (cache bc') = grown b (cache bc)
  /\ (Forall settled (cache bc) -> Forall settled (cache bc')).
Proof.
  unfold Part000.bcache_read.
  destruct (Part000.find_or_create_block m bc b) as [bc0 [i|]] eqn:Hfoc; [|done].
  destruct (part000_find_or_create _ _ _ _ _ Hfoc)
    as (Hd & Hr & Hw & Hm & Hn & (blk & Hi & Hb) & Hs).
  assert (Hd0 : deref (cache bc0) i = blk) by (unfold deref; by rewrite Hi).
  simpl. rewrite Hd0.
  destruct (decide (state blk = BLOCK_FREE \/ state blk = BLOCK_DIRTY))
    as [Hfree|Hnot].
  - unfold read_from_disk, wait_ready_and_copy. simpl.
    rewrite (deref_alter_eq _ _ _ _ (lookup_alter_Some _ _ _ _ Hi)). simpl.
    intros [= <- <-]. simpl.
    rewrite !nums_alter by done.
    repeat (split; [congruence|]).
    intros Hall. rewrite list_alter_alter_eq.
    apply (Forall_settled_store _ _ _ blk); [done|by left|by apply Hs].
  - unfold wait_ready_and_copy. rewrite Hd0.
    destruct (decide (state blk = BLOCK_READY)) as [Hready|]; [|done].
    intros [= <- <-]. simpl. repeat (split; [congruence|]).
    intros Hall. apply Forall_lookup. intros j x Hj.
    destruct (decide (j = i)) as [->|Hne].
    + rewrite Hi in Hj. injection Hj as <-. by left.
    + by eapply Hs.
Qed.

Lemma part000_write_done m bc b p bc' :
  Part000.bcache_write m bc b p = Done bc' tt ->
  nreads bc' = nreads bc /\ nwrites bc' = int_incr (nwrites bc)
  /\ memory_blocks bc' = memory_blocks bc
  /\ nums (cache bc') = grown b (cache bc)
  /\ (Forall settled (cache bc) -> Forall settled (cache bc')).
Proof.
  unfold Part000.bcache_write.
  destruct (Part000.find_or_create_block m bc b) as [bc0 [i|]] eqn:Hfoc; [|done].
  destruct (part000_find_or_create _ _ _ _ _ Hfoc)
    as (Hd & Hr & Hw & Hm & Hn & (blk & Hi & Hb) & Hs).
  intros [= <-]. simpl. rewrite nums_alter by done.
  repeat (split; [congruence|]).
  intros Hall.
  apply (Forall_settled_store _ _ _ blk); [done|by right|by apply Hs].
Qed.

Lemma part000_sync_blocks d l :
  nums (Part000.sync_blocks d l).2 = nums l
  /\ Forall (fun blk => state blk <> BLOCK_DIRTY) (Part000.sync_blocks d l).2
  /\ (Forall settled l -> Forall settled (Part000.sync_blocks d l).2).
Proof.
  revert d. induction l as [|blk next IH]; intros d; simpl.
  - repeat split; constructor.
  - destruct (decide (state blk = BLOCK_DIRTY)) as [Hd|Hd].
    + destruct (IH (disk_write In_sync d (blocknum blk) (data blk)))
        as (Hn & Hc & Hs).
      destruct (Part000.sync_blocks _ next) as [d2 next']. simpl in *.
      split; [by rewrite Hn|]. split.
      * constructor; [done|done].
      * intros Hall. inversion Hall; subst. constructor; [by left|by apply Hs].
    + destruct (IH d) as (Hn & Hc & Hs).
      destruct (Part000.sync_blocks d next) as [d2 next']. simpl in *.
      split; [by rewrite Hn|]. split.
      * constructor; [done|done].
      * intros Hall. inversion Hall; subst. constructor; [done|by apply Hs].
Qed.

Lemma part000_write_first_dirty d l :
  nums (Part000.write_first_dirty d l).2 = nums l
  /\ (Forall settled l -> Forall settled (Part000.write_first_dirty d l).2).
Proof.
  induction l as [|blk next IH]; simpl.
  - split; [done|]. constructor.
  - destruct (decide (state blk = BLOCK_DIRTY)) as [Hd|Hd]; simpl.
    + split; [done|]. intros Hall. inversion Hall; subst.
      constructor; [by left|done].
    + destruct IH as (Hn & Hs).
      destruct (Part000.write_first_dirty d next) as [d2 next']. simpl in *.
      split; [by rewrite Hn|].
      intros Hall. inversion Hall; subst. constructor; [done|by apply Hs].
Qed.

(** *** [bcache.c] and [x.c], call by call *)

Lemma bcachec_read_returns m bc b out :
  match BcacheC.bcache_read m bc b out with
  | Done bc' _ =>
      nreads bc' = int_incr (nreads bc) /\ nwrites bc' = nwrites bc
      /\ memory_blocks bc' = memory_blocks bc
      /\ (Forall settled (cache bc) -> Forall settled (cache bc'))
  | Failed bc' => bc' = bc
  | _ => False
  end.
Proof.
  unfold BcacheC.bcache_read.
  destruct (find_block bc b) as [i|] eqn:Hf.
  - destruct (decide _); done.
  - destruct m as [junk|]; [|done]. simpl.
    repeat (split; [done|]). intros Hall. constructor; [by left|done].
Qed.

Lemma bcache_write_locked_returns m bc b p :
  match bcache_write_locked m bc b p with
  | Done bc' _ =>
      nreads bc' = nreads bc /\ nwrites bc' = int_incr (nwrites bc)
      /\ memory_blocks bc' = memory_blocks bc
      /\ (Forall settled (cache bc) -> Forall settled (cache bc'))
  | Failed bc' => bc' = bc
  | _ => False
  end.
Proof.
  unfold bcache_write_locked.
  destruct (find_block bc b) as [i|] eqn:Hf.
  - simpl. repeat (split; [done|]). intros Hall.
    apply Forall_alter; [done|]. intros. by right.
  - destruct m as [junk|]; [|done]. simpl.
    repeat (split; [done|]). intros Hall. constructor; [by right|done].
Qed.

(** The walk of [bcache_sync] in [bcache.c] and [x.c] comes to its
    end exactly when it meets no dirty block, and then it has changed
    nothing. *)
Lemma sync_walk_spec l :
  match sync_walk l with
  | (l', false) => l' = l /\ Forall (fun blk => state blk <> BLOCK_DIRTY) l
  | (_, true) => Exists (fun blk => state blk = BLOCK_DIRTY) l
  end.
Proof.
  induction l as [|current next IH]; simpl.
  - split; [done|constructor].
  - destruct (decide (state current = BLOCK_DIRTY)) as [Hd|Hd].
    + by constructor.
    + destruct (sync_walk next) as [next' [|]].
      * by apply Exists_cons_tl.
      * destruct IH as [-> Hall]. split; [done|]. by constructor.
Qed.

Lemma bcache_sync_locked_returns bc :
  match bcache_sync_locked bc with
  | Done bc' _ =>
      bc' = bc /\ Forall (fun blk => state blk <> BLOCK_DIRTY) (cache bc)
  | Blocked _ => Exists (fun blk => state blk = BLOCK_DIRTY) (cache bc)
  | _ => False
  end.
Proof.
  unfold bcache_sync_locked. pose proof (sync_walk_spec (cache bc)) as H.
  destruct (sync_walk (cache bc)) as [l' [|]]; [done|].
  destruct H as [-> Hall]. split; [by destruct bc|done].
Qed.

Lemma scheduler_scan_settled d l :
  Forall settled l -> (scheduler_scan d l).2 = l /\ (scheduler_scan d l).1 = d.
Proof.
  revert d. induction l as [|current next IH]; intros d Hall; [done|].
  inversion Hall as [|? ? Hcur Hnext]; subst. simpl.
  destruct (IH d Hnext) as [Hl Hd].
  destruct Hcur as [Hs|Hs]; rewrite Hs;
    destruct (scheduler_scan d next) as [d2 next']; simpl in *; by subst.
Qed.

Lemma bcache_io_scheduler_pass_counts bc :
  nreads (bcache_io_scheduler_pass bc) = nreads bc
  /\ nwrites (bcache_io_scheduler_pass bc) = nwrites bc
  /\ memory_blocks (bcache_io_scheduler_pass bc) = memory_blocks bc.
Proof.
  unfold bcache_io_scheduler_pass.
  by destruct (scheduler_scan (disk bc) (cache bc)).
Qed.

Lemma xc_read_returns m bc b out :
  match XC.bcache_read m bc b out with
  | Done bc' _ => nreads bc' = int_incr (nreads bc) /\ nwrites bc' = nwrites bc
  | Failed bc' => bc' = bc
  | _ => True
  end.
Proof.
  unfold XC.bcache_read, wait_ready_and_copy, read_from_disk.
  destruct (find_block bc b) as [i|] eqn:Hf.
  - destruct (decide (state (deref (cache bc) i) = BLOCK_READING)); simpl;
      destruct (decide _); done.
  - destruct m as [junk|]; done.
Qed.

(** *** Counting *)

Lemma wrap_int_add_l (a c : Z) : wrap_int (wrap_int a + c) = wrap_int (a + c).
Proof.
  unfold wrap_int.
  replace ((a + 2147483648) mod 4294967296 - 2147483648 + c + 2147483648)
    with ((a + 2147483648) mod 4294967296 + c) by lia.
  replace (a + c + 2147483648) with ((a + 2147483648) + c) by lia.
  by rewrite Zplus_mod_idemp_l.
Qed.

Lemma wrap_int_idem (a : Z) : wrap_int (wrap_int a) = wrap_int a.
Proof.
  pose proof (wrap_int_add_l a 0) as H. by rewrite !Z.add_0_r in H.
Qed.

Section Tally.
Variable exec : op -> bcache -> result (option (list byte)).
Hypothesis exec_counts : counts_calls exec.

Lemma run_tally ops : forall bc t,
  run exec ops bc = Some t ->
  wrap_int (nreads bc) = nreads bc ->
  wrap_int (nwrites bc) = nwrites bc ->
  0 <= reads_done t /\ 0 <= writes_done t
  /\ nreads (final t) = wrap_int (nreads bc + reads_done t)
  /\ nwrites (final t) = wrap_int (nwrites bc + writes_done t).
Proof.
  induction ops as [|o ops IH]; intros bc t; simpl.
  - intros [= <-] Hr Hw. simpl. rewrite !Z.add_0_r. by rewrite Hr, Hw.
  - pose proof (exec_counts o bc) as Hstep.
    destruct (exec o bc) as [bc' r|bc'| |]; [| |done|done].
    + destruct (run exec ops bc') as [t'|] eqn:Hrun; [|done].
      intros [= <-] Hr Hw. destruct Hstep as [Hnr Hnw].
      destruct (IH bc' t' Hrun) as (Hr0 & Hw0 & Hfr & Hfw).
      { rewrite Hnr. destruct o; try done. apply wrap_int_idem. }
      { rewrite Hnw. destruct o; try done. apply wrap_int_idem. }
      rewrite Hnr in Hfr. rewrite Hnw in Hfw.
      destruct o; simpl; unfold int_incr in *;
        rewrite ?wrap_int_add_l in Hfr; rewrite ?wrap_int_add_l in Hfw;
        rewrite Hfr, Hfw; repeat split; try lia; f_equal; lia.
    + intros Hrun Hr Hw. destruct Hstep as [Hnr Hnw].
      rewrite <- Hnr, <- Hnw. apply IH; [done| |]; congruence.
Qed.
End Tally.

Lemma bcachec_counts_calls : counts_calls BcacheC.exec.
Proof.
  intros [b out m|b p m| |] bc; unfold BcacheC.exec, exec_with.
  - pose proof (bcachec_read_returns m bc b out) as H.
    destruct (BcacheC.bcache_read m bc b out); [|by subst|done|done].
    by destruct H as (? & ? & _).
  - pose proof (bcache_write_locked_returns m bc b p) as H.
    unfold BcacheC.bcache_write.
    destruct (bcache_write_locked m bc b p); [|by subst|done|done].
    by destruct H as (? & ? & _).
  - pose proof (bcache_sync_locked_returns bc) as H.
    unfold BcacheC.bcache_sync.
    destruct (bcache_sync_locked bc); [|done|done|done].
    by destruct H as [-> _].
  - pose proof (bcache_io_scheduler_pass_counts bc) as (? & ? & _). done.
Qed.

Lemma xc_counts_calls : counts_calls XC.exec.
Proof.
  intros [b out m|b p m| |] bc; unfold XC.exec, exec_with.
  - pose proof (xc_read_returns m bc b out) as H.
    destruct (XC.bcache_read m bc b out); [done|by subst|done|done].
  - pose proof (bcache_write_locked_returns m bc b p) as H.
    unfold XC.bcache_write.
    destruct (bcache_write_locked m bc b p); [|by subst|done|done].
    by destruct H as (? & ? & _).
  - pose proof (bcache_sync_locked_returns bc) as H.
    unfold XC.bcache_sync.
    destruct (bcache_sync_locked bc); [|done|done|done].
    by destruct H as [-> _].
  - pose proof (bcache_io_scheduler_pass_counts bc) as (? & ? & _). done.
Qed.

Lemma part000_counts_calls : counts_calls Part000.exec.
Proof.
  intros [b out m|b p m| |] bc; unfold Part000.exec, exec_with.
  - destruct (Part000.bcache_read m bc b out) as [bc' buf|bc'|bc'|] eqn:H;
      [|exfalso|done|done].
    + by destruct (part000_read_done _ _ _ _ _ _ H) as (? & ? & _).
    + revert H. unfold Part000.bcache_read, wait_ready_and_copy.
      destruct (Part000.find_or_create_block m bc b) as [? [?|]]; [|done].
      by destruct (decide _).
  - destruct (Part000.bcache_write m bc b p) as [bc' []|bc'|bc'|] eqn:H;
      [|exfalso|done|done].
    + by destruct (part000_write_done _ _ _ _ _ H) as (? & ? & _).
    + revert H. unfold Part000.bcache_write.
      by destruct (Part000.find_or_create_block m bc b) as [? [?|]].
  - unfold Part000.bcache_sync.
    by destruct (Part000.sync_blocks (disk bc) (cache bc)).
  - unfold Part000.bcache_io_scheduler.
    by destruct (Part000.write_first_dirty (disk bc) (cache bc)).
Qed.

(** C7: on a cache object fresh from [bcache_create], after any
    sequence of calls that all return, [bcache_nreads] is the number of
    [bcache_read] calls that copied a block to their caller and
    [bcache_nwrites] the number of [bcache_write] calls that stored one,
    as long as these numbers fit the C [int] that holds them.  This is
    so in each of the three revisions. *)
Theorem C7_counters_count_calls (d : struct_disk) (c : Z) (ops : list op)
    (t : tally) :
  reads_done t <= INT_MAX -> writes_done t <= INT_MAX ->
  (run Part000.exec ops (fresh d c) = Some t \/
   run BcacheC.exec ops (fresh d c) = Some t \/
   run XC.exec ops (fresh d c) = Some t) ->
  bcache_nreads (final t) = reads_done t
  /\ bcache_nwrites (final t) = writes_done t.
Proof.
  intros Hr Hw Hrun.
  assert (0 <= reads_done t /\ 0 <= writes_done t
          /\ nreads (final t) = wrap_int (0 + reads_done t)
          /\ nwrites (final t) = wrap_int (0 + writes_done t))
    as (Hr0 & Hw0 & Hnr & Hnw).
  { destruct Hrun as [Hrun|[Hrun|Hrun]].
    - by apply (run_tally _ part000_counts_calls ops (fresh d c) t).
    - by apply (run_tally _ bcachec_counts_calls ops (fresh d c) t).
    - by apply (run_tally _ xc_counts_calls ops (fresh d c) t). }
  unfold bcache_nreads, bcache_nwrites. rewrite Hnr, Hnw.
  split; apply wrap_int_small; unfold INT_MAX in *; lia.
Qed.

(** *** Invariants of a sequence *)

Lemma run_preserves P exec ops :
  preserves P exec ->
  forall bc t, run exec ops bc = Some t -> P bc -> P (final t).
Proof.
  intros Hstep. induction ops as [|o ops IH]; intros bc t; simpl.
  - by intros [= <-].
  - specialize (Hstep o bc).
    destruct (exec o bc) as [bc' r|bc'| |]; [| |done|done].
    + destruct (run exec ops bc') as [t'|] eqn:Hrun; [|done].
      intros [= <-] HP.
      replace (final (count o t')) with (final t') by by destruct o.
      apply (IH bc'); auto.
    + intros Hrun HP. apply (IH bc'); auto.
Qed.

Lemma part000_preserves_settled : preserves all_settled Part000.exec.
Proof.
  intros [b out m|b p m| |] bc Hall; unfold Part000.exec, exec_with, all_settled.
  - destruct (Part000.bcache_read m bc b out) as [bc' buf|bc'|bc'|] eqn:H;
      [| |done|done].
    + destruct (part000_read_done _ _ _ _ _ _ H) as (_ & _ & _ & _ & Hs). auto.
    + exfalso. pose proof (part000_counts_calls (Read b out m) bc) as Hc.
      revert H. unfold Part000.bcache_read, wait_ready_and_copy.
      destruct (Part000.find_or_create_block m bc b) as [? [?|]]; [|done].
      by destruct (decide _).
  - destruct (Part000.bcache_write m bc b p) as [bc' []|bc'|bc'|] eqn:H;
      [| |done|done].
    + destruct (part000_write_done _ _ _ _ _ H) as (_ & _ & _ & _ & Hs). auto.
    + exfalso. revert H. unfold Part000.bcache_write.
      by destruct (Part000.find_or_create_block m bc b) as [? [?|]].
  - unfold Part000.bcache_sync.
    pose proof (part000_sync_blocks (disk bc) (cache bc)) as (_ & _ & Hs).
    destruct (Part000.sync_blocks (disk bc) (cache bc)). simpl in *. auto.
  - unfold Part000.bcache_io_scheduler.
    pose proof (part000_write_first_dirty (disk bc) (cache bc)) as (_ & Hs).
    destruct (Part000.write_first_dirty (disk bc) (cache bc)). simpl in *. auto.
Qed.

Lemma bcachec_preserves_settled : preserves all_settled BcacheC.exec.
Proof.
  intros [b out m|b p m| |] bc Hall; unfold BcacheC.exec, exec_with, all_settled.
  - pose proof (bcachec_read_returns m bc b out) as H.
    destruct (BcacheC.bcache_read m bc b out); [|by subst|done|done].
    destruct H as (_ & _ & _ & Hs). auto.
  - pose proof (bcache_write_locked_returns m bc b p) as H.
    unfold BcacheC.bcache_write.
    destruct (bcache_write_locked m bc b p); [|by subst|done|done].
    destruct H as (_ & _ & _ & Hs). auto.
  - pose proof (bcache_sync_locked_returns bc) as H.
    unfold BcacheC.bcache_sync.
    destruct (bcache_sync_locked bc); [|done|done|done].
    by destruct H as [-> _].
  - unfold BcacheC.bcache_io_scheduler, bcache_io_scheduler_pass.
    destruct (scheduler_scan_settled (disk bc) (cache bc) Hall) as [Hl Hd].
    destruct (scheduler_scan (disk bc) (cache bc)). simpl in *. by subst.
Qed.

Lemma settled_not_dirty_clean blk :
  settled blk -> state blk <> BLOCK_DIRTY -> clean blk.
Proof. intros [Hs|Hs] Hn; [|done]. split; congruence. Qed.

(** *** The length of the list *)

Lemma grown_NoDup b l : NoDup (nums l) -> NoDup (grown b l).
Proof.
  intros Hnd. unfold grown. destruct (decide (b ∈ nums l)); [done|].
  by constructor.
Qed.

Lemma grown_set b l :
  list_to_set (grown b l) =@{gset Z} {[b]} ∪ list_to_set (nums l).
Proof.
  unfold grown. destruct (decide (b ∈ nums l)) as [Hin|Hin]; [|done].
  apply (elem_of_list_to_set (C := gset Z)) in Hin. set_solver.
Qed.

(** In [part_000] a call leaves the block numbers of the list as they
    were, except that a read or a write of a number that is not in the
    list puts it at the head. *)
Lemma part000_exec_nums o bc :
  match Part000.exec o bc with
  | Done bc' _ =>
      nums (cache bc') = match o with
                         | Read b _ _ => grown b (cache bc)
                         | Write b _ _ => grown b (cache bc)
                         | _ => nums (cache bc)
                         end
  | Failed _ => False
  | _ => True
  end.
Proof.
  destruct o as [b out m|b p m| |]; unfold Part000.exec, exec_with.
  - destruct (Part000.bcache_read m bc b out) as [bc' buf|bc'|bc'|] eqn:H;
      [| |done|done].
    + by destruct (part000_read_done _ _ _ _ _ _ H) as (_ & _ & _ & Hn & _).
    + revert H. unfold Part000.bcache_read, wait_ready_and_copy.
      destruct (Part000.find_or_create_block m bc b) as [? [?|]]; [|done].
      by destruct (decide _).
  - destruct (Part000.bcache_write m bc b p) as [bc' []|bc'|bc'|] eqn:H;
      [| |done|done].
    + by destruct (part000_write_done _ _ _ _ _ H) as (_ & _ & _ & Hn & _).
    + revert H. unfold Part000.bcache_write.
      by destruct (Part000.find_or_create_block m bc b) as [? [?|]].
  - unfold Part000.bcache_sync.
    pose proof (part000_sync_blocks (disk bc) (cache bc)) as (Hn & _).
    by destruct (Part000.sync_blocks (disk bc) (cache bc)).
  - unfold Part000.bcache_io_scheduler.
    pose proof (part000_write_first_dirty (disk bc) (cache bc)) as (Hn & _).
    by destruct (Part000.write_first_dirty (disk bc) (cache bc)).
Qed.

Section Growth.
Variable ok : op -> Prop.
Variable P : bcache -> Prop.
Variable exec : op -> bcache -> result (option (list byte)).
Hypothesis exec_grows : grows_by_need ok P exec.

Lemma run_grows ops : forall bc t,
  Forall ok ops -> P bc ->
  run exec ops bc = Some t ->
  NoDup (nums (cache bc)) ->
  NoDup (nums (cache (final t)))
  /\ memory_blocks (final t) = memory_blocks bc
  /\ list_to_set (nums (cache (final t)))
     =@{gset Z} list_to_set (touched ops) ∪ list_to_set (nums (cache bc)).
Proof.
  induction ops as [|o ops IH]; intros bc t Hok HP; simpl.
  - intros [= <-] Hnd. split; [done|]. split; [done|]. set_solver.
  - apply Forall_cons in Hok as [Ho Hok].
    pose proof (exec_grows o bc Ho HP) as Hstep. simpl in Hstep.
    assert (Hnext : forall bc' t',
      P bc' /\ memory_blocks bc' = memory_blocks bc
      /\ nums (cache bc') = match o with
                            | Read b _ _ => grown b (cache bc)
                            | Write b _ _ => grown b (cache bc)
                            | _ => nums (cache bc)
                            end ->
      run exec ops bc' = Some t' ->
      NoDup (nums (cache bc)) ->
      NoDup (nums (cache (final t')))
      /\ memory_blocks (final t') = memory_blocks bc
      /\ list_to_set (nums (cache (final t')))
         =@{gset Z} list_to_set (touched (o :: ops))
                    ∪ list_to_set (nums (cache bc))).
    { intros bc' t' (HP' & Hm & Hn) Hrun Hnd.
      destruct (IH bc' t' Hok HP' Hrun) as (Hnd' & Hm' & Hset).
      { rewrite Hn. destruct o; try done; by apply grown_NoDup. }
      split; [done|]. split; [congruence|].
      rewrite Hset, Hn. unfold touched.
      destruct o; simpl; rewrite ?grown_set; set_solver. }
    destruct (exec o bc) as [bc' r|bc'| |]; [| |done|done].
    + destruct (run exec ops bc') as [t'|] eqn:Hrun; [|done].
      intros [= <-] Hnd.
      replace (final (count o t')) with (final t') by by destruct o.
      by apply (Hnext bc').
    + intros Hrun Hnd. by apply (Hnext bc').
Qed.
End Growth.

Lemma find_block_from_no_free l b :
  Forall (fun blk => state blk <> BLOCK_FREE) l ->
  find_block_from l b = Part000.find_from l b.
Proof.
  induction 1 as [|blk l Hblk Hl IH]; simpl; [done|].
  rewrite IH. destruct (decide (blocknum blk = b)) as [Hb|Hb].
  - by rewrite decide_True.
  - rewrite decide_False; [done|]. by intros [? _].
Qed.

Lemma grown_found bc b i :
  no_free bc -> find_block bc b = Some i -> grown b (cache bc) = nums (cache bc).
Proof.
  intros Hnf Hf. unfold find_block in Hf.
  rewrite find_block_from_no_free in Hf by done.
  unfold grown. rewrite decide_True; [done|]. by eapply find_from_elem.
Qed.

Lemma grown_absent bc b :
  no_free bc -> find_block bc b = None ->
  grown b (cache bc) = b :: nums (cache bc).
Proof.
  intros Hnf Hf. unfold find_block in Hf.
  rewrite find_block_from_no_free in Hf by done.
  unfold grown. rewrite decide_False; [done|]. by apply find_from_not_elem.
Qed.

Lemma no_free_alter (f : block -> block) i l :
  (forall blk, state (f blk) <> BLOCK_FREE) ->
  Forall (fun blk => state blk <> BLOCK_FREE) l ->
  Forall (fun blk => state blk <> BLOCK_FREE) (alter f i l).
Proof. intros Hf Hl. apply Forall_alter; [done|]. intros blk _ _. apply Hf. Qed.

Lemma scheduler_scan_nums d l :
  nums (scheduler_scan d l).2 = nums l
  /\ (Forall (fun blk => state blk <> BLOCK_FREE) l ->
      Forall (fun blk => state blk <> BLOCK_FREE) (scheduler_scan d l).2).
Proof.
  revert d. induction l as [|current next IH]; intros d.
  - split; [done|]. constructor.
  - assert (Hcons : forall d1 (current' : block),
      blocknum current' = blocknum current ->
      (Forall (fun blk => state blk <> BLOCK_FREE) (current :: next) ->
       state current' <> BLOCK_FREE) ->
      nums (current' :: (scheduler_scan d1 next).2) = nums (current :: next)
      /\ (Forall (fun blk => state blk <> BLOCK_FREE) (current :: next) ->
          Forall (fun blk => state blk <> BLOCK_FREE)
            (current' :: (scheduler_scan d1 next).2))).
    { intros d1 current' Hb Hs. destruct (IH d1) as [Hn Hf].
      unfold nums in *. rewrite !fmap_cons, Hn, Hb. split; [done|].
      intros Hall. specialize (Hs Hall). inversion Hall; subst.
      constructor; auto. }
    simpl. destruct (state current) eqn:Hst; simpl.
    + specialize (Hcons d current eq_refl (fun H => Forall_inv H)).
      by destruct (scheduler_scan d next).
    + specialize (Hcons (disk_read In_scheduler d (blocknum current)
                           (data current)).1
                    (set_state BLOCK_READY
                       (set_data (disk_read In_scheduler d (blocknum current)
                                    (data current)).2 current))
                    eq_refl (fun _ => ltac:(discriminate))).
      simpl in Hcons. by destruct (scheduler_scan _ next).
    + specialize (Hcons d current eq_refl (fun H => Forall_inv H)).
      by destruct (scheduler_scan d next).
    + specialize (Hcons d current eq_refl (fun H => Forall_inv H)).
      by destruct (scheduler_scan d next).
    + specialize (Hcons (disk_write In_scheduler d (blocknum current)
                           (data current))
                    (set_state BLOCK_READY current)
                    eq_refl (fun _ => ltac:(discriminate))).
      by destruct (scheduler_scan _ next).
Qed.

Lemma write_locked_grows m bc b p :
  (m = None -> False) -> no_free bc ->
  match bcache_write_locked m bc b p with
  | Done bc' _ =>
      no_free bc' /\ memory_blocks bc' = memory_blocks bc
      /\ nums (cache bc') = grown b (cache bc)
  | _ => False
  end.
Proof.
  intros Hm Hnf. destruct (find_block bc b) as [i|] eqn:Hf.
  - rewrite (bcache_write_locked_found _ _ _ _ _ Hf). unfold no_free. simpl.
    rewrite nums_alter by done. rewrite (grown_found _ _ _ Hnf Hf).
    split; [|done]. by apply no_free_alter.
  - destruct m as [junk|]; [|done].
    rewrite (bcache_write_locked_absent _ _ _ _ Hf). unfold no_free. simpl.
    rewrite (grown_absent _ _ Hnf Hf). split; [|done]. by constructor.
Qed.

Lemma bcachec_grows : grows_by_need gets_memory no_free BcacheC.exec.
Proof.
  intros [b out m|b p m| |] bc Hok Hnf; unfold BcacheC.exec, exec_with; simpl.
  - unfold BcacheC.bcache_read.
    destruct (find_block bc b) as [i|] eqn:Hf.
    + rewrite (grown_found _ _ _ Hnf Hf). by destruct (decide _).
    + destruct m as [junk|]; [|done]. simpl. unfold no_free. simpl.
      rewrite (grown_absent _ _ Hnf Hf). split; [|done]. by constructor.
  - assert (Hm : m = None -> False) by (intros ->; done).
    pose proof (write_locked_grows m bc b p Hm Hnf) as H.
    unfold BcacheC.bcache_write.
    by destruct (bcache_write_locked m bc b p).
  - pose proof (bcache_sync_locked_returns bc) as H.
    unfold BcacheC.bcache_sync.
    destruct (bcache_sync_locked bc); try done. by destruct H as [-> _].
  - unfold BcacheC.bcache_io_scheduler, bcache_io_scheduler_pass.
    pose proof (scheduler_scan_nums (disk bc) (cache bc)) as [Hn Hf].
    destruct (scheduler_scan (disk bc) (cache bc)). unfold no_free. simpl in *.
    auto.
Qed.

Lemma xc_grows : grows_by_need gets_memory no_free XC.exec.
Proof.
  intros [b out m|b p m| |] bc Hok Hnf; unfold XC.exec, exec_with; simpl.
  - unfold XC.bcache_read, wait_ready_and_copy, read_from_disk.
    destruct (find_block bc b) as [i|] eqn:Hf.
    + rewrite (grown_found _ _ _ Hnf Hf).
      destruct (decide (state (deref (cache bc) i) = BLOCK_READING)); simpl;
        destruct (decide _); try done.
      unfold no_free. simpl. rewrite nums_alter by done.
      split; [|done]. by apply no_free_alter.
    + destruct m as [junk|]; [|done]. simpl. unfold no_free. simpl.
      rewrite (grown_absent _ _ Hnf Hf). split; [|done]. by constructor.
  - assert (Hm : m = None -> False) by (intros ->; done).
    pose proof (write_locked_grows m bc b p Hm Hnf) as H.
    unfold XC.bcache_write.
    by destruct (bcache_write_locked m bc b p).
  - pose proof (bcache_sync_locked_returns bc) as H.
    unfold XC.bcache_sync.
    destruct (bcache_sync_locked bc); try done. by destruct H as [-> _].
  - unfold XC.bcache_io_scheduler, bcache_io_scheduler_pass.
    pose proof (scheduler_scan_nums (disk bc) (cache bc)) as [Hn Hf].
    destruct (scheduler_scan (disk bc) (cache bc)). unfold no_free. simpl in *.
    auto.
Qed.

Lemma part000_grows :
  grows_by_need (fun _ => True) (fun _ => True) Part000.exec.
Proof.
  intros o bc _ _. simpl. pose proof (part000_exec_nums o bc) as Hn.
  destruct o as [b out m|b p m| |]; unfold Part000.exec, exec_with in *.
  - destruct (Part000.bcache_read m bc b out) as [bc' buf|bc'|bc'|] eqn:H;
      [|done|done|done].
    by destruct (part000_read_done _ _ _ _ _ _ H) as (_ & _ & Hm & _).
  - destruct (Part000.bcache_write m bc b p) as [bc' []|bc'|bc'|] eqn:H;
      [|done|done|done].
    by destruct (part000_write_done _ _ _ _ _ H) as (_ & _ & Hm & _).
  - unfold Part000.bcache_sync in *.
    by destruct (Part000.sync_blocks (disk bc) (cache bc)).
  - unfold Part000.bcache_io_scheduler in *.
    by destruct (Part000.write_first_dirty (disk bc) (cache bc)).
Qed.

(** C4 (as amended): no revision compares the length of the list with
    the capacity or takes a block off the list.  On a cache object
    fresh from [bcache_create] with any capacity [c], after any sequence
    of calls that all return (in [bcache.c] and [x.c]: with [malloc]
    giving a block whenever asked) the list holds one entry for each
    distinct block number the sequence read or wrote, whatever [c] is;
    [bcache_memory_blocks] still returns [c]. *)
Theorem C4_one_entry_per_block_number (d : struct_disk) (c : Z)
    (ops : list op) (t : tally) :
  run Part000.exec ops (fresh d c) = Some t
  \/ (Forall gets_memory ops
      /\ (run BcacheC.exec ops (fresh d c) = Some t
          \/ run XC.exec ops (fresh d c) = Some t)) ->
  length (cache (final t)) = length (remove_dups (touched ops))
  /\ NoDup (nums (cache (final t)))
  /\ bcache_memory_blocks (final t) = c.
Proof.
  intros Hrun.
  assert (NoDup (nums (cache (final t)))
          /\ memory_blocks (final t) = memory_blocks (fresh d c)
          /\ list_to_set (nums (cache (final t)))
             =@{gset Z} list_to_set (touched ops)
                        ∪ list_to_set (nums (cache (fresh d c))))
    as (Hnd & Hm & Hset).
  { destruct Hrun as [Hrun|[Hok [Hrun|Hrun]]].
    - apply (run_grows _ _ _ part000_grows ops (fresh d c) t);
        [by apply Forall_true|done|done|constructor].
    - apply (run_grows _ _ _ bcachec_grows ops (fresh d c) t);
        [done|constructor|done|constructor].
    - apply (run_grows _ _ _ xc_grows ops (fresh d c) t);
        [done|constructor|done|constructor]. }
  split; [|split; [done|done]].
  transitivity (length (nums (cache (final t))));
    [unfold nums; by rewrite length_fmap|].
  rewrite <- (size_list_to_set (C := gset Z)) by done.
  rewrite <- (size_list_to_set (C := gset Z) (remove_dups (touched ops)))
    by apply NoDup_remove_dups.
  f_equal. rewrite Hset. apply set_eq. intros x.
  rewrite elem_of_union, !elem_of_list_to_set, elem_of_remove_dups.
  simpl. rewrite elem_of_nil. tauto.
Qed.

(** *** Two sequences *)

(** C4 as the spec words it fails: with a capacity of 1, two writes to
    two blocks leave two entries in the list, in each revision. *)
Lemma C4_two_entries_capacity_one :
  (fun t => (length (cache (final t)), bcache_memory_blocks (final t)))
    <$> run Part000.exec two_writes (fresh disk10 1) = Some (2%nat, 1)
  /\ (fun t => (length (cache (final t)), bcache_memory_blocks (final t)))
    <$> run XC.exec two_writes (fresh disk10 1) = Some (2%nat, 1)
  /\ (fun t => (length (cache (final t)), bcache_memory_blocks (final t)))
    <$> run BcacheC.exec two_writes (fresh disk10 1) = Some (2%nat, 1).
Proof. repeat split; vm_compute; reflexivity. Qed.

Lemma C4_one_entry_per_block_number_witness :
  exists t, run Part000.exec six_calls (fresh disk10 1) = Some t
            /\ length (cache (final t)) = 3%nat.
Proof.
  destruct (run Part000.exec six_calls (fresh disk10 1)) as [t|] eqn:Hrun;
    [|vm_compute in Hrun; discriminate].
  exists t. split; [reflexivity|].
  rewrite (proj1 (C4_one_entry_per_block_number disk10 1 six_calls t
                    (or_introl Hrun))).
  reflexivity.
Defined.

Lemma C7_counters_count_calls_witness :
  exists t, run Part000.exec six_calls (fresh disk10 2) = Some t
            /\ reads_done t = 2 /\ writes_done t = 2
            /\ bcache_nreads (final t) = 2 /\ bcache_nwrites (final t) = 2.
Proof.
  destruct (run Part000.exec six_calls (fresh disk10 2)) as [t|] eqn:Hrun;
    [|vm_compute in Hrun; discriminate].
  exists t. split; [reflexivity|].
  assert (Ht : reads_done t = 2 /\ writes_done t = 2).
  { pose proof Hrun as Hc. vm_compute in Hc. injection Hc as <-.
    split; reflexivity. }
  destruct Ht as [Hr Hw]. split; [exact Hr|]. split; [exact Hw|].
  assert (Hr' : reads_done t <= INT_MAX) by (rewrite Hr; unfold INT_MAX; lia).
  assert (Hw' : writes_done t <= INT_MAX) by (rewrite Hw; unfold INT_MAX; lia).
  destruct (C7_counters_count_calls disk10 2 six_calls t Hr' Hw'
              (or_introl Hrun)) as [Hnr Hnw].
  split; congruence.
Defined.

(** ** Overlapping reads of one block *)

Import Interleaving.

Lemma at_addr_head blk l : at_addr (blk :: l) (length l) = blk.
Proof. unfold at_addr. simpl. by rewrite Nat.sub_diag. Qed.

Lemma store_addr_head f blk l : store_addr f (length l) (blk :: l) = f blk :: l.
Proof. unfold store_addr. simpl. by rewrite Nat.sub_diag. Qed.

Lemma address_head blk l : address (blk :: l) 0 = length l.
Proof. unfold address. simpl. lia. Qed.

Lemma device_reads_disk_read who d b buf :
  device_reads (disk_read who d b buf).1 b = S (device_reads d b).
Proof.
  unfold device_reads. simpl. rewrite filter_cons_True; [done|].
  simpl. by apply bool_decide_eq_true.
Qed.

(** Reads that follow one another.  In [bcache.c], where a call holds
    [cache_lock] throughout, and in [x.c] when calls do not overlap:
    after the read that brought the block in, a read of the same block
    finds it ready, makes no transfer and hands out the same bytes. *)
Lemma bcachec_read_again junk m bc b out out' :
  find_block bc b = None ->
  exists bc1 buf,
    BcacheC.bcache_read (Some junk) bc b out
    = Done bc1 (memcpy out buf BLOCK_SIZE)
    /\ BcacheC.bcache_read m bc1 b out'
       = Done (incr_nreads bc1) (memcpy out' buf BLOCK_SIZE)
    /\ device_reads (disk bc1) b = S (device_reads (disk bc) b).
Proof.
  intros Hf. rewrite (bcachec_read_absent _ _ _ _ Hf). eexists _, _.
  split; [reflexivity|]. split.
  - unfold BcacheC.bcache_read, find_block. simpl.
    rewrite decide_True by done. reflexivity.
  - apply device_reads_disk_read.
Qed.

Lemma xc_read_again junk m bc b out out' :
  find_block bc b = None ->
  exists bc1 buf,
    XC.bcache_read (Some junk) bc b out = Done bc1 (memcpy out buf BLOCK_SIZE)
    /\ XC.bcache_read m bc1 b out'
       = Done (incr_nreads bc1) (memcpy out' buf BLOCK_SIZE)
    /\ device_reads (disk bc1) b = S (device_reads (disk bc) b).
Proof.
  intros Hf. rewrite (xc_read_absent _ _ _ _ Hf). eexists _, _.
  split; [reflexivity|]. split.
  - unfold XC.bcache_read, find_block. simpl.
    rewrite decide_True by done. reflexivity.
  - apply device_reads_disk_read.
Qed.

Lemma some_thread_after_step (P : pc -> bool) s i t t' s' :
  threads s !! i = Some t ->
  threads s' = <[i := t']> (threads s) ->
  (P (th_pc t) = true -> P (th_pc t') = true) ->
  some_thread s P -> some_thread s' P.
Proof.
  intros Hi Hts Hp (j & tj & Hj & HP). unfold some_thread. rewrite Hts.
  destruct (decide (j = i)) as [->|Hne].
  - exists i, t'. rewrite list_lookup_insert_eq by by eapply lookup_lt_Some.
    split; [done|]. apply Hp. congruence.
  - exists j, tj. by rewrite list_lookup_insert_ne.
Qed.

Lemma some_thread_here (P : pc -> bool) s i t t' s' :
  threads s !! i = Some t ->
  threads s' = <[i := t']> (threads s) ->
  P (th_pc t') = true ->
  some_thread s' P.
Proof.
  intros Hi Hts Hp. exists i, t'. rewrite Hts.
  rewrite list_lookup_insert_eq by by eapply lookup_lt_Some. done.
Qed.

Lemma owner_after_step (ts : list thread) i (t' : thread) j :
  is_Some (ts !! j) -> is_Some (<[i := t']> ts !! j).
Proof.
  intros H. apply lookup_lt_is_Some. rewrite length_insert.
  by apply lookup_lt_is_Some.
Qed.

Lemma one_transfer_after_step (ts : list thread) i t t' :
  ts !! i = Some t ->
  (in_transfer (th_pc t') = true ->
   in_transfer (th_pc t) = true
   \/ forall j tj, ts !! j = Some tj -> in_transfer (th_pc tj) = false) ->
  (forall i j ti tj, ts !! i = Some ti -> ts !! j = Some tj ->
     in_transfer (th_pc ti) = true -> in_transfer (th_pc tj) = true -> i = j) ->
  forall k j tk tj, <[i := t']> ts !! k = Some tk -> <[i := t']> ts !! j = Some tj ->
     in_transfer (th_pc tk) = true -> in_transfer (th_pc tj) = true -> k = j.
Proof.
  intros Hi Hnew Hold k j tk tj Hk Hj Htk Htj.
  assert (Hlt : (i < length ts)%nat) by by eapply lookup_lt_Some.
  destruct (decide (k = i)) as [->|Hki]; destruct (decide (j = i)) as [->|Hji];
    try done.
  - rewrite list_lookup_insert_eq in Hk by done. injection Hk as <-.
    rewrite list_lookup_insert_ne in Hj by done.
    destruct (Hnew Htk) as [Ht|Hnone].
    + symmetry. by eapply Hold.
    + rewrite (Hnone _ _ Hj) in Htj. done.
  - rewrite list_lookup_insert_eq in Hj by done. injection Hj as <-.
    rewrite list_lookup_insert_ne in Hk by done.
    destruct (Hnew Htj) as [Ht|Hnone].
    + by eapply Hold.
    + rewrite (Hnone _ _ Hk) in Htk. done.
  - rewrite list_lookup_insert_ne in Hk by done.
    rewrite list_lookup_insert_ne in Hj by done. by eapply Hold.
Qed.

Section Readers.
Variable l0 : list block.
Variable b : Z.
Variable r0 : nat.
Variable sec : list byte.
Hypothesis absent : Part000.find_from l0 b = None.
Hypothesis sec_length : length sec = BLOCK_SIZE.

Lemma no_transfer_unless_reading s v :
  Inv l0 b r0 sec s v ->
  (forall blk, v = Some blk -> state blk <> BLOCK_READING) ->
  forall j tj, threads s !! j = Some tj -> in_transfer (th_pc tj) = false.
Proof.
  intros Hinv Hv j [pj aj oj jj] Hj.
  destruct (inv_threads _ _ _ _ _ _ Hinv j _ Hj) as (_ & _ & _ & Hok).
  destruct v as [blk|]; simpl in *.
  - specialize (Hv blk eq_refl). destruct Hok as [_ Hpc].
    unfold pc_ok in Hpc. simpl in Hpc.
    destruct pj; try done; by destruct Hpc.
  - by destruct pj.
Qed.

Lemma no_waiting_unless_created s :
  Inv l0 b r0 sec s None ->
  forall j tj, threads s !! j = Some tj -> th_pc tj <> Waiting.
Proof.
  intros Hinv j [pj aj oj jj] Hj.
  destruct (inv_threads _ _ _ _ _ _ Hinv j _ Hj) as (_ & _ & _ & Hok).
  simpl in *. by destruct pj.
Qed.

(** What a statement of thread [i] has to respect when the other
    threads stay where they are. *)
Lemma step_inv_gen s v i t t' s' v' :
  Inv l0 b r0 sec s v ->
  threads s !! i = Some t ->
  threads s' = <[i := t']> (threads s) ->
  cache (shared s') = from_option (fun blk => blk :: l0) l0 v' ->
  sector (disk (shared s')) b = sec ->
  view_ok b r0 sec (device_reads (disk (shared s')) b) v' ->
  thread_ok l0 r0 sec s' (device_reads (disk (shared s')) b) v' i t' ->
  (forall j tj, j <> i -> threads s !! j = Some tj ->
     (in_transfer (th_pc t) = true -> in_transfer (th_pc tj) = false) ->
     thread_ok l0 r0 sec s (device_reads (disk (shared s)) b) v j tj ->
     thread_ok l0 r0 sec s' (device_reads (disk (shared s')) b) v' j tj) ->
  (forall j, cache_lock s' = Some j -> j = i \/ cache_lock s = Some j) ->
  (forall j, disk_lock s' = Some j -> j = i \/ disk_lock s = Some j) ->
  (forall j, blk_lock s' !! length l0 = Some j ->
             j = i \/ blk_lock s !! length l0 = Some j) ->
  (forall blk', v' = Some blk' -> state blk' = BLOCK_READING ->
     in_transfer (th_pc t') = true
     \/ (in_transfer (th_pc t) = false
         /\ exists blk, v = Some blk /\ state blk = BLOCK_READING)) ->
  (forall blk', v' = Some blk' ->
     state blk' = BLOCK_READING \/ th_pc t' = Broadcast
     \/ (th_pc t' <> Waiting
         /\ ((th_pc t <> Broadcast
              /\ forall blk, v = Some blk -> state blk <> BLOCK_READING)
             \/ forall j tj, threads s !! j = Some tj -> th_pc tj <> Waiting))) ->
  (in_transfer (th_pc t') = true ->
     in_transfer (th_pc t) = true
     \/ forall blk, v = Some blk -> state blk <> BLOCK_READING) ->
  Inv l0 b r0 sec s' v'.
Proof.
  intros Hinv Hi Hts Hcache' Hsec' Hview' Hnew Hothers Hc Hd Hb Hr Hw Hu.
  pose proof Hinv as [Hcache Hsec Hview Hth Oc Od Ob Lr Lw U].
  assert (Hlt : is_Some (threads s' !! i)).
  { rewrite Hts. apply owner_after_step. by exists t. }
  split; try done.
  - rewrite Hts. intros j tj Hj.
    destruct (decide (j = i)) as [->|Hne].
    + rewrite list_lookup_insert_eq in Hj by by eapply lookup_lt_Some.
      by injection Hj as <-.
    + rewrite list_lookup_insert_ne in Hj by done.
      apply Hothers; [done|done| |by apply Hth].
      intros Ht. destruct (in_transfer (th_pc tj)) eqn:Htj; [|done].
      destruct Hne. by eapply U.
  - intros j Hj. destruct (Hc j Hj) as [->|Hj']; [done|].
    rewrite Hts. apply owner_after_step. auto.
  - intros j Hj. destruct (Hd j Hj) as [->|Hj']; [done|].
    rewrite Hts. apply owner_after_step. auto.
  - intros j Hj. destruct (Hb j Hj) as [->|Hj']; [done|].
    rewrite Hts. apply owner_after_step. auto.
  - intros blk' Hv' Hst. destruct (Hr blk' Hv' Hst) as [Ht'|(Ht & blk & Hv & Hst0)].
    + by eapply (some_thread_here _ s i t t' s').
    + eapply (some_thread_after_step _ s i t t' s');
        [exact Hi|exact Hts| |by eapply Lr]. congruence.
  - intros blk' Hv' (j & tj & Hj & Hpc). apply bool_decide_eq_true in Hpc.
    destruct (Hw blk' Hv') as [Hst|[Hbc|(Hnw & Hold)]]; [by left| |].
    + right. eapply (some_thread_here _ s i t t' s'); [exact Hi|exact Hts|].
      unfold is_pc. by apply bool_decide_eq_true.
    + rewrite Hts in Hj.
      assert (Hne : j <> i).
      { intros ->.
        rewrite list_lookup_insert_eq in Hj by by eapply lookup_lt_Some.
        congruence. }
      rewrite list_lookup_insert_ne in Hj by done.
      destruct Hold as [[Hnb Hnr]|Hnone]; [|by destruct (Hnone j tj Hj)].
      destruct v as [blk|]; [|by destruct (no_waiting_unless_created s Hinv j tj Hj)].
      destruct (Lw blk eq_refl) as [Hst|(k & tk & Hk & Hpk)].
      * exists j, tj. split; [done|]. unfold is_pc. by apply bool_decide_eq_true.
      * by destruct (Hnr blk eq_refl).
      * right. exists k, tk. split; [|done]. rewrite Hts.
        rewrite list_lookup_insert_ne; [done|]. intros ->.
        apply bool_decide_eq_true in Hpk. congruence.
  - rewrite Hts. eapply one_transfer_after_step; [done| |done].
    intros Ht'. destruct (Hu Ht') as [Ht|Hnr]; [by left|right].
    by eapply no_transfer_unless_reading.
Qed.

Lemma take_of_memcpy (out d : list byte) :
  take BLOCK_SIZE d = sec -> take BLOCK_SIZE (memcpy out d BLOCK_SIZE) = sec.
Proof.
  intros H. unfold memcpy. rewrite H.
  rewrite take_app_le by lia. apply take_ge. lia.
Qed.

Ltac solve_thread :=
  unfold thread_ok, pc_ok, view_ok in *; simpl in *;
  rewrite ?lookup_insert_eq, ?lookup_delete_eq in *;
  repeat match goal with
  | H : _ /\ _ |- _ => destruct H
  end;
  repeat split; intros;
  repeat match goal with
  | H : true = true -> _ |- _ => specialize (H eq_refl)
  | H : ?x = ?x -> _ |- _ => specialize (H eq_refl)
  | H : _ <-> _ |- _ => destruct H
  end;
  try done; try congruence; try (intuition congruence);
  try match goal with
  | H : state ?blk = _ |- context [match state ?blk with _ => _ end] =>
      rewrite H; solve [done | intuition congruence]
  end.

Ltac solve_others :=
  let j := fresh "j" in let pj := fresh "pj" in
  intros j [pj ? ? ?] ? ? ? ?; destruct pj; solve_thread.

Ltac solve_owner :=
  let j := fresh "j" in let H := fresh "H" in
  simpl; intros j H;
  rewrite ?lookup_insert_eq, ?lookup_delete_eq in H;
  first [by left; congruence | by right | done].

Ltac solve_reading :=
  let blk' := fresh "blk'" in let Hv := fresh "Hv" in let Hst := fresh "Hst" in
  simpl; intros blk' Hv Hst;
  first [ by left
        | right; split; [reflexivity|]; eexists; split; [eassumption|];
          congruence
        | simplify_eq; simpl in *; congruence ].

Ltac solve_waiting :=
  let blk' := fresh "blk'" in let Hv := fresh "Hv" in
  simpl; intros blk' Hv; first [injection Hv as <- | subst]; simpl;
  first [ by left
        | by right; left
        | by right; right; split; [discriminate|]; left; split; [discriminate|];
          intros; simplify_eq; simpl in *; congruence
        | match goal with
          | |- state ?blk' = _ \/ _ =>
              destruct (decide (state blk' = BLOCK_READING))
          end;
          [ by left
          | right; right; split; [discriminate|]; left; split; [discriminate|];
            intros; simplify_eq; simpl in *; congruence ] ].

Ltac solve_transfer :=
  simpl; intros;
  first [ by left | done | right; intros; simplify_eq; simpl in *; congruence ].

Ltac step_with Hinv Hi v' :=
  exists v'; eapply (step_inv_gen _ _ _ _ _ _ v' Hinv Hi);
  [ reflexivity
  | simpl; try assumption; try reflexivity
  | simpl; try assumption
  | try solve_thread
  | try solve_thread
  | try solve_others
  | try solve_owner
  | try solve_owner
  | try solve_owner
  | try solve_reading
  | try solve_waiting
  | try solve_transfer ].

(** The broadcast wakes every thread that sleeps on the condition of
    the entry. *)
Lemma wake_inv s blk :
  Inv l0 b r0 sec s (Some blk) ->
  state blk = BLOCK_READY ->
  Inv l0 b r0 sec (set_threads (wake (length l0) <$> threads s) s) (Some blk)
  /\ forall j tj, (wake (length l0) <$> threads s) !! j = Some tj ->
                  th_pc tj <> Waiting.
Proof.
  intros [Hcache Hsec Hview Hth Oc Od Ob Lr Lw U] Hrd.
  assert (Hlook : forall j tj,
    (wake (length l0) <$> threads s) !! j = Some tj ->
    exists tj0, threads s !! j = Some tj0 /\ tj = wake (length l0) tj0).
  { intros j tj Hj. rewrite list_lookup_fmap in Hj.
    destruct (threads s !! j) as [tj0|]; [|done].
    injection Hj as <-. by exists tj0. }
  assert (Htr : forall t, in_transfer (th_pc (wake (length l0) t))
                          = in_transfer (th_pc t)).
  { intros [p ? ? ?]. unfold wake. simpl.
    destruct (decide _) as [[-> _]|]; done. }
  split; [split; simpl; try done|].
  - intros j tj Hj. destruct (Hlook j tj Hj) as (tj0 & Hj0 & ->).
    specialize (Hth j tj0 Hj0). destruct tj0 as [p a out junk].
    unfold wake, thread_ok, pc_ok in *. simpl in *.
    destruct (decide _) as [[-> ->]|]; [|done]. simpl. tauto.
  - intros j Hj. apply lookup_lt_is_Some. rewrite length_fmap.
    apply lookup_lt_is_Some. auto.
  - intros j Hj. apply lookup_lt_is_Some. rewrite length_fmap.
    apply lookup_lt_is_Some. auto.
  - intros j Hj. apply lookup_lt_is_Some. rewrite length_fmap.
    apply lookup_lt_is_Some. auto.
  - intros blk' [= <-] Hst. congruence.
  - intros blk' [= <-] (j & tj & Hj & Hpc). simpl in Hj.
    destruct (Hlook j tj Hj) as (tj0 & Hj0 & ->).
    destruct (Hth j tj0 Hj0) as (_ & _ & _ & Hblk & _).
    destruct tj0 as [p a out junk]. unfold wake in Hpc. simpl in *.
    destruct (decide _) as [|Hn]; [done|].
    apply bool_decide_eq_true in Hpc. simpl in Hpc. subst p.
    destruct Hn. auto.
  - intros k j tk tj Hk Hj Htk Htj.
    destruct (Hlook k tk Hk) as (tk0 & Hk0 & ->).
    destruct (Hlook j tj Hj) as (tj0 & Hj0 & ->).
    rewrite Htr in Htk, Htj. by eapply U.
  - intros j tj Hj. destruct (Hlook j tj Hj) as (tj0 & Hj0 & ->).
    destruct (Hth j tj0 Hj0) as (_ & _ & _ & Hblk & _).
    destruct tj0 as [p a out junk]. unfold wake. simpl in *.
    destruct (decide _) as [|Hn]; [done|].
    simpl. intros ->. destruct Hn. auto.
Qed.

Lemma step_inv s v i s' :
  Inv l0 b r0 sec s v -> step b i s = Some s' ->
  exists v', Inv l0 b r0 sec s' v'.
Proof.
  intros Hinv Hstep.
  pose proof Hinv as [Hcache Hsec Hview Hth Oc Od Ob Lr Lw U].
  unfold step in Hstep.
  destruct (threads s !! i) as [t|] eqn:Hi; [|done].
  pose proof (Hth i t Hi) as Hti.
  destruct s as [bc cl dl bl ts]. destruct t as [p a out junk].
  simpl in *.
  destruct p; simpl in Hstep.
  - (* Lock_cache *)
    destruct cl as [k|]; [done|]. injection Hstep as <-.
    step_with Hinv Hi v.
  - (* Find *)
    unfold Part000.find_or_create_block in Hstep. rewrite Hcache in Hstep.
    destruct v as [blk|]; simpl in Hstep.
    + assert (Hb : blocknum blk = b) by solve_thread.
      rewrite decide_True in Hstep by done. injection Hstep as <-.
      simpl in Hcache. rewrite Hcache, address_head.
      step_with Hinv Hi (Some blk).
    + rewrite absent in Hstep. injection Hstep as <-.
      rewrite address_head.
      step_with Hinv Hi (Some {| blocknum := b; state := BLOCK_FREE; data := junk |}).
  - (* Unlock_cache *)
    injection Hstep as <-. step_with Hinv Hi v.
  - (* Lock_blk *)
    destruct v as [blk|]; [|solve_thread].
    assert (a = length l0) as -> by solve_thread.
    destruct (bl !! length l0) as [k|] eqn:Hbl; [done|]. injection Hstep as <-.
    step_with Hinv Hi (Some blk).
  - (* Test_state *)
    destruct v as [blk|]; [|solve_thread].
    assert (a = length l0) as -> by solve_thread.
    simpl in Hcache. rewrite Hcache, at_addr_head in Hstep.
    destruct (decide _) as [Hfd|Hfd]; injection Hstep as <-.
    + assert (Hfree : state blk = BLOCK_FREE).
      { destruct Hfd as [?|Hd]; [done|]. destruct Hview as [_ Hview].
        by rewrite Hd in Hview. }
      step_with Hinv Hi (Some blk).
    + assert (Hnf : state blk <> BLOCK_FREE) by tauto.
      step_with Hinv Hi (Some blk).
  - (* Set_reading *)
    destruct v as [blk|]; [|solve_thread].
    assert (a = length l0) as -> by solve_thread.
    simpl in Hcache. rewrite Hcache, store_addr_head in Hstep.
    injection Hstep as <-.
    assert (Hfree : state blk = BLOCK_FREE) by solve_thread.
    assert (Hr : device_reads (disk bc) b = r0).
    { destruct Hview as [_ Hview]. by rewrite Hfree in Hview. }
    step_with Hinv Hi (Some (set_state BLOCK_READING blk)).
  - (* Unlock_blk *)
    destruct v as [blk|]; [|solve_thread].
    assert (a = length l0) as -> by solve_thread.
    injection Hstep as <-.
    step_with Hinv Hi (Some blk).
  - (* Lock_disk *)
    destruct dl as [k|]; [done|]. injection Hstep as <-.
    step_with Hinv Hi v.
  - (* Do_read *)
    destruct v as [blk|]; [|solve_thread].
    assert (a = length l0) as -> by solve_thread.
    simpl in Hcache. rewrite Hcache, store_addr_head, at_addr_head in Hstep.
    injection Hstep as <-.
    assert (Hrd : state blk = BLOCK_READING /\ device_reads (disk bc) b = r0)
      by solve_thread.
    destruct Hrd as [Hrd Hr].
    pose proof (device_reads_disk_read In_read (disk bc) b (data blk)) as Hr'.
    simpl in Hr'. rewrite Hr in Hr'.
    assert (Hbuf : take BLOCK_SIZE (memcpy (data blk) (sector (disk bc) b)
                                      BLOCK_SIZE) = sec).
    { rewrite Hsec. by apply take_memcpy. }
    step_with Hinv Hi
      (Some (set_data (memcpy (data blk) (sector (disk bc) b) BLOCK_SIZE) blk)).
  - (* Unlock_disk *)
    injection Hstep as <-. step_with Hinv Hi v.
  - (* Relock_blk *)
    destruct v as [blk|]; [|solve_thread].
    assert (a = length l0) as -> by solve_thread.
    destruct (bl !! length l0) as [k|] eqn:Hbl; [done|]. injection Hstep as <-.
    step_with Hinv Hi (Some blk).
  - (* Set_ready *)
    destruct v as [blk|]; [|solve_thread].
    assert (a = length l0) as -> by solve_thread.
    simpl in Hcache. rewrite Hcache, store_addr_head in Hstep.
    injection Hstep as <-.
    assert (Hrd : state blk = BLOCK_READING
                  /\ device_reads (disk bc) b = S r0
                  /\ take BLOCK_SIZE (data blk) = sec) by solve_thread.
    destruct Hrd as (Hrd & Hr & Hdata).
    step_with Hinv Hi (Some (set_state BLOCK_READY blk)).
  - (* Broadcast *)
    destruct v as [blk|]; [|solve_thread].
    assert (a = length l0) as -> by solve_thread.
    injection Hstep as <-.
    assert (Hrd : state blk = BLOCK_READY) by solve_thread.
    destruct (wake_inv _ _ Hinv Hrd) as [Hinv1 Hnw]. simpl in Hnw.
    assert (Hi1 : (wake (length l0) <$> ts) !! i
                  = Some {| th_pc := Broadcast; th_blk := length l0;
                            th_data := out; th_junk := junk |}).
    { by rewrite list_lookup_fmap, Hi. }
    exists (Some blk).
    eapply (step_inv_gen _ _ _ _ _ _ (Some blk) Hinv1 Hi1);
      [ reflexivity | done | done | done
      | solve_thread | solve_others
      | solve_owner | solve_owner | solve_owner
      | solve_reading
      | intros blk' _; right; right; split; [discriminate|]; by right
      | solve_transfer ].
  - (* Test_ready *)
    destruct v as [blk|]; [|solve_thread].
    assert (a = length l0) as -> by solve_thread.
    simpl in Hcache. rewrite Hcache, at_addr_head in Hstep.
    assert (Hnf : state blk <> BLOCK_FREE) by solve_thread.
    destruct (decide _) as [Hrd|Hrd]; injection Hstep as <-.
    + step_with Hinv Hi (Some blk).
    + assert (Hst : state blk = BLOCK_READING).
      { destruct Hview as [_ Hview]. by destruct (state blk). }
      step_with Hinv Hi (Some blk).
  - (* Waiting *)
    done.
  - (* Woken *)
    destruct v as [blk|]; [|solve_thread].
    assert (a = length l0) as -> by solve_thread.
    destruct (bl !! length l0) as [k|] eqn:Hbl; [done|]. injection Hstep as <-.
    assert (Hrd : state blk = BLOCK_READY) by solve_thread.
    step_with Hinv Hi (Some blk).
  - (* Copy *)
    destruct v as [blk|]; [|solve_thread].
    assert (a = length l0) as -> by solve_thread.
    simpl in Hcache. rewrite Hcache, at_addr_head in Hstep.
    injection Hstep as <-.
    assert (Hrd : state blk = BLOCK_READY) by solve_thread.
    assert (Hdata : take BLOCK_SIZE (memcpy out (data blk) BLOCK_SIZE) = sec).
    { apply take_of_memcpy. destruct Hview as [_ Hview].
      rewrite Hrd in Hview. by destruct Hview. }
    step_with Hinv Hi (Some blk).
  - (* Unlock_blk_end *)
    destruct v as [blk|]; [|solve_thread].
    assert (a = length l0) as -> by solve_thread.
    injection Hstep as <-.
    step_with Hinv Hi (Some blk).
  - (* Count *)
    injection Hstep as <-. step_with Hinv Hi v.
  - (* Returned *)
    done.
Qed.

Lemma ready_to_run_steps s i t :
  threads s !! i = Some t -> ready_to_run (th_pc t) = true ->
  is_Some (step b i s).
Proof.
  intros Hi Hp. unfold step. rewrite Hi.
  destruct t as [p a out junk]. simpl in *.
  destruct p; try done; try (simpl; by eexists).
  - unfold Part000.find_or_create_block.
    destruct (Part000.find_from (cache (shared s)) b); simpl; by eexists.
  - destruct (decide _); by eexists.
  - destruct (decide _); by eexists.
Qed.

(** No deadlock: when no thread can execute a statement, every thread
    has returned. *)
Lemma stuck_all_returned s v :
  Inv l0 b r0 sec s v -> stuck b s -> all_returned s.
Proof.
  intros Hinv Hstuck.
  pose proof Hinv as [Hcache Hsec Hview Hth Oc Od Ob Lr Lw U].
  assert (Hnone : forall j t, threads s !! j = Some t ->
                              ready_to_run (th_pc t) = false).
  { intros j t Hj. destruct (ready_to_run (th_pc t)) eqn:Hr; [|done].
    destruct (ready_to_run_steps s j t Hj Hr) as [s' Hs'].
    by rewrite Hstuck in Hs'. }
  assert (Hcl : cache_lock s = None).
  { destruct (cache_lock s) as [j|] eqn:Hl; [|done].
    destruct (Oc j eq_refl) as [t Hj].
    destruct (Hth j t Hj) as ([_ Hh] & _). specialize (Hh Hl).
    pose proof (Hnone j t Hj). by destruct (th_pc t). }
  assert (Hdl : disk_lock s = None).
  { destruct (disk_lock s) as [j|] eqn:Hl; [|done].
    destruct (Od j eq_refl) as [t Hj].
    destruct (Hth j t Hj) as (_ & [_ Hh] & _). specialize (Hh Hl).
    pose proof (Hnone j t Hj). by destruct (th_pc t). }
  assert (Hbl : blk_lock s !! length l0 = None).
  { destruct (blk_lock s !! length l0) as [j|] eqn:Hl; [|done].
    destruct (Ob j eq_refl) as [t Hj].
    destruct (Hth j t Hj) as (_ & _ & [_ Hh] & _). specialize (Hh Hl).
    pose proof (Hnone j t Hj). by destruct (th_pc t). }
  assert (Hblocked : forall j t, threads s !! j = Some t ->
                                 th_pc t = Waiting \/ th_pc t = Returned).
  { intros j t Hj. pose proof (Hnone j t Hj) as Hr.
    pose proof (Hstuck j) as Hs. unfold step in Hs. rewrite Hj in Hs.
    destruct (Hth j t Hj) as (_ & _ & _ & Hv).
    destruct t as [p a out junk]. simpl in *.
    destruct p; try done; try (by left); try (by right).
    - by rewrite Hcl in Hs.
    - destruct v as [blk|]; [|done]. destruct Hv as [Ha _].
      rewrite (Ha eq_refl) in Hs. by rewrite Hbl in Hs.
    - by rewrite Hdl in Hs.
    - destruct v as [blk|]; [|done]. destruct Hv as [Ha _].
      rewrite (Ha eq_refl) in Hs. by rewrite Hbl in Hs.
    - destruct v as [blk|]; [|done]. destruct Hv as [Ha _].
      rewrite (Ha eq_refl) in Hs. by rewrite Hbl in Hs. }
  apply Forall_lookup. intros j t Hj.
  destruct (Hblocked j t Hj) as [Hw|]; [exfalso|done].
  destruct (Hth j t Hj) as (_ & _ & _ & Hv).
  destruct v as [blk|]; [|by rewrite Hw in Hv].
  destruct (Lw blk eq_refl) as [Hrd|(k & tk & Hk & Hpk)].
  - exists j, t. split; [done|]. unfold is_pc. by rewrite Hw.
  - destruct (Lr blk eq_refl Hrd) as (k & tk & Hk & Hpk).
    destruct (Hblocked k tk Hk) as [Hk'|Hk']; by rewrite Hk' in Hpk.
  - apply bool_decide_eq_true in Hpk.
    destruct (Hblocked k tk Hk) as [Hk'|Hk']; congruence.
Qed.

Lemma ready_in_cons blk l :
  blocknum blk = b -> ready_in (blk :: l) b = bool_decide (state blk = BLOCK_READY).
Proof. intros H. unfold ready_in, entry. simpl. by rewrite decide_True. Qed.

Lemma ready_in_absent : ready_in l0 b = false.
Proof. unfold ready_in, entry. by rewrite absent. Qed.

Lemma rank_ready_le r p : (rank true p <= rank r p)%nat.
Proof. destruct r, p; simpl; lia. Qed.

Lemma rank_le r r' p : (r = true -> r' = true) -> (rank r' p <= rank r p)%nat.
Proof.
  intros Hr. destruct r; [by rewrite Hr|].
  destruct r'; [apply rank_ready_le|lia].
Qed.

Lemma sum_rank_le (l : list thread) r r' :
  (r = true -> r' = true) ->
  (sum_list ((fun t => rank r' (th_pc t)) <$> l)
   <= sum_list ((fun t => rank r (th_pc t)) <$> l))%nat.
Proof.
  intros Hr. induction l as [|x l IH]; csimpl; [lia|].
  pose proof (rank_le r r' (th_pc x) Hr). lia.
Qed.

Lemma sum_rank_insert (ts : list thread) i t t' r r' :
  ts !! i = Some t ->
  (rank r' (th_pc t') < rank r (th_pc t))%nat ->
  (r = true -> r' = true) ->
  (sum_list ((fun t => rank r' (th_pc t)) <$> <[i := t']> ts)
   < sum_list ((fun t => rank r (th_pc t)) <$> ts))%nat.
Proof.
  intros Hi Hlt Hr. revert i Hi.
  induction ts as [|x ts IH]; intros [|i] Hi; csimpl in *; try done.
  - injection Hi as ->. pose proof (sum_rank_le ts r r' Hr). lia.
  - specialize (IH i Hi). pose proof (rank_le r r' (th_pc x) Hr). lia.
Qed.

Lemma sum_rank_wake (ts : list thread) a r :
  (sum_list ((fun t => rank r (th_pc t)) <$> (wake a <$> ts))
   <= sum_list ((fun t => rank r (th_pc t)) <$> ts))%nat.
Proof.
  induction ts as [|x ts IH]; csimpl; [lia|].
  assert (rank r (th_pc (wake a x)) <= rank r (th_pc x))%nat; [|lia].
  unfold wake. destruct (decide _) as [[-> _]|]; simpl; lia.
Qed.

Ltac measure_step Hi :=
  unfold measure; simpl;
  repeat match goal with
  | H : cache _ = _ :: _ |- _ => rewrite H
  end;
  eapply sum_rank_insert; [exact Hi| |]; simpl;
  rewrite ?ready_in_cons by done;
  repeat match goal with
  | H : state ?blk = _ |- context [state ?blk] => rewrite H
  | H : state ?blk <> BLOCK_READY |- context [bool_decide (state ?blk = BLOCK_READY)] =>
      rewrite (bool_decide_eq_false_2 _ H)
  end;
  simpl; try lia; try done; try (by destruct (bool_decide _); simpl; lia).

(** Every statement executed brings the threads closer to their
    return. *)
Lemma step_measure s v i s' :
  Inv l0 b r0 sec s v -> step b i s = Some s' ->
  (measure b s' < measure b s)%nat.
Proof.
  intros Hinv Hstep.
  pose proof Hinv as [Hcache Hsec Hview Hth Oc Od Ob Lr Lw U].
  unfold step in Hstep.
  destruct (threads s !! i) as [t|] eqn:Hi; [|done].
  destruct (Hth i t Hi) as (_ & _ & _ & Hv).
  destruct s as [bc cl dl bl ts]. destruct t as [p a out junk].
  simpl in *.
  assert (Hblk : has_blk p = true ->
     exists blk, v = Some blk /\ a = length l0 /\ cache bc = blk :: l0
                 /\ blocknum blk = b
                 /\ pc_ok r0 sec (device_reads (disk bc) b) blk
                      {| th_pc := p; th_blk := a; th_data := out;
                         th_junk := junk |}).
  { intros Hp. destruct v as [blk|]; [|congruence].
    exists blk. destruct Hv as [Ha Hpc]. destruct Hview as [Hb _]. auto. }
  destruct p; simpl in Hstep;
    try (destruct (Hblk eq_refl) as (blk & -> & -> & Hc & Hb & Hpc);
         unfold pc_ok in Hpc; simpl in Hpc;
         rewrite ?Hc, ?at_addr_head, ?store_addr_head in Hstep).
  - destruct cl; [done|]. injection Hstep as <-. measure_step Hi.
  - unfold Part000.find_or_create_block in Hstep. rewrite Hcache in Hstep.
    destruct v as [blk|]; simpl in Hstep.
    + destruct Hview as [Hb _]. rewrite decide_True in Hstep by done.
      injection Hstep as <-. measure_step Hi.
    + rewrite absent in Hstep. injection Hstep as <-.
      unfold measure. simpl. rewrite Hcache. simpl.
      rewrite ready_in_absent, ready_in_cons by done.
      eapply sum_rank_insert; [exact Hi|simpl; lia|done].
  - injection Hstep as <-. measure_step Hi.
  - destruct (bl !! length l0); [done|]. injection Hstep as <-. measure_step Hi.
  - destruct (decide _); injection Hstep as <-; measure_step Hi.
  - injection Hstep as <-. measure_step Hi.
  - injection Hstep as <-. measure_step Hi.
  - destruct dl; [done|]. injection Hstep as <-. measure_step Hi.
  - injection Hstep as <-. measure_step Hi.
  - injection Hstep as <-. measure_step Hi.
  - destruct (bl !! length l0); [done|]. injection Hstep as <-. measure_step Hi.
  - injection Hstep as <-. measure_step Hi.
  - injection Hstep as <-. unfold measure. simpl.
    eapply Nat.lt_le_trans; [|apply (sum_rank_wake ts (length l0))].
    eapply sum_rank_insert; [by rewrite list_lookup_fmap, Hi| |done].
    simpl. destruct (ready_in _ _); simpl; lia.
  - destruct (decide _) as [Hrd|Hrd]; injection Hstep as <-; measure_step Hi.
  - done.
  - destruct (bl !! length l0); [done|]. injection Hstep as <-.
    measure_step Hi.
  - injection Hstep as <-. measure_step Hi.
  - injection Hstep as <-. measure_step Hi.
  - injection Hstep as <-. measure_step Hi.
  - done.
Qed.

Lemma run_inv sched : forall s v,
  Inv l0 b r0 sec s v -> exists v', Inv l0 b r0 sec (run_schedule b sched s) v'.
Proof.
  induction sched as [|i sched IH]; intros s v Hinv; simpl; [by exists v|].
  destruct (step b i s) as [s'|] eqn:Hstep; [|by eapply IH].
  destruct (step_inv s v i s' Hinv Hstep)
    as [v' Hinv'].
  by eapply IH.
Qed.

Lemma run_measure sched : forall s v,
  Inv l0 b r0 sec s v ->
  (steps_taken b sched s + measure b (run_schedule b sched s) <= measure b s)%nat.
Proof.
  induction sched as [|i sched IH]; intros s v Hinv; simpl; [lia|].
  destruct (step b i s) as [s'|] eqn:Hstep; [|by eapply IH].
  destruct (step_inv s v i s' Hinv Hstep)
    as [v' Hinv'].
  pose proof (step_measure s v i s' Hinv Hstep).
  specialize (IH s' v' Hinv'). lia.
Qed.

(** Whether some thread can execute a statement can be told by trying
    each. *)
Lemma stuck_or_step s :
  stuck b s \/ exists i s', step b i s = Some s'.
Proof.
  destruct (decide (Exists (fun i => is_Some (step b i s))
                      (seq 0 (length (threads s))))) as [Hex|Hno].
  - right. apply Exists_exists in Hex as (i & _ & [s' Hs']). by exists i, s'.
  - left. intros i. destruct (step b i s) as [s'|] eqn:Hs; [|done].
    destruct Hno. apply Exists_exists. exists i. split; [|by exists s'].
    apply elem_of_seq. split; [lia|]. simpl.
    unfold step in Hs. destruct (threads s !! i) eqn:Hi; [|done].
    by eapply lookup_lt_Some.
Qed.

(** From every state the calls have reached, a schedule leads all of
    them to their return. *)
Lemma can_all_return s v :
  Inv l0 b r0 sec s v ->
  exists sched, all_returned (run_schedule b sched s).
Proof.
  remember (measure b s) as n eqn:Hn. revert s v Hn.
  induction n as [n IH] using lt_wf_ind. intros s v -> Hinv.
  destruct (stuck_or_step s) as [Hstuck|(i & s' & Hstep)].
  - exists []. by eapply stuck_all_returned.
  - destruct (step_inv s v i s' Hinv Hstep)
      as [v' Hinv'].
    destruct (IH (measure b s') (step_measure s v i s' Hinv Hstep) s' v'
                eq_refl Hinv') as [sched Hall].
    exists (i :: sched). simpl. by rewrite Hstep.
Qed.

(** What the invariant says about the device and about the callers
    that have returned. *)
Lemma inv_reads s v :
  Inv l0 b r0 sec s v ->
  (r0 <= device_reads (disk (shared s)) b <= S r0)%nat
  /\ forall i t, threads s !! i = Some t -> th_pc t = Returned ->
       take BLOCK_SIZE (th_data t) = sec
       /\ device_reads (disk (shared s)) b = S r0.
Proof.
  intros [Hcache Hsec Hview Hth Oc Od Ob Lr Lw U]. split.
  - destruct v as [blk|]; simpl in Hview; [|lia].
    destruct Hview as [_ Hview].
    destruct (state blk) eqn:Hst; try done; try lia.
    destruct (Lr blk eq_refl Hst) as (j & tj & Hj & Hpj).
    destruct (Hth j tj Hj) as (_ & _ & _ & _ & Hpc).
    unfold pc_ok in Hpc. destruct (th_pc tj); try done; lia.
  - intros i t Hi Hret. destruct (Hth i t Hi) as (_ & _ & _ & Hv).
    destruct v as [blk|]; [|by rewrite Hret in Hv].
    destruct Hv as [_ Hpc]. unfold pc_ok in Hpc. rewrite Hret in Hpc.
    destruct Hpc as [Hrd Hdata]. split; [done|].
    simpl in Hview. destruct Hview as [_ Hview]. rewrite Hrd in Hview. tauto.
Qed.

End Readers.

Lemma start_inv bc b callers :
  Inv (cache bc) b (device_reads (disk bc) b) (sector (disk bc) b)
    (start bc callers) None.
Proof.
  assert (Hlook : forall i t, threads (start bc callers) !! i = Some t ->
                              th_pc t = Lock_cache).
  { intros i t Hi. unfold start in Hi. simpl in Hi.
    rewrite list_lookup_fmap in Hi.
    destruct (callers !! i); [|done]. by injection Hi as <-. }
  split; simpl; try done.
  - intros i t Hi. apply Hlook in Hi. unfold thread_ok. rewrite Hi. simpl.
    rewrite lookup_empty. repeat split; done.
  - intros i j ti tj Hi Hj Hti. apply Hlook in Hi. by rewrite Hi in Hti.
Qed.

Lemma start_measure bc b callers :
  measure b (start bc callers) = (20 * length callers)%nat.
Proof.
  unfold measure, start. simpl.
  induction callers as [|c callers IH]; csimpl; [done|]. rewrite IH. lia.
Qed.

Lemma run_schedule_app b sched sched' s :
  run_schedule b (sched ++ sched') s
  = run_schedule b sched' (run_schedule b sched s).
Proof.
  revert s. induction sched as [|i sched IH]; intros s; simpl; [done|].
  destruct (step b i s); apply IH.
Qed.

(** C8: [n] threads call [bcache_read] of [part_000] together for a
    block number that is not in the list, their statements interleaved
    by any schedule.  Whatever the schedule: the device receives at
    most one read of the block; a caller that has returned has the
    4096 bytes the device holds for the block in its buffer, and
    exactly one read has then been made; the threads never block one
    another for good (when none can move, all have returned); they
    execute at most 20 statements each; and the schedule can be
    continued so that all [n] callers return. *)
Theorem C8_one_device_read_for_all_readers (bc : bcache) (b : Z)
    (callers : list (list byte * list byte)) (sched : list nat) :
  Part000.find_from (cache bc) b = None ->
  length (sector (disk bc) b) = BLOCK_SIZE ->
  let s := run_schedule b sched (start bc callers) in
  (device_reads (disk bc) b <= device_reads (disk (shared s)) b
   <= S (device_reads (disk bc) b))%nat
  /\ (forall i t, threads s !! i = Some t -> th_pc t = Returned ->
        take BLOCK_SIZE (th_data t) = sector (disk bc) b
        /\ device_reads (disk (shared s)) b = S (device_reads (disk bc) b))
  /\ (stuck b s -> all_returned s)
  /\ (steps_taken b sched (start bc callers) <= 20 * length callers)%nat
  /\ exists sched',
       all_returned (run_schedule b (sched ++ sched') (start bc callers)).
Proof.
  intros Habsent Hlen s.
  destruct (run_inv (cache bc) b _ _ Habsent Hlen sched _ _
              (start_inv bc b callers)) as [v Hinv].
  fold s in Hinv.
  destruct (inv_reads _ _ _ _ Hlen s v Hinv) as [Hreads Hret].
  split; [done|]. split; [done|].
  split; [by eapply stuck_all_returned|]. split.
  - pose proof (run_measure (cache bc) b _ _ Habsent Hlen sched _ _
                  (start_inv bc b callers)) as Hm.
    rewrite start_measure in Hm. lia.
  - destruct (can_all_return _ _ _ _ Habsent Hlen s v Hinv) as [sched' Hall].
    exists sched'. by rewrite run_schedule_app.
Qed.

Lemma C8_one_device_read_for_all_readers_witness :
  Part000.find_from (cache (fresh disk10 2)) 5 = None
  /\ length (sector (disk (fresh disk10 2)) 5) = BLOCK_SIZE
  /\ (steps_taken 5 taking_turns (start (fresh disk10 2) three_callers)
      <= 20 * length three_callers)%nat
  /\ device_reads
       (disk (shared (run_schedule 5 taking_turns
                        (start (fresh disk10 2) three_callers)))) 5 = 1%nat.
Proof.
  split; [reflexivity|]. split; [exact length_zero_block|].
  pose proof (C8_one_device_read_for_all_readers (fresh disk10 2) 5
                three_callers taking_turns eq_refl length_zero_block)
    as (_ & Hret & _ & Hsteps & _).
  split; [exact Hsteps|].
  destruct (threads (run_schedule 5 taking_turns
                       (start (fresh disk10 2) three_callers)) !! 0%nat)
    as [t|] eqn:Ht; [|vm_compute in Ht; discriminate].
  refine (proj2 (Hret 0%nat t Ht _)).
  vm_compute in Ht. injection Ht as <-. reflexivity.
Defined.

(** ** The searches *)

Lemma deref_lookup l i blk : l !! i = Some blk -> deref l i = blk.
Proof. intros H. unfold deref. by rewrite H. Qed.

Lemma alter_as_insert (f : block -> block) (l : list block) i blk :
  l !! i = Some blk -> alter f i l = <[i := f blk]> l.
Proof.
  revert i. induction l as [|x l IH]; intros [|i] Hi; simpl in *; try done.
  - by injection Hi as ->.
  - change (list_alter f i l) with (alter f i l). by rewrite (IH i Hi).
Qed.

Lemma find_of_Some r l b i :
  find_of r l b = Some i -> exists blk, l !! i = Some blk /\ blocknum blk = b.
Proof.
  destruct r; simpl; intros H.
  - destruct (find_block_from_Some _ _ _ H) as (blk & ? & ? & ?). by exists blk.
  - destruct (find_block_from_Some _ _ _ H) as (blk & ? & ? & ?). by exists blk.
  - by apply find_from_Some.
Qed.

Lemma find_block_from_insert l b i blk' :
  blocknum blk' = b -> state blk' <> BLOCK_FREE ->
  find_block_from l b = Some i -> find_block_from (<[i := blk']> l) b = Some i.
Proof.
  intros Hn Hs. revert i.
  induction l as [|current next IH]; intros i; simpl; [done|].
  destruct (decide _) as [Hc|Hc].
  - intros [= <-]. simpl. by rewrite decide_True.
  - destruct (find_block_from next b) as [j|] eqn:Hj; [|done].
    intros [= <-]. simpl. rewrite decide_False by done. by rewrite (IH j).
Qed.

Lemma find_from_insert l b i blk' :
  blocknum blk' = b ->
  Part000.find_from l b = Some i ->
  Part000.find_from (<[i := blk']> l) b = Some i.
Proof.
  intros Hn. revert i.
  induction l as [|current next IH]; intros i; simpl; [done|].
  destruct (decide _) as [Hc|Hc].
  - intros [= <-]. simpl. by rewrite decide_True.
  - destruct (Part000.find_from next b) as [j|] eqn:Hj; [|done].
    intros [= <-]. simpl. rewrite decide_False by done. by rewrite (IH j).
Qed.

Lemma find_of_insert r l b i blk' :
  blocknum blk' = b -> state blk' <> BLOCK_FREE ->
  find_of r l b = Some i -> find_of r (<[i := blk']> l) b = Some i.
Proof.
  intros Hn Hs. destruct r; simpl.
  - by apply find_block_from_insert.
  - by apply find_block_from_insert.
  - by apply find_from_insert.
Qed.

Lemma entry_found r l b i blk :
  find_of r l b = Some i -> l !! i = Some blk -> entry (find_of r) l b = Some blk.
Proof. intros Hf Hi. unfold entry. rewrite Hf. done. Qed.

Lemma entry_insert r l b i blk' :
  blocknum blk' = b -> state blk' <> BLOCK_FREE ->
  find_of r l b = Some i -> entry (find_of r) (<[i := blk']> l) b = Some blk'.
Proof.
  intros Hn Hs Hf. destruct (find_of_Some _ _ _ _ Hf) as (blk & Hi & _).
  apply (entry_found _ _ _ i); [by apply find_of_insert|].
  apply list_lookup_insert_eq. by eapply lookup_lt_Some.
Qed.

Lemma find_of_cons_same r blk l :
  state blk <> BLOCK_FREE -> find_of r (blk :: l) (blocknum blk) = Some 0%nat.
Proof. intros Hs. destruct r; simpl; by rewrite decide_True. Qed.

Lemma find_block_from_None l b :
  find_block_from l b = None ->
  forall blk, blk ∈ l -> blocknum blk = b -> state blk = BLOCK_FREE.
Proof.
  induction l as [|current next IH]; simpl; intros Hf blk Hin Hb.
  - by apply elem_of_nil in Hin.
  - destruct (decide _) as [Hc|Hc]; [done|].
    destruct (find_block_from next b) as [i|] eqn:Hn; [done|].
    apply elem_of_cons in Hin as [->|Hin]; [|by apply IH].
    destruct (decide (state current = BLOCK_FREE)); [done|]. by destruct Hc.
Qed.

Lemma find_block_from_first l b i :
  find_block_from l b = Some i ->
  forall j blk, (j < i)%nat -> l !! j = Some blk ->
    blocknum blk <> b \/ state blk = BLOCK_FREE.
Proof.
  revert i. induction l as [|current next IH]; intros i; simpl; [done|].
  destruct (decide _) as [Hc|Hc].
  - intros [= <-] j blk Hj. lia.
  - destruct (find_block_from next b) as [k|] eqn:Hk; [|done].
    intros [= <-] [|j] blk Hj Hlook; simpl in Hlook.
    + injection Hlook as <-.
      destruct (decide (blocknum current = b)); [|by left].
      destruct (decide (state current = BLOCK_FREE)); [by right|].
      by destruct Hc.
    + apply (IH k eq_refl j); [lia|done].
Qed.

Lemma find_from_first l b i :
  Part000.find_from l b = Some i ->
  forall j blk, (j < i)%nat -> l !! j = Some blk -> blocknum blk <> b.
Proof.
  revert i. induction l as [|blk next IH]; intros i; simpl; [done|].
  destruct (decide _) as [Hc|Hc].
  - intros [= <-] j blk' Hj. lia.
  - destruct (Part000.find_from next b) as [k|] eqn:Hk; [|done].
    intros [= <-] [|j] blk' Hj Hlook; simpl in Hlook.
    + by injection Hlook as <-.
    + apply (IH k eq_refl j); [lia|done].
Qed.

(** X1: [find_block] of [bcache.c] and [x.c] returns the first block of
    the list that has the number asked for and is not [BLOCK_FREE]; it
    returns null exactly when the list has no such block, so that a free
    block is never found, whatever its number. *)
Theorem find_block_first_match (bc : bcache) (b : Z) :
  match find_block bc b with
  | Some i =>
      exists blk, cache bc !! i = Some blk
        /\ blocknum blk = b /\ state blk <> BLOCK_FREE
        /\ forall j blk', (j < i)%nat -> cache bc !! j = Some blk' ->
             blocknum blk' <> b \/ state blk' = BLOCK_FREE
  | None =>
      forall blk, blk ∈ cache bc -> blocknum blk = b -> state blk = BLOCK_FREE
  end.
Proof.
  unfold find_block.
  destruct (find_block_from (cache bc) b) as [i|] eqn:Hf.
  - destruct (find_block_from_Some _ _ _ Hf) as (blk & Hi & Hb & Hs).
    exists blk. repeat (split; [done|]). by apply find_block_from_first.
  - by apply find_block_from_None.
Qed.

(** X2: [find_or_create_block] of [part_000], given memory, always
    returns a block with the number asked for, the first such block of
    the list.  When the number is in the list the cache object is left
    as it was; when it is not, one [BLOCK_FREE] block is put at the head
    and returned.  A list without two blocks of one number stays so, and
    a second call for the number returns the same block and needs no
    memory.  Without memory, for a number that is not in the list, the
    function returns null and leaves the cache object as it was. *)
Theorem find_or_create_block_finds_or_adds (junk : list byte)
    (m' : option (list byte)) (bc : bcache) (b : Z) :
  (exists bc' i blk,
    Part000.find_or_create_block (Some junk) bc b = (bc', Some i)
    /\ cache bc' !! i = Some blk /\ blocknum blk = b
    /\ (forall j blk', (j < i)%nat -> cache bc' !! j = Some blk' ->
          blocknum blk' <> b)
    /\ (if decide (b ∈ nums (cache bc)) then bc' = bc
        else bc' = set_cache ({| blocknum := b; state := BLOCK_FREE;
                                 data := junk |} :: cache bc) bc
             /\ i = 0%nat)
    /\ (NoDup (nums (cache bc)) -> NoDup (nums (cache bc')))
    /\ Part000.find_or_create_block m' bc' b = (bc', Some i))
  /\ (b ∉ nums (cache bc) ->
      Part000.find_or_create_block None bc b = (bc, None)).
Proof.
  unfold Part000.find_or_create_block. split.
  - destruct (Part000.find_from (cache bc) b) as [i|] eqn:Hf.
    + destruct (find_from_Some _ _ _ Hf) as (blk & Hi & Hb).
      exists bc, i, blk. split; [done|]. split; [done|]. split; [done|].
      split; [by apply find_from_first|].
      split; [by rewrite decide_True by by eapply find_from_elem|].
      split; [done|]. by rewrite Hf.
    + eexists _, 0%nat, _. split; [done|]. split; [done|]. split; [done|].
      split; [intros j blk' Hj; lia|].
      split; [by rewrite decide_False by by apply find_from_not_elem|].
      split.
      * intros Hnd. simpl. apply NoDup_cons. split; [|done].
        by apply find_from_not_elem.
      * simpl. by rewrite decide_True.
  - intros Hnot. destruct (Part000.find_from (cache bc) b) as [i|] eqn:Hf;
      [|done].
    by apply find_from_elem in Hf.
Qed.

(** ** [add_block_to_cache] *)

(** X3: [add_block_to_cache] of [bcache.c] and [x.c] puts a ready
    block for the number at the head of the list without looking for one
    that is there already, so the search finds the new block from then
    on; a read of the number then hands the caller the 4096 bytes given
    to [add_block_to_cache], counts itself and does not call the device.
    When [malloc] returns null the cache object is left as it was. *)
Theorem add_block_to_cache_then_read (junk : list byte)
    (m : option (list byte)) (bc : bcache) (b : Z) (buf out : list byte) :
  length buf = BLOCK_SIZE ->
  let bc1 := add_block_to_cache (Some junk) bc b buf in
  nums (cache bc1) = b :: nums (cache bc)
  /\ find_block bc1 b = Some 0%nat
  /\ (exists got,
        BcacheC.bcache_read m bc1 b out = Done (incr_nreads bc1) got
        /\ XC.bcache_read m bc1 b out = Done (incr_nreads bc1) got
        /\ take BLOCK_SIZE got = buf)
  /\ add_block_to_cache None bc b buf = bc.
Proof.
  intros Hlen bc1. split; [done|].
  assert (Hf : find_block bc1 b = Some 0%nat).
  { unfold find_block. simpl. by rewrite decide_True. }
  split; [done|]. split; [|done].
  eexists. unfold BcacheC.bcache_read, XC.bcache_read, wait_ready_and_copy.
  rewrite Hf. simpl. split; [reflexivity|]. split; [reflexivity|].
  unfold memcpy at 1.
  rewrite take_app_le
    by (rewrite length_take; unfold memcpy;
        rewrite length_app, length_take; lia).
  rewrite take_take, Nat.min_id. by apply take_memcpy.
Qed.

(** *** A read of a block that is in the list *)

Lemma bcachec_read_found m bc b out i blk :
  find_block bc b = Some i -> cache bc !! i = Some blk ->
  BcacheC.bcache_read m bc b out
  = if decide (state blk = BLOCK_READY)
    then Done (incr_nreads bc) (memcpy out (data blk) BLOCK_SIZE)
    else Failed bc.
Proof.
  intros Hf Hi. unfold BcacheC.bcache_read. rewrite Hf.
  by rewrite (deref_lookup _ _ _ Hi).
Qed.

Lemma xc_read_found m bc b out i blk :
  find_block bc b = Some i -> cache bc !! i = Some blk ->
  XC.bcache_read m bc b out
  = if decide (state blk = BLOCK_READING)
    then Done (incr_nreads (after_fetch bc i blk))
              (memcpy out (data (fetched (disk bc) blk)) BLOCK_SIZE)
    else if decide (state blk = BLOCK_READY)
    then Done (incr_nreads bc) (memcpy out (data blk) BLOCK_SIZE)
    else Blocked bc.
Proof.
  intros Hf Hi. unfold XC.bcache_read. rewrite Hf.
  destruct (find_block_from_Some _ _ _ Hf) as (blk0 & Hi0 & Hb & _).
  assert (blk0 = blk) as -> by congruence.
  rewrite (deref_lookup _ _ _ Hi).
  unfold wait_ready_and_copy, read_from_disk.
  destruct (decide (state blk = BLOCK_READING)) as [Hrd|Hrd].
  - rewrite (deref_lookup _ _ _ Hi). simpl.
    rewrite (deref_alter_eq _ _ _ _ Hi). simpl.
    unfold after_fetch, fetched. simpl.
    rewrite (alter_as_insert _ _ _ _ Hi). subst b. reflexivity.
  - by rewrite (deref_lookup _ _ _ Hi).
Qed.

Lemma part000_read_found m bc b out i blk :
  Part000.find_from (cache bc) b = Some i -> cache bc !! i = Some blk ->
  Part000.bcache_read m bc b out
  = if decide (state blk = BLOCK_FREE \/ state blk = BLOCK_DIRTY)
    then Done (incr_nreads (after_fetch bc i blk))
              (memcpy out (data (fetched (disk bc) blk)) BLOCK_SIZE)
    else if decide (state blk = BLOCK_READY)
    then Done (incr_nreads bc) (memcpy out (data blk) BLOCK_SIZE)
    else Blocked bc.
Proof.
  intros Hf Hi. unfold Part000.bcache_read, Part000.find_or_create_block.
  rewrite Hf.
  destruct (find_from_Some _ _ _ Hf) as (blk0 & Hi0 & Hb).
  assert (blk0 = blk) as -> by congruence.
  rewrite (deref_lookup _ _ _ Hi).
  unfold wait_ready_and_copy, read_from_disk.
  destruct (decide (state blk = BLOCK_FREE \/ state blk = BLOCK_DIRTY))
    as [Hfd|Hfd].
  - simpl. rewrite (deref_alter_eq _ _ _ _ Hi). simpl.
    rewrite list_alter_alter_eq.
    rewrite (deref_alter_eq _ _ _ _ Hi). simpl.
    unfold after_fetch, fetched. simpl.
    rewrite (alter_as_insert _ _ _ _ Hi). subst b. reflexivity.
  - by rewrite (deref_lookup _ _ _ Hi).
Qed.

Lemma read_of_absent r junk bc b out :
  find_of r (cache bc) b = None ->
  read_of r (Some junk) bc b out
  = Done (incr_nreads
            (set_disk (disk_read In_read (disk bc) b junk).1
               (set_cache (brought_in r (disk bc) b junk :: cache bc) bc)))
         (memcpy out (data (brought_in r (disk bc) b junk)) BLOCK_SIZE).
Proof.
  intros Hf. destruct r; simpl in *.
  - by rewrite (bcachec_read_absent _ _ _ _ Hf).
  - by rewrite (xc_read_absent _ _ _ _ Hf).
  - by rewrite (part000_read_absent _ _ _ _ Hf).
Qed.

Lemma read_of_no_memory r bc b out :
  find_of r (cache bc) b = None ->
  read_of r None bc b out = if decide (r = Part_000) then Crashed else Failed bc.
Proof.
  intros Hf. destruct r; simpl in *.
  - unfold BcacheC.bcache_read, find_block. by rewrite Hf.
  - unfold XC.bcache_read, find_block. by rewrite Hf.
  - unfold Part000.bcache_read, Part000.find_or_create_block. by rewrite Hf.
Qed.

(** A read that returned after copying has come by one of three ways:
    the block was ready in the list; it was in the list and the caller
    fetched it; or it was brought in. *)
Lemma read_of_done r m bc b out bc1 got :
  read_of r m bc b out = Done bc1 got ->
  (exists i blk, find_of r (cache bc) b = Some i /\ cache bc !! i = Some blk
     /\ state blk = BLOCK_READY
     /\ bc1 = incr_nreads bc /\ got = memcpy out (data blk) BLOCK_SIZE)
  \/ (exists i blk, find_of r (cache bc) b = Some i /\ cache bc !! i = Some blk
     /\ match r with
        | Bcache_c => False
        | X_c => state blk = BLOCK_READING
        | Part_000 => state blk = BLOCK_FREE \/ state blk = BLOCK_DIRTY
        end
     /\ bc1 = incr_nreads (after_fetch bc i blk)
     /\ got = memcpy out (data (fetched (disk bc) blk)) BLOCK_SIZE)
  \/ (exists junk, find_of r (cache bc) b = None /\ m = Some junk
     /\ bc1 = incr_nreads
                (set_disk (disk_read In_read (disk bc) b junk).1
                   (set_cache (brought_in r (disk bc) b junk :: cache bc) bc))
     /\ got = memcpy out (data (brought_in r (disk bc) b junk)) BLOCK_SIZE).
Proof.
  destruct (find_of r (cache bc) b) as [i|] eqn:Hf.
  - destruct (find_of_Some _ _ _ _ Hf) as (blk & Hi & Hb).
    destruct r; simpl in Hf |- *.
    + rewrite (bcachec_read_found _ _ _ _ _ _ Hf Hi).
      destruct (decide _) as [Hr|Hr]; [|done].
      intros [= <- <-]. left. by exists i, blk.
    + rewrite (xc_read_found _ _ _ _ _ _ Hf Hi).
      destruct (decide (state blk = BLOCK_READING)) as [Hrd|Hrd].
      * intros [= <- <-]. right. left. by exists i, blk.
      * destruct (decide _) as [Hr|Hr]; [|done].
        intros [= <- <-]. left. by exists i, blk.
    + rewrite (part000_read_found _ _ _ _ _ _ Hf Hi).
      destruct (decide (_ \/ _)) as [Hfd|Hfd].
      * intros [= <- <-]. right. left. by exists i, blk.
      * destruct (decide _) as [Hr|Hr]; [|done].
        intros [= <- <-]. left. by exists i, blk.
  - destruct m as [junk|].
    + rewrite (read_of_absent _ _ _ _ _ Hf). intros [= <- <-].
      right. right. by exists junk.
    + rewrite (read_of_no_memory _ _ _ _ Hf). by destruct (decide _).
Qed.

Lemma read_of_ready r m bc b out i blk :
  find_of r (cache bc) b = Some i -> cache bc !! i = Some blk ->
  state blk = BLOCK_READY ->
  read_of r m bc b out = Done (incr_nreads bc) (memcpy out (data blk) BLOCK_SIZE).
Proof.
  intros Hf Hi Hr. destruct r; simpl in *.
  - rewrite (bcachec_read_found _ _ _ _ _ _ Hf Hi). by rewrite decide_True.
  - rewrite (xc_read_found _ _ _ _ _ _ Hf Hi).
    rewrite decide_False by congruence. by rewrite decide_True.
  - rewrite (part000_read_found _ _ _ _ _ _ Hf Hi).
    rewrite decide_False by (intros [?|?]; congruence). by rewrite decide_True.
Qed.

(** X4: a read that returns has either copied a block to its caller
    or changed nothing.  When it has copied, the block is ready in the
    list, and a second read of the same number, whatever [malloc] would
    do, is served from the list: it copies the same block to its caller,
    counts itself, and leaves the list and the device as they are.  It
    returns without copying only in [bcache.c] and [x.c], when the
    number is not in the list and [malloc] gives null, and in [bcache.c]
    also when the block is in the list and not ready; the cache object
    is then as it was before the call, and the same call made again
    returns the same way. *)
Theorem read_again_from_memory (r : revision) (m m' : option (list byte))
    (bc : bcache) (b : Z) (out out' : list byte) :
  (forall bc1 got, read_of r m bc b out = Done bc1 got ->
     exists blk,
       entry (find_of r) (cache bc1) b = Some blk
       /\ state blk = BLOCK_READY
       /\ got = memcpy out (data blk) BLOCK_SIZE
       /\ read_of r m' bc1 b out'
          = Done (incr_nreads bc1) (memcpy out' (data blk) BLOCK_SIZE))
  /\ (forall bc1, read_of r m bc b out = Failed bc1 ->
       bc1 = bc /\ r <> Part_000
       /\ ((find_of r (cache bc) b = None /\ m = None)
           \/ (r = Bcache_c
               /\ exists blk, entry (find_of r) (cache bc) b = Some blk
                              /\ state blk <> BLOCK_READY))
       /\ read_of r m bc1 b out' = Failed bc1).
Proof.
  split.
  - intros bc1 got Hread.
    assert (exists i blk, find_of r (cache bc1) b = Some i
              /\ cache bc1 !! i = Some blk /\ state blk = BLOCK_READY
              /\ got = memcpy out (data blk) BLOCK_SIZE)
      as (i & blk & Hf & Hi & Hr & Hg).
    { destruct (read_of_done _ _ _ _ _ _ _ Hread)
        as [(i & blk & Hf & Hi & Hr & -> & ->)
           |[(i & blk & Hf & Hi & _ & -> & ->)
            |(junk & Hf & -> & -> & ->)]].
      - by exists i, blk.
      - destruct (find_of_Some _ _ _ _ Hf) as (blk0 & Hi0 & Hb).
        assert (blk0 = blk) as -> by congruence.
        exists i, (fetched (disk bc) blk). simpl.
        split; [by apply find_of_insert|].
        split; [|done]. apply list_lookup_insert_eq. by eapply lookup_lt_Some.
      - eexists 0%nat, _. simpl. split; [|done].
        by apply (find_of_cons_same r (brought_in r (disk bc) b junk)). }
    exists blk. split; [by eapply entry_found|]. split; [done|].
    split; [done|]. by eapply read_of_ready.
  - intros bc1 Hread.
    destruct (find_of r (cache bc) b) as [i|] eqn:Hf.
    + destruct (find_of_Some _ _ _ _ Hf) as (blk & Hi & Hb).
      destruct r; simpl in Hf, Hread |- *.
      * rewrite (bcachec_read_found _ _ _ _ _ _ Hf Hi) in Hread.
        destruct (decide (state blk = BLOCK_READY)) as [Hr|Hr]; [done|].
        injection Hread as <-. split; [done|]. split; [done|]. split.
        { right. split; [done|]. exists blk. split; [|done].
          by apply (entry_found Bcache_c _ _ i). }
        rewrite (bcachec_read_found _ _ _ _ _ _ Hf Hi).
        by rewrite decide_False.
      * rewrite (xc_read_found _ _ _ _ _ _ Hf Hi) in Hread.
        by repeat destruct (decide _).
      * rewrite (part000_read_found _ _ _ _ _ _ Hf Hi) in Hread.
        by repeat destruct (decide _).
    + destruct m as [junk|].
      * by rewrite (read_of_absent _ _ _ _ _ Hf) in Hread.
      * rewrite (read_of_no_memory _ _ _ _ Hf) in Hread.
        destruct (decide (r = Part_000)) as [Hp|Hp]; [done|].
        injection Hread as <-. split; [done|]. split; [done|].
        split; [by left|].
        rewrite (read_of_no_memory _ _ _ _ Hf). by rewrite decide_False.
Qed.

(** ** Writes *)

Lemma write_of_found r m bc b p i :
  find_of r (cache bc) b = Some i ->
  write_of r m bc b p
  = Done (incr_nwrites (set_cache (alter (dirty_with p) i (cache bc)) bc)) tt.
Proof.
  intros Hf. destruct r; simpl in *.
  - by apply bcache_write_locked_found.
  - by apply bcache_write_locked_found.
  - by apply part000_write_found.
Qed.

Lemma write_of_absent r junk bc b p :
  find_of r (cache bc) b = None ->
  write_of r (Some junk) bc b p
  = Done (incr_nwrites
            (set_cache
               ({| blocknum := b; state := BLOCK_DIRTY;
                   data := memcpy junk p BLOCK_SIZE |} :: cache bc) bc)) tt.
Proof.
  intros Hf. destruct r; simpl in *.
  - by apply bcache_write_locked_absent.
  - by apply bcache_write_locked_absent.
  - by apply part000_write_absent.
Qed.

Lemma write_of_no_memory r bc b p :
  find_of r (cache bc) b = None ->
  write_of r None bc b p = if decide (r = Part_000) then Crashed else Failed bc.
Proof.
  intros Hf. destruct r; simpl in *.
  - by apply bcache_write_locked_no_memory.
  - by apply bcache_write_locked_no_memory.
  - unfold Part000.bcache_write, Part000.find_or_create_block. by rewrite Hf.
Qed.

Lemma find_of_alter_dirty r p l b i :
  find_of r l b = Some i -> find_of r (alter (dirty_with p) i l) b = Some i.
Proof.
  intros Hf. destruct r; simpl in *.
  - by apply find_block_from_alter_found.
  - by apply find_block_from_alter_found.
  - by rewrite find_from_alter.
Qed.

(** A write that has returned leaves a dirty block for the number where
    the search finds it. *)
Lemma write_of_done r m bc b p bc1 :
  write_of r m bc b p = Done bc1 tt ->
  disk bc1 = disk bc /\ nwrites bc1 = int_incr (nwrites bc)
  /\ exists i blk, find_of r (cache bc1) b = Some i
       /\ cache bc1 !! i = Some (dirty_with p blk).
Proof.
  destruct (find_of r (cache bc) b) as [i|] eqn:Hf.
  - rewrite (write_of_found _ _ _ _ _ _ Hf). intros [= <-].
    destruct (find_of_Some _ _ _ _ Hf) as (blk & Hi & _).
    split; [done|]. split; [done|]. exists i, blk. simpl.
    split; [by apply find_of_alter_dirty|]. by apply lookup_alter_Some.
  - destruct m as [junk|].
    + rewrite (write_of_absent _ _ _ _ _ Hf). intros [= <-].
      split; [done|]. split; [done|].
      exists 0%nat, {| blocknum := b; state := BLOCK_DIRTY; data := junk |}.
      simpl. split; [|done].
      by apply (find_of_cons_same r
                  (dirty_with p {| blocknum := b; state := BLOCK_DIRTY;
                                   data := junk |})).
    + rewrite (write_of_no_memory _ _ _ _ Hf). by destruct (decide _).
Qed.


(** ** [bcache_sync] of [bcache.c] and [x.c] *)

Lemma sync_walk_cases l :
  (Forall (fun blk => state blk <> BLOCK_DIRTY) l /\ sync_walk l = (l, false))
  \/ exists before blk after,
       l = before ++ blk :: after
       /\ Forall (fun blk => state blk <> BLOCK_DIRTY) before
       /\ state blk = BLOCK_DIRTY
       /\ sync_walk l = (before ++ set_state BLOCK_WRITING blk :: after, true).
Proof.
  induction l as [|current next IH]; simpl.
  - left. split; [constructor|done].
  - destruct (decide (state current = BLOCK_DIRTY)) as [Hd|Hd].
    + right. exists [], current, next. split; [done|]. split; [constructor|].
      done.
    + destruct IH as [[Hall ->]|(before & blk & after & -> & Hall & Hs & ->)].
      * left. split; [by constructor|done].
      * right. exists (current :: before), blk, after.
        split; [done|]. split; [by constructor|]. done.
Qed.

(** X6: [bcache_sync] of [bcache.c] and [x.c] never calls the device
    and never makes a block ready.  When no block is dirty it returns
    with the cache object as it was; otherwise it marks the first dirty
    block of the list [BLOCK_WRITING], leaves every other block and the
    device alone, and waits. *)
Theorem bcache_sync_returns_or_marks_one (bc : bcache) :
  (Forall (fun blk => state blk <> BLOCK_DIRTY) (cache bc)
   /\ bcache_sync_locked bc = Done bc tt)
  \/ exists before blk after,
       cache bc = before ++ blk :: after
       /\ Forall (fun blk => state blk <> BLOCK_DIRTY) before
       /\ state blk = BLOCK_DIRTY
       /\ bcache_sync_locked bc
          = Blocked (set_cache
                       (before ++ set_state BLOCK_WRITING blk :: after) bc).
Proof.
  unfold bcache_sync_locked.
  destruct (sync_walk_cases (cache bc))
    as [[Hall ->]|(before & blk & after & Hc & Hall & Hs & ->)].
  - left. split; [done|]. by destruct bc.
  - right. by exists before, blk, after.
Qed.

(** ** Write-back in [part_000] *)

Lemma sector_disk_write who d b buf b' :
  sector (disk_write who d b buf) b'
  = if decide (b' = b) then take BLOCK_SIZE buf else sector d b'.
Proof.
  unfold sector, disk_write. simpl. destruct (decide (b' = b)) as [->|Hne].
  - by rewrite lookup_insert_eq.
  - by rewrite lookup_insert_ne.
Qed.

Lemma dirty_blocks_cons blk l :
  dirty_blocks (blk :: l)
  = if decide (state blk = BLOCK_DIRTY) then blk :: dirty_blocks l
    else dirty_blocks l.
Proof.
  unfold dirty_blocks. destruct (decide _).
  - by rewrite filter_cons_True.
  - by rewrite filter_cons_False.
Qed.

Lemma dirty_blocks_nil l :
  dirty_blocks l = [] <-> Forall (fun blk => state blk <> BLOCK_DIRTY) l.
Proof.
  induction l as [|blk l IH]; [by split; [constructor|]|].
  rewrite dirty_blocks_cons, Forall_cons. destruct (decide _); [|tauto].
  split; [done|]. by intros [? _].
Qed.

Lemma written_back_clean l :
  Forall (fun blk => state blk <> BLOCK_DIRTY) l -> written_back <$> l = l.
Proof.
  induction 1 as [|blk l Hb Hl IH]; csimpl; [done|].
  rewrite IH. unfold written_back. by rewrite decide_False.
Qed.

Lemma written_back_not_dirty l :
  Forall (fun blk => state blk <> BLOCK_DIRTY) (written_back <$> l).
Proof.
  apply Forall_fmap, Forall_forall. intros blk _. simpl.
  unfold written_back. destruct (decide _); [discriminate|done].
Qed.

Lemma sync_blocks_spec d l :
  Part000.sync_blocks d l
  = ({| nblocks := nblocks d; sectors := sectors_after l (sectors d);
        calls := rev (Disk_write In_sync <$> nums (dirty_blocks l))
                   ++ calls d |},
     written_back <$> l).
Proof.
  revert d. induction l as [|blk next IH]; intros d.
  - by destruct d.
  - simpl. unfold sectors_after, written_back at 1.
    rewrite dirty_blocks_cons.
    destruct (decide (state blk = BLOCK_DIRTY)) as [Hd|Hd].
    + rewrite IH. csimpl. unfold sectors_after.
      by rewrite <- app_assoc.
    + by rewrite IH.
Qed.

Lemma sectors_after_other l m b :
  b ∉ nums (dirty_blocks l) -> sectors_after l m !! b = m !! b.
Proof.
  unfold sectors_after. revert m.
  induction (dirty_blocks l) as [|blk rest IH]; intros m Hnot; [done|].
  simpl. unfold nums in Hnot. rewrite fmap_cons, not_elem_of_cons in Hnot.
  destruct Hnot as [Hne Hnot]. rewrite (IH _ Hnot).
  by rewrite lookup_insert_ne.
Qed.

Lemma dirty_blocks_nums l b : b ∈ nums (dirty_blocks l) -> b ∈ nums l.
Proof.
  unfold nums, dirty_blocks. rewrite !list_elem_of_fmap.
  intros (blk & -> & Hin). exists blk. split; [done|].
  by apply list_elem_of_filter in Hin as [_ ?].
Qed.

Lemma sectors_after_dirty l m blk :
  NoDup (nums l) -> blk ∈ l -> state blk = BLOCK_DIRTY ->
  sectors_after l m !! blocknum blk = Some (take BLOCK_SIZE (data blk)).
Proof.
  revert m. induction l as [|x l IH]; intros m Hnd Hin Hs.
  - by apply elem_of_nil in Hin.
  - unfold nums in Hnd. rewrite fmap_cons in Hnd.
    apply NoDup_cons in Hnd as [Hx Hnd].
    unfold sectors_after. rewrite dirty_blocks_cons.
    apply elem_of_cons in Hin as [->|Hin].
    + rewrite decide_True by done. simpl.
      change (foldl _ ?m0 (dirty_blocks l)) with (sectors_after l m0).
      rewrite sectors_after_other.
      * by rewrite lookup_insert_eq.
      * intros H. by apply dirty_blocks_nums in H.
    + destruct (decide (state x = BLOCK_DIRTY)); simpl.
      * by apply IH.
      * by apply IH.
Qed.

(** X7: [bcache_sync] of [part_000] always returns.  It writes every
    dirty block of the list to the device, once each and in list order,
    and calls the device for nothing else; the blocks it wrote are ready
    afterwards with the data they had, every other block is as it was;
    device blocks of which no dirty copy was in the list keep their
    contents; the counters are untouched. *)
Theorem part000_sync_writes_dirty_blocks (bc : bcache) :
  exists bc',
    Part000.bcache_sync bc = Done bc' tt
    /\ cache bc' = written_back <$> cache bc
    /\ calls (disk bc')
       = rev (Disk_write In_sync <$> nums (dirty_blocks (cache bc)))
           ++ calls (disk bc)
    /\ (forall b, b ∉ nums (dirty_blocks (cache bc)) ->
          sector (disk bc') b = sector (disk bc) b)
    /\ Forall (fun blk => state blk <> BLOCK_DIRTY) (cache bc')
    /\ bcache_nreads bc' = bcache_nreads bc
    /\ bcache_nwrites bc' = bcache_nwrites bc
    /\ bcache_disk_blocks bc' = bcache_disk_blocks bc.
Proof.
  unfold Part000.bcache_sync. rewrite sync_blocks_spec.
  eexists. split; [reflexivity|]. simpl. split; [done|]. split; [done|].
  split.
  - intros b Hb. unfold sector. simpl. by rewrite sectors_after_other.
  - split; [apply written_back_not_dirty|done].
Qed.

Lemma written_back_entry l blk :
  NoDup (nums l) -> blk ∈ l -> state blk = BLOCK_DIRTY ->
  entry Part000.find_from (written_back <$> l) (blocknum blk)
  = Some (set_state BLOCK_READY blk).
Proof.
  induction l as [|x l IH]; intros Hnd Hin Hs.
  - by apply elem_of_nil in Hin.
  - unfold nums in Hnd. rewrite fmap_cons in Hnd.
    apply NoDup_cons in Hnd as [Hx Hnd].
    apply elem_of_cons in Hin as [->|Hin].
    + unfold entry. csimpl. unfold written_back.
      rewrite !(decide_True (P := state x = BLOCK_DIRTY)) by done.
      simpl. by rewrite decide_True.
    + assert (blocknum x <> blocknum blk) as Hne.
      { intros Heq. apply Hx. rewrite Heq.
        apply list_elem_of_fmap. by exists blk. }
      rewrite fmap_cons.
      rewrite entry_find_from_cons; [by apply IH|].
      unfold written_back. by destruct (decide _).
Qed.

(** X8: when no two blocks of the list have the same number, after
    [bcache_sync] of [part_000] the device holds, for every block that
    was dirty, the first 4096 bytes of its data, and the block is found
    ready with these data. *)
Theorem part000_sync_persists (bc bc' : bcache) (blk : block) :
  NoDup (nums (cache bc)) ->
  blk ∈ cache bc -> state blk = BLOCK_DIRTY ->
  Part000.bcache_sync bc = Done bc' tt ->
  sector (disk bc') (blocknum blk) = take BLOCK_SIZE (data blk)
  /\ entry Part000.find_from (cache bc') (blocknum blk)
     = Some (set_state BLOCK_READY blk).
Proof.
  intros Hnd Hin Hs. unfold Part000.bcache_sync. rewrite sync_blocks_spec.
  intros [= <-]. simpl. split.
  - unfold sector. simpl. by rewrite (sectors_after_dirty _ _ _ Hnd Hin Hs).
  - by apply written_back_entry.
Qed.

(** X9: a second [bcache_sync] of [part_000] right after the first, or
    a turn of the scheduler loop after it, finds nothing to do: the
    cache object and the device stay exactly as the first left them. *)
Theorem part000_sync_twice (bc bc1 : bcache) :
  Part000.bcache_sync bc = Done bc1 tt ->
  Part000.bcache_sync bc1 = Done bc1 tt
  /\ Part000.bcache_io_scheduler bc1 = bc1.
Proof.
  unfold Part000.bcache_sync at 1. rewrite sync_blocks_spec.
  intros [= <-].
  pose proof (written_back_not_dirty (cache bc)) as Hclean.
  split.
  - unfold Part000.bcache_sync. rewrite sync_blocks_spec. simpl.
    rewrite (written_back_clean _ Hclean).
    apply dirty_blocks_nil in Hclean. unfold sectors_after. rewrite Hclean.
    done.
  - unfold Part000.bcache_io_scheduler. simpl.
    assert (Hid : forall d l, Forall (fun blk => state blk <> BLOCK_DIRTY) l ->
                    Part000.write_first_dirty d l = (d, l)).
    { intros d l. induction 1 as [|x l Hx Hl IH]; simpl; [done|].
      rewrite decide_False by done. by rewrite IH. }
    rewrite (Hid _ _ Hclean). done.
Qed.

Lemma write_first_dirty_cases d l :
  (Forall (fun blk => state blk <> BLOCK_DIRTY) l
   /\ Part000.write_first_dirty d l = (d, l))
  \/ exists before blk after,
       l = before ++ blk :: after
       /\ Forall (fun blk => state blk <> BLOCK_DIRTY) before
       /\ state blk = BLOCK_DIRTY
       /\ Part000.write_first_dirty d l
          = (disk_write In_scheduler d (blocknum blk) (data blk),
             before ++ set_state BLOCK_READY blk :: after).
Proof.
  induction l as [|x next IH]; simpl.
  - left. split; [constructor|done].
  - destruct (decide (state x = BLOCK_DIRTY)) as [Hd|Hd].
    + right. exists [], x, next. split; [done|]. split; [constructor|]. done.
    + destruct IH as [[Hall ->]|(before & blk & after & -> & Hall & Hs & ->)].
      * left. split; [by constructor|done].
      * right. exists (x :: before), blk, after.
        split; [done|]. split; [by constructor|]. done.
Qed.

(** X10: one turn of the loop of [bcache_io_scheduler] in [part_000]
    writes the first dirty block of the list to the device and makes it
    ready, and touches no other block; when no block is dirty the turn
    changes nothing and calls the device for nothing. *)
Theorem part000_scheduler_turn (bc : bcache) :
  (Forall (fun blk => state blk <> BLOCK_DIRTY) (cache bc)
   /\ Part000.bcache_io_scheduler bc = bc)
  \/ exists before blk after,
       cache bc = before ++ blk :: after
       /\ Forall (fun blk => state blk <> BLOCK_DIRTY) before
       /\ state blk = BLOCK_DIRTY
       /\ Part000.bcache_io_scheduler bc
          = set_disk (disk_write In_scheduler (disk bc) (blocknum blk)
                        (data blk))
              (set_cache (before ++ set_state BLOCK_READY blk :: after) bc).
Proof.
  unfold Part000.bcache_io_scheduler.
  destruct (write_first_dirty_cases (disk bc) (cache bc))
    as [[Hall ->]|(before & blk & after & Hc & Hall & Hs & ->)].
  - left. split; [done|]. by destruct bc.
  - right. by exists before, blk, after.
Qed.

Lemma dirty_blocks_app l1 l2 :
  dirty_blocks (l1 ++ l2) = dirty_blocks l1 ++ dirty_blocks l2.
Proof. unfold dirty_blocks. apply filter_app. Qed.

Lemma scheduler_turns_spec n : forall bc,
  (length (dirty_blocks (cache bc)) <= n)%nat ->
  scheduler_turns n bc
  = set_disk
      {| nblocks := nblocks (disk bc);
         sectors := sectors_after (cache bc) (sectors (disk bc));
         calls := rev (Disk_write In_scheduler
                         <$> nums (dirty_blocks (cache bc)))
                    ++ calls (disk bc) |}
      (set_cache (written_back <$> cache bc) bc).
Proof.
  unfold scheduler_turns.
  induction n as [|n IH]; intros bc Hlen.
  - assert (Hnil : dirty_blocks (cache bc) = []).
    { destruct (dirty_blocks (cache bc)); [done|simpl in Hlen; lia]. }
    simpl. unfold sectors_after. rewrite Hnil. simpl.
    apply dirty_blocks_nil in Hnil. rewrite (written_back_clean _ Hnil).
    destruct bc as [[] ? ? ? ?]. done.
  - rewrite Nat.iter_succ_r.
    unfold Part000.bcache_io_scheduler at 2.
    destruct (write_first_dirty_cases (disk bc) (cache bc))
      as [[Hall ->]|(before & blk & after & Hc & Hall & Hs & ->)].
    + replace (set_disk (disk bc) (set_cache (cache bc) bc)) with bc
        by by destruct bc.
      apply IH. apply dirty_blocks_nil in Hall. rewrite Hall. simpl. lia.
    + assert (Hdb : dirty_blocks (cache bc) = blk :: dirty_blocks after).
      { rewrite Hc, dirty_blocks_app, dirty_blocks_cons.
        rewrite decide_True by done.
        apply dirty_blocks_nil in Hall. by rewrite Hall. }
      rewrite IH.
      * pose proof Hall as Hnil. apply dirty_blocks_nil in Hnil.
        simpl. unfold sectors_after. rewrite Hdb.
        rewrite dirty_blocks_app, dirty_blocks_cons, Hnil. simpl.
        rewrite Hc, !fmap_app, !fmap_cons.
        assert (written_back blk = set_state BLOCK_READY blk) as ->
          by (unfold written_back; by rewrite decide_True).
        change (written_back (set_state BLOCK_READY blk))
          with (set_state BLOCK_READY blk).
        unfold set_disk, set_cache. simpl. f_equal.
        f_equal. by rewrite <- app_assoc.
      * simpl. rewrite dirty_blocks_app, dirty_blocks_cons. simpl.
        apply dirty_blocks_nil in Hall. rewrite Hall. simpl.
        rewrite Hdb in Hlen. simpl in Hlen. lia.
Qed.

(** X11: the scheduler of [part_000] drains the list.  After as many
    turns of its loop as there are dirty blocks, or more, the list is
    what [bcache_sync] would have made of it and the device holds the
    same blocks; the device has received one write for each dirty block,
    in list order, and nothing else. *)
Theorem part000_scheduler_drains (bc : bcache) (n : nat) :
  (length (dirty_blocks (cache bc)) <= n)%nat ->
  exists synced,
    Part000.bcache_sync bc = Done synced tt
    /\ cache (scheduler_turns n bc) = cache synced
    /\ sectors (disk (scheduler_turns n bc)) = sectors (disk synced)
    /\ calls (disk (scheduler_turns n bc))
       = rev (Disk_write In_scheduler <$> nums (dirty_blocks (cache bc)))
           ++ calls (disk bc)
    /\ Forall (fun blk => state blk <> BLOCK_DIRTY)
         (cache (scheduler_turns n bc)).
Proof.
  intros Hlen. rewrite (scheduler_turns_spec n bc Hlen).
  unfold Part000.bcache_sync. rewrite sync_blocks_spec.
  eexists. split; [reflexivity|]. simpl.
  repeat (split; [done|]). apply written_back_not_dirty.
Qed.

(** X12: in [part_000], a write followed by [bcache_sync] and a read of
    the same block number, on a list without two blocks of one number:
    the three calls return, the read hands the caller the 4096 bytes
    that were written, without a call of the device, and the device
    holds these bytes for the block. *)
Theorem part000_write_sync_read (junk : list byte) (m' : option (list byte))
    (bc : bcache) (b : Z) (p out : list byte) :
  length p = BLOCK_SIZE -> NoDup (nums (cache bc)) ->
  exists bc1 bc2 got,
    Part000.bcache_write (Some junk) bc b p = Done bc1 tt
    /\ Part000.bcache_sync bc1 = Done bc2 tt
    /\ Part000.bcache_read m' bc2 b out = Done (incr_nreads bc2) got
    /\ take BLOCK_SIZE got = p
    /\ sector (disk bc2) b = p.
Proof.
  intros Hlen Hnd.
  assert (exists bc1, Part000.bcache_write (Some junk) bc b p = Done bc1 tt)
    as [bc1 Hw].
  { destruct (Part000.find_from (cache bc) b) as [i|] eqn:Hf.
    - rewrite (part000_write_found _ _ _ _ _ Hf). by eexists.
    - rewrite (part000_write_absent _ _ _ _ Hf). by eexists. }
  destruct (write_of_done Part_000 _ _ _ _ _ Hw)
    as (Hd & Hn & i & blk & Hf & Hi).
  destruct (part000_write_done _ _ _ _ _ Hw) as (_ & _ & _ & Hnums & _).
  assert (Hnd1 : NoDup (nums (cache bc1))).
  { rewrite Hnums. by apply grown_NoDup. }
  destruct (find_of_Some _ _ _ _ Hf) as (blk1 & Hi1 & Hb1).
  assert (blk1 = dirty_with p blk) as -> by congruence.
  assert (Hin : dirty_with p blk ∈ cache bc1)
    by by eapply list_elem_of_lookup_2.
  pose (bc2 := set_disk (Part000.sync_blocks (disk bc1) (cache bc1)).1
                 (set_cache (written_back <$> cache bc1) bc1)).
  assert (Hsync : Part000.bcache_sync bc1 = Done bc2 tt).
  { unfold Part000.bcache_sync, bc2. by rewrite sync_blocks_spec. }
  assert (Hsec : sector (disk bc2) b
                 = take BLOCK_SIZE (data (dirty_with p blk))).
  { unfold sector, bc2. rewrite sync_blocks_spec. simpl. rewrite <- Hb1.
    by rewrite (sectors_after_dirty _ _ _ Hnd1 Hin eq_refl). }
  pose proof (written_back_entry _ _ Hnd1 Hin eq_refl) as Hent.
  rewrite Hb1 in Hent. unfold entry in Hent.
  change (written_back <$> cache bc1) with (cache bc2) in Hent.
  destruct (Part000.find_from (cache bc2) b) as [j|] eqn:Hj; [|done].
  simpl in Hent.
  exists bc1, bc2, (memcpy out (memcpy (data blk) p BLOCK_SIZE) BLOCK_SIZE).
  split; [done|]. split; [done|]. split.
  { exact (read_of_ready Part_000 m' bc2 b out j _ Hj Hent eq_refl). }
  split.
  - unfold memcpy at 1.
    rewrite take_app_le
      by (rewrite length_take; unfold memcpy;
          rewrite length_app, length_take; lia).
    rewrite take_take, Nat.min_id. by apply take_memcpy.
  - rewrite Hsec. simpl. by apply take_memcpy.
Qed.

(** ** What a read leaves alone *)

Lemma entry_of_alter r (f : block -> block) l i b b' :
  (forall blk, blocknum (f blk) = blocknum blk) ->
  find_of r l b = Some i -> b' <> b ->
  entry (find_of r) (alter f i l) b' = entry (find_of r) l b'.
Proof.
  intros Hf Hfind Hne.
  destruct (find_of_Some _ _ _ _ Hfind) as (blk & Hi & Hb).
  destruct r; simpl.
  - apply (entry_find_block_alter _ _ _ b); [done|by exists blk|done].
  - apply (entry_find_block_alter _ _ _ b); [done|by exists blk|done].
  - apply (entry_find_from_alter _ _ _ b); [done|by exists blk|done].
Qed.

Lemma entry_of_cons r blk l b' :
  blocknum blk <> b' -> entry (find_of r) (blk :: l) b' = entry (find_of r) l b'.
Proof.
  intros Hne. destruct r; simpl.
  - by apply entry_find_block_cons.
  - by apply entry_find_block_cons.
  - by apply entry_find_from_cons.
Qed.

(** X13: a read that returns changes no block of another number (the
    search for any other number finds the same block with the same state
    and data), no block of the device, not the capacity and not the
    count of writes. *)
Theorem read_frame (r : revision) (m : option (list byte)) (bc bc1 : bcache)
    (b b' : Z) (out got : list byte) :
  read_of r m bc b out = Done bc1 got ->
  b' <> b ->
  entry (find_of r) (cache bc1) b' = entry (find_of r) (cache bc) b'
  /\ sectors (disk bc1) = sectors (disk bc)
  /\ bcache_disk_blocks bc1 = bcache_disk_blocks bc
  /\ bcache_memory_blocks bc1 = bcache_memory_blocks bc
  /\ bcache_nwrites bc1 = bcache_nwrites bc.
Proof.
  intros Hread Hne.
  destruct (read_of_done _ _ _ _ _ _ _ Hread)
    as [(i & blk & Hf & Hi & Hr & -> & ->)
       |[(i & blk & Hf & Hi & _ & -> & ->)
        |(junk & Hf & -> & -> & ->)]]; simpl.
  - done.
  - split; [|done].
    rewrite <- (alter_as_insert (fetched (disk bc)) _ _ _ Hi).
    by apply (entry_of_alter _ _ _ _ b).
  - split; [|done]. by apply entry_of_cons.
Qed.

(** ** The scheduler pass of [bcache.c] and [x.c] *)

Lemma scheduler_scan_idle d l :
  Forall (fun blk => ~ pending blk) l -> scheduler_scan d l = (d, l).
Proof.
  revert d. induction 1 as [|current next Hc Hn IH]; [done|]. simpl.
  unfold pending in Hc.
  destruct (state current) eqn:Hs; rewrite ?IH; try done; tauto.
Qed.

Lemma sector_disk_read who d b buf b' :
  sector (disk_read who d b buf).1 b' = sector d b'.
Proof. done. Qed.

Lemma scheduler_scan_sector_other d l b :
  (forall blk, blk ∈ l -> state blk = BLOCK_WRITING -> blocknum blk <> b) ->
  sector (scheduler_scan d l).1 b = sector d b.
Proof.
  revert d. induction l as [|current next IH]; intros d Hw; [done|]. simpl.
  assert (Hnext : forall blk, blk ∈ next -> state blk = BLOCK_WRITING ->
                              blocknum blk <> b).
  { intros blk Hin. apply Hw. by apply elem_of_cons; right. }
  destruct (state current) eqn:Hs.
  - specialize (IH d Hnext).
    destruct (scheduler_scan d next) as [d2 next']. done.
  - specialize (IH (disk_read In_scheduler d (blocknum current)
                      (data current)).1 Hnext).
    simpl in *. destruct (scheduler_scan _ next) as [d2 next']. done.
  - specialize (IH d Hnext).
    destruct (scheduler_scan d next) as [d2 next']. done.
  - specialize (IH d Hnext).
    destruct (scheduler_scan d next) as [d2 next']. done.
  - specialize (IH (disk_write In_scheduler d (blocknum current)
                      (data current)) Hnext).
    destruct (scheduler_scan _ next) as [d2 next']. simpl in *.
    rewrite IH, sector_disk_write. rewrite decide_False; [done|].
    intros ->. apply (Hw current); [by apply elem_of_cons; left|done|done].
Qed.

Lemma scheduler_scan_lookup d l i blk :
  l !! i = Some blk ->
  exists blk',
    (scheduler_scan d l).2 !! i = Some blk'
    /\ blocknum blk' = blocknum blk /\ ~ pending blk'
    /\ (~ pending blk -> blk' = blk)
    /\ (state blk = BLOCK_WRITING -> blk' = set_state BLOCK_READY blk)
    /\ (state blk = BLOCK_READING ->
        (forall blk2, blk2 ∈ l -> state blk2 = BLOCK_WRITING ->
                      blocknum blk2 <> blocknum blk) ->
        blk' = fetched d blk).
Proof.
  revert d i. induction l as [|current next IH]; intros d i Hi; [done|].
  destruct i as [|i]; simpl in Hi.
  - injection Hi as ->. simpl. unfold pending.
    destruct (state blk) eqn:Hs;
      destruct (scheduler_scan _ next) as [d2 next']; simpl;
      eexists; (split; [reflexivity|]); simpl; rewrite ?Hs;
      repeat split; try done; try tauto; try (intros [?|?]; congruence).
  - simpl.
    assert (Hstep : forall d1,
      (forall b, (forall blk2, blk2 ∈ current :: next ->
                    state blk2 = BLOCK_WRITING -> blocknum blk2 <> b) ->
                 sector d1 b = sector d b) ->
      exists blk',
        (scheduler_scan d1 next).2 !! i = Some blk'
        /\ blocknum blk' = blocknum blk /\ ~ pending blk'
        /\ (~ pending blk -> blk' = blk)
        /\ (state blk = BLOCK_WRITING -> blk' = set_state BLOCK_READY blk)
        /\ (state blk = BLOCK_READING ->
            (forall blk2, blk2 ∈ current :: next ->
                          state blk2 = BLOCK_WRITING ->
                          blocknum blk2 <> blocknum blk) ->
            blk' = fetched d blk)).
    { intros d1 Hsec.
      destruct (IH d1 i Hi) as (blk' & Hl & Hb & Hp & Hsame & Hw & Hr).
      exists blk'. repeat (split; [done|]).
      intros Hrd Hnw. rewrite Hr; [|done|].
      - unfold fetched. by rewrite (Hsec _ Hnw).
      - intros blk2 Hin. apply Hnw. by apply elem_of_cons; right. }
    destruct (state current) eqn:Hs.
    + destruct (Hstep d) as (blk' & Hl & H); [done|].
      destruct (scheduler_scan d next) as [d2 next']. by exists blk'.
    + destruct (Hstep (disk_read In_scheduler d (blocknum current)
                         (data current)).1) as (blk' & Hl & H); [done|].
      simpl in *. destruct (scheduler_scan _ next) as [d2 next'].
      by exists blk'.
    + destruct (Hstep d) as (blk' & Hl & H); [done|].
      destruct (scheduler_scan d next) as [d2 next']. by exists blk'.
    + destruct (Hstep d) as (blk' & Hl & H); [done|].
      destruct (scheduler_scan d next) as [d2 next']. by exists blk'.
    + destruct (Hstep (disk_write In_scheduler d (blocknum current)
                         (data current))) as (blk' & Hl & H).
      { intros b Hnw. rewrite sector_disk_write, decide_False; [done|].
        intros ->. apply (Hnw current); [by apply elem_of_cons; left|done|done]. }
      destruct (scheduler_scan _ next) as [d2 next']. by exists blk'.
Qed.

Lemma scheduler_scan_quiet d l :
  Forall (fun blk => ~ pending blk) (scheduler_scan d l).2.
Proof.
  apply Forall_lookup. intros i blk' Hi.
  assert (is_Some (l !! i)) as [blk Hl].
  { apply lookup_lt_is_Some. apply lookup_lt_Some in Hi.
    revert Hi. clear. revert d.
    assert (forall d, length (scheduler_scan d l).2 = length l) as Hlen.
    { induction l as [|c n IH]; intros d; [done|]. simpl.
      destruct (state c); simpl;
        match goal with |- context [scheduler_scan ?d0 n] =>
          specialize (IH d0); destruct (scheduler_scan d0 n) end;
        simpl in *; by rewrite IH. }
    intros d. by rewrite Hlen. }
  destruct (scheduler_scan_lookup d l i blk Hl) as (blk2 & Hi2 & _ & Hp & _).
  congruence.
Qed.

Lemma scheduler_scan_calls d l :
  length (calls (scheduler_scan d l).1)
  = (length (calls d) + length (filter pending l))%nat.
Proof.
  revert d. induction l as [|current next IH]; intros d; [simpl; lia|].
  simpl scheduler_scan.
  destruct (decide (pending current)) as [Hp|Hp].
  - rewrite filter_cons_True by done.
    destruct Hp as [Hs|Hs]; rewrite Hs;
      match goal with |- context [scheduler_scan ?d0 next] =>
        specialize (IH d0); destruct (scheduler_scan d0 next)
      end; simpl in *; lia.
  - rewrite filter_cons_False by done.
    destruct (state current) eqn:Hs;
      try (exfalso; apply Hp; unfold pending; tauto);
      specialize (IH d); destruct (scheduler_scan d next); simpl in *; lia.
Qed.

Lemma scheduler_scan_persists d l blk :
  NoDup (nums l) -> blk ∈ l -> state blk = BLOCK_WRITING ->
  sector (scheduler_scan d l).1 (blocknum blk) = take BLOCK_SIZE (data blk).
Proof.
  revert d. induction l as [|current next IH]; intros d Hnd Hin Hs.
  - by apply elem_of_nil in Hin.
  - unfold nums in Hnd. rewrite fmap_cons in Hnd.
    apply NoDup_cons in Hnd as [Hx Hnd].
    apply elem_of_cons in Hin as [<-|Hin].
    + simpl. rewrite Hs.
      pose proof (scheduler_scan_sector_other
                    (disk_write In_scheduler d (blocknum blk) (data blk))
                    next (blocknum blk)) as Hother.
      destruct (scheduler_scan _ next) as [d2 next']. simpl in *.
      rewrite Hother.
      * rewrite sector_disk_write. by rewrite decide_True.
      * intros blk2 Hin2 _ Heq. apply Hx. rewrite <- Heq.
        apply list_elem_of_fmap. by exists blk2.
    + simpl.
      destruct (state current) eqn:Hc;
        match goal with |- context [scheduler_scan ?d0 next] =>
          specialize (IH d0 Hnd Hin Hs); destruct (scheduler_scan d0 next)
        end; done.
Qed.

(** X14: one pass of the scheduler of [bcache.c] and [x.c] completes
    every transfer that is asked for.  Afterwards no block is
    [BLOCK_READING] or [BLOCK_WRITING]; a block that was neither is as
    it was; a block that was being written is ready with its data, and
    (no two blocks having one number) the device holds these data; a
    block that was being read is ready with the device's bytes (when no
    block of its number was being written).  The device has received
    one call for each such block, and a second pass right after changes
    nothing. *)
Theorem scheduler_pass_completes_transfers (bc : bcache) :
  let bc' := bcache_io_scheduler_pass bc in
  Forall (fun blk => ~ pending blk) (cache bc')
  /\ length (calls (disk bc'))
     = (length (calls (disk bc)) + length (filter pending (cache bc)))%nat
  /\ bcache_io_scheduler_pass bc' = bc'
  /\ (forall i blk, cache bc !! i = Some blk ->
        exists blk',
          cache bc' !! i = Some blk' /\ blocknum blk' = blocknum blk
          /\ (~ pending blk -> blk' = blk)
          /\ (state blk = BLOCK_WRITING ->
              blk' = set_state BLOCK_READY blk
              /\ (NoDup (nums (cache bc)) ->
                  sector (disk bc') (blocknum blk)
                  = take BLOCK_SIZE (data blk)))
          /\ (state blk = BLOCK_READING ->
              (forall blk2, blk2 ∈ cache bc -> state blk2 = BLOCK_WRITING ->
                            blocknum blk2 <> blocknum blk) ->
              blk' = fetched (disk bc) blk)).
Proof.
  unfold bcache_io_scheduler_pass.
  pose proof (scheduler_scan_quiet (disk bc) (cache bc)) as Hq.
  pose proof (scheduler_scan_calls (disk bc) (cache bc)) as Hc.
  pose proof (scheduler_scan_lookup (disk bc) (cache bc)) as Hl.
  pose proof (scheduler_scan_persists (disk bc) (cache bc)) as Hp.
  destruct (scheduler_scan (disk bc) (cache bc)) as [d' l'] eqn:Hscan.
  simpl in *. split; [done|]. split; [done|]. split.
  - rewrite (scheduler_scan_idle _ _ Hq). done.
  - intros i blk Hi.
    destruct (Hl i blk Hi) as (blk' & Hi' & Hb & _ & Hsame & Hw & Hr).
    exists blk'. repeat (split; [done|]). split; [|done].
    intros Hs. split; [by apply Hw|]. intros Hnd.
    apply Hp; [done| |done]. by eapply list_elem_of_lookup_2.
Qed.

(** ** [bcache.c] and [x.c] never write to the device *)

Lemma exec_of_read r b out m bc :
  exec_of r (Read b out m) bc
  = match read_of r m bc b out with
    | Done bc' buf => Done bc' (Some buf)
    | Failed bc' => Failed bc'
    | Blocked bc' => Blocked bc'
    | Crashed => Crashed
    end.
Proof. by destruct r. Qed.

Lemma exec_of_write r b p m bc :
  exec_of r (Write b p m) bc
  = match write_of r m bc b p with
    | Done bc' _ => Done bc' None
    | Failed bc' => Failed bc'
    | Blocked bc' => Blocked bc'
    | Crashed => Crashed
    end.
Proof. by destruct r. Qed.

Lemma read_of_failed r m bc b out bc' :
  read_of r m bc b out = Failed bc' -> bc' = bc.
Proof.
  destruct r; simpl; intros H.
  - pose proof (bcachec_read_returns m bc b out) as Hr. by rewrite H in Hr.
  - pose proof (xc_read_returns m bc b out) as Hr. by rewrite H in Hr.
  - unfold Part000.bcache_read, wait_ready_and_copy in H.
    destruct (Part000.find_or_create_block m bc b) as [bc0 [i|]]; [|done].
    simpl in H. by destruct (decide _) in H.
Qed.

Lemma write_of_failed r m bc b p bc' :
  write_of r m bc b p = Failed bc' -> bc' = bc.
Proof.
  destruct r; simpl; intros H.
  - pose proof (bcache_write_locked_returns m bc b p) as Hr.
    unfold BcacheC.bcache_write in H. by rewrite H in Hr.
  - pose proof (bcache_write_locked_returns m bc b p) as Hr.
    unfold XC.bcache_write in H. by rewrite H in Hr.
  - unfold Part000.bcache_write in H.
    by destruct (Part000.find_or_create_block m bc b) as [bc0 [i|]].
Qed.

Lemma only_read_since_kept (r : revision) (d : struct_disk) :
  r <> Part_000 -> preserves (only_read_since d) (exec_of r).
Proof.
  intros Hr [b out m|b p m| |] bc (Hall & Hsec & reads & Hcalls & Hreads).
  - rewrite exec_of_read.
    destruct (read_of r m bc b out) as [bc1 got|bc1| |] eqn:Hread;
      [| |done|done].
    + destruct (read_of_done _ _ _ _ _ _ _ Hread)
        as [(i & blk & Hf & Hi & Hst & -> & ->)
           |[(i & blk & Hf & Hi & Hst & -> & ->)
            |(junk & Hf & -> & -> & ->)]].
      * split; [done|]. split; [done|]. by exists reads.
      * exfalso. unfold all_settled in Hall. rewrite Forall_lookup in Hall.
        destruct (Hall i blk Hi) as [Hs|Hs]; destruct r; try done; congruence.
      * split; [by constructor; [left|]|]. split; [done|].
        exists (Disk_read In_read b :: reads). simpl. rewrite Hcalls.
        split; [done|]. constructor; [by exists b|done].
    + apply read_of_failed in Hread as ->. split; [done|]. split; [done|].
      by exists reads.
  - rewrite exec_of_write.
    destruct (write_of r m bc b p) as [bc1 []|bc1| |] eqn:Hw; [| |done|done].
    + destruct (write_of_done _ _ _ _ _ _ Hw) as (Hd & _).
      assert (Hset : Forall settled (cache bc1)).
      { pose proof (bcache_write_locked_returns m bc b p) as Hret.
        destruct r; [| |done]; simpl in Hw;
          unfold BcacheC.bcache_write, XC.bcache_write in Hw;
          rewrite Hw in Hret; destruct Hret as (_ & _ & _ & Hs); auto. }
      split; [done|]. rewrite Hd. split; [done|]. by exists reads.
    + apply write_of_failed in Hw as ->. split; [done|]. split; [done|].
      by exists reads.
  - assert (exec_of r Sync bc
            = match bcache_sync_locked bc with
              | Done bc' _ => Done bc' None
              | Failed bc' => Failed bc'
              | Blocked bc' => Blocked bc'
              | Crashed => Crashed
              end) as -> by by destruct r.
    pose proof (bcache_sync_locked_returns bc) as H.
    destruct (bcache_sync_locked bc); [|done|done|done].
    destruct H as [-> _]. split; [done|]. split; [done|]. by exists reads.
  - assert (exec_of r Sched bc = Done (bcache_io_scheduler_pass bc) None)
      as -> by by destruct r.
    unfold bcache_io_scheduler_pass.
    destruct (scheduler_scan_settled (disk bc) (cache bc) Hall) as [Hl Hd].
    destruct (scheduler_scan (disk bc) (cache bc)). simpl in *. subst.
    split; [done|]. split; [done|]. by exists reads.
Qed.

(** X15: [bcache.c] and [x.c] never write to the device.  After every
    sequence of reads, writes, syncs and scheduler passes on a cache
    object from [bcache_create] that have all returned, the device holds
    the blocks it held at creation, and the only calls it has received
    are the [disk_read]s that [bcache_read] made in the callers' threads:
    the scheduler has made none.  Every block of the list is ready or
    dirty. *)
Theorem bcachec_xc_never_write_the_device (r : revision) (d : struct_disk)
    (c : Z) (ops : list op) (t : tally) :
  r = Bcache_c \/ r = X_c ->
  run (exec_of r) ops (fresh d c) = Some t ->
  sectors (disk (final t)) = sectors d
  /\ (exists reads, calls (disk (final t)) = reads ++ calls d
                    /\ Forall read_by_caller reads)
  /\ Forall settled (cache (final t)).
Proof.
  intros Hr Hrun.
  assert (Hne : r <> Part_000) by (destruct Hr; congruence).
  destruct (run_preserves _ _ ops (only_read_since_kept r d Hne) _ _ Hrun)
    as (Hall & Hsec & Hreads).
  - split; [constructor|]. split; [done|]. by exists [].
  - done.
Qed.

(** ** Sequences of reads *)

Lemma take_fetched d blk :
  length (sector d (blocknum blk)) = BLOCK_SIZE ->
  take BLOCK_SIZE (data (fetched d blk)) = sector d (blocknum blk).
Proof. intros H. simpl. by apply take_memcpy. Qed.

Lemma take_copied (out buf : list byte) :
  (BLOCK_SIZE <= length buf)%nat ->
  take BLOCK_SIZE (memcpy out buf BLOCK_SIZE) = take BLOCK_SIZE buf.
Proof.
  intros H. unfold memcpy.
  rewrite take_app_le by (rewrite length_take; lia).
  by rewrite take_take, Nat.min_id.
Qed.

Lemma find_of_elem r l b i : find_of r l b = Some i -> b ∈ nums l.
Proof.
  intros H. destruct (find_of_Some _ _ _ _ H) as (blk & Hi & <-).
  unfold nums. apply list_elem_of_fmap. exists blk. split; [done|].
  by eapply list_elem_of_lookup_2.
Qed.

Lemma find_of_ready_None r l b :
  Forall (fun blk => state blk = BLOCK_READY) l ->
  find_of r l b = None -> b ∉ nums l.
Proof.
  intros Hall Hf.
  assert (Hblock : find_block_from l b = None -> b ∉ nums l).
  { intros Hn Hin. unfold nums in Hin.
    apply list_elem_of_fmap in Hin as (blk & -> & Hin).
    rewrite Forall_forall in Hall. specialize (Hall blk Hin).
    pose proof (find_block_from_None _ _ Hn blk Hin eq_refl). congruence. }
  destruct r; simpl in Hf; [by apply Hblock|by apply Hblock|].
  by apply find_from_not_elem.
Qed.

Lemma nums_cons blk l : nums (blk :: l) = blocknum blk :: nums l.
Proof. done. Qed.

Lemma device_reads_other who d b buf b' :
  b' <> b -> device_reads (disk_read who d b buf).1 b' = device_reads d b'.
Proof.
  intros Hne. unfold device_reads. simpl. rewrite filter_cons_False; [done|].
  simpl. rewrite bool_decide_eq_true. congruence.
Qed.

(** What a call that writes nothing does to a list that mirrors the
    device. *)
Lemma mirrors_kept r d o bc :
  (forall b, length (sector d b) = BLOCK_SIZE) ->
  reads_only o -> mirrors d bc ->
  exists bc' got,
    exec_of r o bc = Done bc' got
    /\ mirrors d bc'
    /\ match o with
       | Read b _ _ =>
           (exists buf, got = Some buf /\ take BLOCK_SIZE buf = sector d b)
           /\ forall b', b' ∈ nums (cache bc') <-> b' = b \/ b' ∈ nums (cache bc)
       | _ => bc' = bc
       end.
Proof.
  intros Hdev Ho (Hall & Hsec & Hreads).
  assert (Hready : Forall (fun blk => state blk = BLOCK_READY) (cache bc)).
  { eapply Forall_impl; [exact Hall|]. by intros blk [? _]. }
  assert (Hsector : forall b, sector (disk bc) b = sector d b).
  { intros b. unfold sector. by rewrite Hsec. }
  destruct o as [b out [junk|]|b p m| |]; try done.
  - rewrite exec_of_read.
    destruct (find_of r (cache bc) b) as [i|] eqn:Hf.
    + destruct (find_of_Some _ _ _ _ Hf) as (blk & Hi & Hb).
      rewrite Forall_lookup in Hall. destruct (Hall i blk Hi) as [Hs Hd].
      rewrite (read_of_ready _ _ _ _ _ _ _ Hf Hi Hs).
      eexists _, _. split; [reflexivity|]. split.
      { split; [by apply Forall_lookup|]. done. }
      split.
      * eexists. split; [reflexivity|].
        rewrite take_copied, Hd, Hb; [done|].
        assert (length (take BLOCK_SIZE (data blk)) = BLOCK_SIZE) as Hl
          by (rewrite Hd; apply Hdev).
        rewrite length_take in Hl. lia.
      * intros b'. simpl. split; [by right|].
        intros [->|?]; [|done]. by eapply find_of_elem.
    + rewrite (read_of_absent _ _ _ _ _ Hf).
      pose proof (find_of_ready_None _ _ _ Hready Hf) as Hnot.
      eexists _, _. split; [reflexivity|].
      assert (Htake : take BLOCK_SIZE (data (brought_in r (disk bc) b junk))
                      = sector d b).
      { unfold brought_in. rewrite take_fetched; simpl; rewrite Hsector; auto. }
      split.
      { split; [|split; [done|]].
        - simpl. constructor; [|done]. split; [done|]. exact Htake.
        - intros b'. cbn [disk cache incr_nreads set_disk set_cache].
          rewrite nums_cons.
          change (blocknum (brought_in r (disk bc) b junk)) with b.
          destruct (decide (b' = b)) as [->|Hne].
          + rewrite device_reads_disk_read, Hreads.
            rewrite decide_False by done.
            rewrite decide_True by (apply elem_of_cons; by left). lia.
          + rewrite device_reads_other by done. rewrite Hreads.
            destruct (decide (b' ∈ nums (cache bc))) as [Hin|Hin].
            * rewrite decide_True by (apply elem_of_cons; by right). done.
            * rewrite decide_False; [done|].
              intros [?|?]%elem_of_cons; done. }
      split.
      * eexists. split; [reflexivity|].
        rewrite take_copied, Htake; [done|].
        rewrite <- (Hdev b), <- Htake, length_take. lia.
      * intros b'. cbn [cache incr_nreads set_disk set_cache].
        by rewrite nums_cons, elem_of_cons.
  - assert (Hnd : Forall (fun blk => state blk <> BLOCK_DIRTY) (cache bc)).
    { eapply Forall_impl; [exact Hready|]. intros blk ->. discriminate. }
    exists bc, None. split; [|done].
    destruct r; simpl; unfold exec_with.
    + pose proof (bcache_sync_locked_returns bc) as H.
      unfold BcacheC.bcache_sync.
      destruct (bcache_sync_locked bc) as [bc1 []|bc1|bc1|]; try done.
      * by destruct H as [-> _].
      * exfalso. apply Exists_exists in H as (blk & Hin & Hs).
        rewrite Forall_forall in Hnd. by apply (Hnd blk).
    + pose proof (bcache_sync_locked_returns bc) as H.
      unfold XC.bcache_sync.
      destruct (bcache_sync_locked bc) as [bc1 []|bc1|bc1|]; try done.
      * by destruct H as [-> _].
      * exfalso. apply Exists_exists in H as (blk & Hin & Hs).
        rewrite Forall_forall in Hnd. by apply (Hnd blk).
    + unfold Part000.bcache_sync. rewrite sync_blocks_spec.
      rewrite (written_back_clean _ Hnd). unfold sectors_after.
      apply dirty_blocks_nil in Hnd. rewrite Hnd. simpl.
      by destruct bc as [[] ? ? ? ?].
  - exists bc, None. split; [|done].
    assert (Hq : Forall (fun blk => ~ pending blk) (cache bc)).
    { eapply Forall_impl; [exact Hready|]. unfold pending.
      intros blk -> [?|?]; discriminate. }
    assert (Hnd : Forall (fun blk => state blk <> BLOCK_DIRTY) (cache bc)).
    { eapply Forall_impl; [exact Hready|]. intros blk ->. discriminate. }
    destruct r; simpl; unfold exec_with.
    + unfold BcacheC.bcache_io_scheduler, bcache_io_scheduler_pass.
      rewrite (scheduler_scan_idle _ _ Hq). by destruct bc.
    + unfold XC.bcache_io_scheduler, bcache_io_scheduler_pass.
      rewrite (scheduler_scan_idle _ _ Hq). by destruct bc.
    + unfold Part000.bcache_io_scheduler.
      destruct (write_first_dirty_cases (disk bc) (cache bc))
        as [[_ ->]|(before & blk & after & Hc & _ & Hs & _)].
      * by destruct bc.
      * exfalso. rewrite Forall_forall in Hnd. apply (Hnd blk); [|done].
        rewrite Hc. apply elem_of_app. right. by apply elem_of_cons; left.
Qed.

Lemma reads_only_run r d ops : forall bc,
  (forall b, length (sector d b) = BLOCK_SIZE) ->
  Forall reads_only ops -> mirrors d bc ->
  exists t,
    run (exec_of r) ops bc = Some t
    /\ mirrors d (final t)
    /\ (read_results (exec_of r) ops bc).*1 = touched ops
    /\ Forall (fun res => take BLOCK_SIZE res.2 = sector d res.1)
         (read_results (exec_of r) ops bc)
    /\ forall b, b ∈ nums (cache (final t))
                 <-> b ∈ touched ops \/ b ∈ nums (cache bc).
Proof.
  induction ops as [|o ops IH]; intros bc Hdev Hops Hm.
  - eexists. split; [reflexivity|]. simpl. split; [done|]. split; [done|].
    split; [constructor|]. intros b. rewrite elem_of_nil. tauto.
  - inversion Hops as [|? ? Ho Hrest]; subst.
    destruct (mirrors_kept r d o bc Hdev Ho Hm) as (bc' & got & He & Hm' & Hres).
    destruct (IH bc' Hdev Hrest Hm') as (t & Hrun & Hmt & Hfst & Hall & Hin).
    simpl. rewrite He, Hrun. eexists. split; [reflexivity|].
    split; [by destruct o|].
    destruct o as [b out m| | |]; try done.
    + destruct Hres as [(buf & -> & Htake) Hnums].
      split; [by rewrite fmap_cons, Hfst|]. split; [by constructor|].
      intros b'. cbn [final count]. rewrite Hin, Hnums, elem_of_cons. tauto.
    + subst bc'. simpl. done.
    + subst bc'. simpl. done.
Qed.

(** X16: a cache that is only read from mirrors the device.  On a
    device whose blocks are 4096 bytes long, take a sequence of reads
    (with memory from [malloc]), syncs and scheduler passes on a cache
    object from [bcache_create].  In [bcache.c] and [part_000], whose
    [bcache_create] initialises [cache_lock], the sequence runs to its
    end.  In each of the three revisions, once the sequence has run to
    its end (in [x.c] its calls return only if [cache_lock], which
    [bcache_create] leaves uninitialised there, lets them pass): every
    read has handed its caller the 4096 bytes the device holds for the
    block asked for; the device has been read exactly once for each
    block number read, however often it was read, and its blocks are
    unchanged. *)
Theorem reads_come_from_the_device_once (r : revision) (d : struct_disk)
    (c : Z) (ops : list op) :
  (forall b, length (sector d b) = BLOCK_SIZE) ->
  Forall reads_only ops ->
  (r <> X_c -> is_Some (run (exec_of r) ops (fresh d c)))
  /\ forall t, run (exec_of r) ops (fresh d c) = Some t ->
       (read_results (exec_of r) ops (fresh d c)).*1 = touched ops
       /\ Forall (fun res => take BLOCK_SIZE res.2 = sector d res.1)
            (read_results (exec_of r) ops (fresh d c))
       /\ (forall b, device_reads (disk (final t)) b
                     = (device_reads d b
                        + if decide (b ∈ touched ops) then 1 else 0)%nat)
       /\ sectors (disk (final t)) = sectors d.
Proof.
  intros Hdev Hops.
  assert (Hm : mirrors d (fresh d c)).
  { split; [constructor|]. split; [done|]. intros b.
    cbn [disk cache fresh nums fmap list_fmap].
    rewrite decide_False by apply not_elem_of_nil. lia. }
  destruct (reads_only_run r d ops _ Hdev Hops Hm)
    as (t & Hrun & (_ & Hsec & Hreads) & Hfst & Hall & Hin).
  split; [intros _; by exists t|].
  intros t' Ht'. assert (t' = t) as -> by congruence.
  repeat (split; [done|]). split; [|done].
  intros b. rewrite Hreads.
  destruct (decide (b ∈ touched ops)) as [Ht|Ht].
  - rewrite decide_True; [done|]. apply Hin. by left.
  - rewrite decide_False; [done|]. rewrite Hin. simpl.
    rewrite elem_of_nil. tauto.
Qed.

(** ** Overlapping reads: the counter and the list *)

Lemma returned_insert (ts : list thread) i t t' :
  ts !! i = Some t -> th_pc t <> Returned ->
  length (filter (fun t => th_pc t = Returned) (<[i := t']> ts))
  = (length (filter (fun t => th_pc t = Returned) ts)
     + if decide (th_pc t' = Returned) then 1 else 0)%nat.
Proof.
  revert i. induction ts as [|x ts IH]; intros [|i] Hi Hne; simpl in *;
    try done.
  - injection Hi as ->. rewrite (filter_cons_False _ t) by done.
    destruct (decide (th_pc t' = Returned)).
    + rewrite filter_cons_True by done. simpl. lia.
    + rewrite filter_cons_False by done. lia.
  - destruct (decide (th_pc x = Returned)).
    + rewrite !filter_cons_True by done. simpl. by rewrite (IH i).
    + rewrite !filter_cons_False by done. by rewrite (IH i).
Qed.

Lemma returned_wake a (ts : list thread) :
  length (filter (fun t => th_pc t = Returned) (wake a <$> ts))
  = length (filter (fun t => th_pc t = Returned) ts).
Proof.
  induction ts as [|x ts IH]; [done|]. rewrite fmap_cons.
  assert (th_pc (wake a x) = Returned <-> th_pc x = Returned) as Hw.
  { unfold wake. destruct (decide _) as [[Hp _]|]; [|done].
    simpl. rewrite Hp. split; discriminate. }
  destruct (decide (th_pc x = Returned)) as [Hx|Hx].
  - rewrite !filter_cons_True by tauto. simpl. by rewrite IH.
  - rewrite !filter_cons_False by tauto. done.
Qed.

Lemma step_counts b i s s' :
  step b i s = Some s' ->
  nwrites (shared s') = nwrites (shared s)
  /\ memory_blocks (shared s') = memory_blocks (shared s)
  /\ sectors (disk (shared s')) = sectors (disk (shared s))
  /\ length (threads s') = length (threads s)
  /\ ((nreads (shared s') = nreads (shared s) /\ returned s' = returned s)
      \/ (nreads (shared s') = int_incr (nreads (shared s))
          /\ returned s' = S (returned s))).
Proof.
  unfold step. destruct (threads s !! i) as [t|] eqn:Hi; [|done].
  assert (Hwake : forall a, (wake a <$> threads s) !! i = Some (wake a t)).
  { intros a. by rewrite list_lookup_fmap, Hi. }
  destruct t as [p a dta jk]. simpl.
  destruct p; simpl;
    repeat match goal with
      | |- context [match ?x with _ => _ end] => destruct x eqn:?
      end;
    try done; intros [= <-]; unfold returned; simpl;
    rewrite ?length_insert, ?length_fmap;
    try (erewrite returned_insert; [|exact Hi|simpl; discriminate]);
    simpl; rewrite ?Nat.add_0_r; try (repeat split; try done; by left).
  - match goal with H : Part000.find_or_create_block _ _ _ = _ |- _ =>
      destruct (part000_find_or_create _ _ _ _ _ H)
        as (Hd & Hr & Hw & Hm & _)
    end.
    rewrite Hd. repeat split; try done. by left.
  - erewrite returned_insert; [|apply Hwake|unfold wake; simpl; discriminate].
    simpl. rewrite returned_wake, Nat.add_0_r.
    repeat split; try done. by left.
  - repeat split; try done. right. split; [done|lia].
Qed.

Lemma run_counts b sched : forall s,
  let s' := run_schedule b sched s in
  nwrites (shared s') = nwrites (shared s)
  /\ memory_blocks (shared s') = memory_blocks (shared s)
  /\ sectors (disk (shared s')) = sectors (disk (shared s))
  /\ length (threads s') = length (threads s)
  /\ (returned s <= returned s')%nat
  /\ nreads (shared s')
     = Nat.iter (returned s' - returned s) int_incr (nreads (shared s)).
Proof.
  induction sched as [|i sched IH]; intros s; simpl.
  - repeat (split; [done|]). by rewrite Nat.sub_diag.
  - destruct (step b i s) as [s1|] eqn:Hstep; [|apply IH].
    destruct (step_counts _ _ _ _ Hstep) as (Hw & Hm & Hs & Hl & Hcount).
    destruct (IH s1) as (Hw' & Hm' & Hs' & Hl' & Hle & Hr').
    simpl in *.
    split; [congruence|]. split; [congruence|]. split; [congruence|].
    split; [congruence|].
    destruct Hcount as [[Hr Hret]|[Hr Hret]].
    + rewrite Hret in *. split; [done|]. by rewrite Hr', Hr.
    + rewrite Hret in *. split; [lia|]. rewrite Hr', Hr.
      replace (returned (run_schedule b sched s1) - returned s)%nat
        with (S (returned (run_schedule b sched s1) - S (returned s)))
        by lia.
      by rewrite Nat.iter_succ_r.
Qed.

Lemma iter_int_incr n z :
  -2147483648 <= z -> z + Z.of_nat n <= INT_MAX ->
  Nat.iter n int_incr z = z + Z.of_nat n.
Proof.
  revert z. induction n as [|n IH]; intros z Hlo Hhi.
  - simpl. lia.
  - rewrite Nat.iter_succ_r. unfold int_incr at 2.
    rewrite (wrap_int_small (z + 1)) by (unfold INT_MAX in *; lia).
    rewrite IH by lia. lia.
Qed.

Lemma returned_start bc callers : returned (start bc callers) = 0%nat.
Proof.
  unfold returned, start. simpl.
  induction callers as [|c callers IH]; [done|]. rewrite fmap_cons.
  by rewrite filter_cons_False.
Qed.

Lemma returned_all s :
  all_returned s -> returned s = length (threads s).
Proof.
  unfold all_returned, returned.
  induction 1 as [|t ts Ht Hts IH]; [done|].
  rewrite filter_cons_True by done. simpl. by rewrite IH.
Qed.

(** X17: overlapping calls of [bcache_read] in [part_000] count
    themselves exactly.  Whatever the schedule and whether or not the
    block is in the list, as long as the count fits an [int] the read
    counter is its value at the start plus the number of callers that
    have returned, so plus the number of callers once all have; the
    write counter, the capacity and the blocks of the device are never
    changed. *)
Theorem overlapping_reads_count_exactly (bc : bcache) (b : Z)
    (callers : list (list byte * list byte)) (sched : list nat) :
  -2147483648 <= bcache_nreads bc ->
  bcache_nreads bc + Z.of_nat (length callers) <= INT_MAX ->
  let s := run_schedule b sched (start bc callers) in
  bcache_nreads (shared s) = bcache_nreads bc + Z.of_nat (returned s)
  /\ (all_returned s ->
      bcache_nreads (shared s) = bcache_nreads bc + Z.of_nat (length callers))
  /\ bcache_nwrites (shared s) = bcache_nwrites bc
  /\ bcache_memory_blocks (shared s) = bcache_memory_blocks bc
  /\ sectors (disk (shared s)) = sectors (disk bc).
Proof.
  intros Hlo Hhi s.
  destruct (run_counts b sched (start bc callers))
    as (Hw & Hm & Hs & Hl & Hle & Hr).
  fold s in Hw, Hm, Hs, Hl, Hle, Hr.
  rewrite returned_start, Nat.sub_0_r in Hr. simpl in Hw, Hm, Hs, Hl, Hr.
  rewrite length_fmap in Hl.
  assert (Hbound : (returned s <= length callers)%nat).
  { unfold returned. rewrite <- Hl. apply length_filter. }
  assert (Hcount : bcache_nreads (shared s)
                   = bcache_nreads bc + Z.of_nat (returned s)).
  { unfold bcache_nreads in *. rewrite Hr. apply iter_int_incr; lia. }
  split; [done|]. split; [|done].
  intros Hall. rewrite Hcount, (returned_all _ Hall), Hl. done.
Qed.


(** X18: overlapping calls of [bcache_read] in [part_000] for a block
    number that is not in the list put one block for it in the list, not
    one for each caller.  Under every schedule the list is the list at
    the start, with at most one block, of that number, before it; the
    blocks that were there are not touched, and no two blocks of one
    number appear.  Once all callers have returned (there being at least
    one), the new block is ready and holds the device's 4096 bytes. *)
Theorem overlapping_reads_add_one_block (bc : bcache) (b : Z)
    (callers : list (list byte * list byte)) (sched : list nat) :
  Part000.find_from (cache bc) b = None ->
  length (sector (disk bc) b) = BLOCK_SIZE ->
  let s := run_schedule b sched (start bc callers) in
  (cache (shared s) = cache bc
   \/ exists blk, blocknum blk = b /\ cache (shared s) = blk :: cache bc)
  /\ (NoDup (nums (cache bc)) -> NoDup (nums (cache (shared s))))
  /\ (all_returned s -> callers <> [] ->
      exists blk,
        cache (shared s) = blk :: cache bc /\ blocknum blk = b
        /\ state blk = BLOCK_READY
        /\ take BLOCK_SIZE (data blk) = sector (disk bc) b).
Proof.
  intros Habsent Hlen s.
  destruct (run_inv (cache bc) b _ _ Habsent Hlen sched _ _
              (start_inv bc b callers)) as [v Hinv].
  fold s in Hinv.
  destruct Hinv as [Hcache _ Hview Hth _ _ _ _ _ _].
  assert (Hshape : cache (shared s) = cache bc
                   \/ exists blk, blocknum blk = b
                                  /\ cache (shared s) = blk :: cache bc).
  { destruct v as [blk|]; simpl in *; [|by left].
    right. exists blk. by destruct Hview. }
  split; [done|]. split.
  - intros Hnd. destruct Hshape as [->|(blk & Hb & ->)]; [done|].
    rewrite nums_cons. apply NoDup_cons. split; [|done].
    rewrite Hb. by apply find_from_not_elem.
  - intros Hall Hne.
    destruct (run_counts b sched (start bc callers)) as (_ & _ & _ & Hl & _).
    fold s in Hl. simpl in Hl. rewrite length_fmap in Hl.
    destruct (threads s) as [|t ts] eqn:Hts.
    { destruct callers; [done|simpl in Hl; lia]. }
    unfold all_returned in Hall. rewrite Hts in Hall.
    apply Forall_cons in Hall as [Hret _].
    destruct (Hth 0%nat t eq_refl) as (_ & _ & _ & Hv).
    destruct v as [blk|]; [|by rewrite Hret in Hv].
    destruct Hv as [_ Hpc]. unfold pc_ok in Hpc. rewrite Hret in Hpc.
    destruct Hpc as [Hready _]. simpl in Hcache, Hview.
    destruct Hview as [Hb Hview]. rewrite Hready in Hview.
    exists blk. by destruct Hview.
Qed.

(** ** The properties on concrete inputs *)

Lemma add_block_to_cache_then_read_witness :
  length bytes_A = BLOCK_SIZE
  /\ find_block (add_block_to_cache (Some zero_block) (fresh disk10 2) 5 bytes_A)
       5 = Some 0%nat.
Proof.
  split; [exact length_bytes_A|].
  exact (proj1 (proj2 (add_block_to_cache_then_read zero_block None
                         (fresh disk10 2) 5 bytes_A zero_block
                         length_bytes_A))).
Defined.

Lemma read_again_from_memory_witness :
  exists bc1 got blk,
    read_of X_c (Some bytes_A) (fresh disk10 2) 5 zero_block = Done bc1 got
    /\ entry (find_of X_c) (cache bc1) 5 = Some blk
    /\ read_of X_c None bc1 5 bytes_A
       = Done (incr_nreads bc1) (memcpy bytes_A (data blk) BLOCK_SIZE).
Proof.
  pose proof (read_of_absent X_c bytes_A (fresh disk10 2) 5 zero_block eq_refl)
    as Hread.
  destruct (proj1 (read_again_from_memory X_c (Some bytes_A) None
                     (fresh disk10 2) 5 zero_block bytes_A) _ _ Hread)
    as (blk & Hentry & _ & _ & Hagain).
  eexists _, _, blk. split; [exact Hread|]. split; [exact Hentry|exact Hagain].
Defined.


Lemma part000_sync_persists_witness :
  NoDup (nums (cache two_blocks))
  /\ exists bc',
       Part000.bcache_sync two_blocks = Done bc' tt
       /\ sector (disk bc') 0 = take BLOCK_SIZE zero_block.
Proof.
  assert (Hnd : NoDup (nums (cache two_blocks))).
  { apply NoDup_cons. split; [|apply NoDup_singleton].
    intros Hin. apply list_elem_of_singleton in Hin. discriminate. }
  split; [exact Hnd|].
  destruct (Part000.bcache_sync two_blocks) as [bc' []| | |] eqn:Hs;
    try (vm_compute in Hs; discriminate).
  exists bc'. split; [reflexivity|].
  refine (proj1 (part000_sync_persists two_blocks bc'
                   {| blocknum := 0; state := BLOCK_DIRTY; data := zero_block |}
                   Hnd _ eq_refl Hs)).
  apply elem_of_cons. right. apply elem_of_cons. by left.
Defined.

Lemma part000_sync_twice_witness :
  exists bc1,
    Part000.bcache_sync two_blocks = Done bc1 tt
    /\ Part000.bcache_sync bc1 = Done bc1 tt
    /\ Part000.bcache_io_scheduler bc1 = bc1.
Proof.
  destruct (Part000.bcache_sync two_blocks) as [bc1 []| | |] eqn:Hs;
    try (vm_compute in Hs; discriminate).
  exists bc1. split; [reflexivity|].
  exact (part000_sync_twice two_blocks bc1 Hs).
Defined.

Lemma part000_scheduler_drains_witness :
  (length (dirty_blocks (cache two_blocks)) <= 3)%nat
  /\ Forall (fun blk => state blk <> BLOCK_DIRTY)
       (cache (scheduler_turns 3 two_blocks)).
Proof.
  assert (Hlen : (length (dirty_blocks (cache two_blocks)) <= 3)%nat)
    by (vm_compute; lia).
  split; [exact Hlen|].
  destruct (part000_scheduler_drains two_blocks 3 Hlen)
    as (synced & _ & _ & _ & _ & Hclean).
  exact Hclean.
Defined.

Lemma part000_write_sync_read_witness :
  length bytes_A = BLOCK_SIZE /\ NoDup (nums (cache (fresh disk10 2)))
  /\ exists bc1 bc2 got,
       Part000.bcache_write (Some zero_block) (fresh disk10 2) 0 bytes_A
       = Done bc1 tt
       /\ Part000.bcache_sync bc1 = Done bc2 tt
       /\ Part000.bcache_read None bc2 0 zero_block = Done (incr_nreads bc2) got
       /\ take BLOCK_SIZE got = bytes_A
       /\ sector (disk bc2) 0 = bytes_A.
Proof.
  split; [exact length_bytes_A|]. split; [apply NoDup_nil_2|].
  exact (part000_write_sync_read zero_block None (fresh disk10 2) 0 bytes_A
           zero_block length_bytes_A (NoDup_nil_2 : NoDup (nums []))).
Defined.

Lemma read_frame_witness :
  exists bc1 got,
    read_of Bcache_c (Some zero_block) two_blocks 5 zero_block = Done bc1 got
    /\ entry (find_of Bcache_c) (cache bc1) 0
       = entry (find_of Bcache_c) (cache two_blocks) 0
    /\ sectors (disk bc1) = sectors (disk two_blocks).
Proof.
  pose proof (read_of_absent Bcache_c zero_block two_blocks 5 zero_block
                eq_refl) as Hread.
  assert (Hne : 0 <> 5) by lia.
  destruct (read_frame Bcache_c _ _ _ 5 0 _ _ Hread Hne)
    as (Hentry & Hsec & _).
  eexists _, _. split; [exact Hread|]. split; [exact Hentry|exact Hsec].
Defined.

Lemma bcachec_xc_never_write_the_device_witness :
  exists t,
    run (exec_of Bcache_c) writes_and_reads (fresh disk10 2) = Some t
    /\ writes_done t = 2
    /\ sectors (disk (final t)) = sectors disk10.
Proof.
  destruct (run (exec_of Bcache_c) writes_and_reads (fresh disk10 2))
    as [t|] eqn:Hrun; [|vm_compute in Hrun; discriminate].
  exists t. split; [reflexivity|]. split.
  - pose proof Hrun as Hc. vm_compute in Hc. injection Hc as <-. reflexivity.
  - exact (proj1 (bcachec_xc_never_write_the_device Bcache_c disk10 2
                    writes_and_reads t (or_introl eq_refl) Hrun)).
Defined.

Lemma reads_come_from_the_device_once_witness :
  (forall b, length (sector disk10 b) = BLOCK_SIZE)
  /\ Forall reads_only reads_3_3_4
  /\ exists t,
       run (exec_of Part_000) reads_3_3_4 (fresh disk10 2) = Some t
       /\ device_reads (disk (final t)) 3 = 1%nat
       /\ device_reads (disk (final t)) 5 = 0%nat.
Proof.
  assert (Hdev : forall b, length (sector disk10 b) = BLOCK_SIZE).
  { intros b. unfold sector. simpl. rewrite lookup_empty.
    exact length_zero_block. }
  assert (Hops : Forall reads_only reads_3_3_4) by (repeat constructor).
  split; [exact Hdev|]. split; [exact Hops|].
  destruct (reads_come_from_the_device_once Part_000 disk10 2 reads_3_3_4
              Hdev Hops) as [Hsome Hafter].
  destruct (Hsome ltac:(discriminate)) as [t Hrun].
  destruct (Hafter t Hrun) as (_ & _ & Hreads & _).
  exists t. split; [exact Hrun|]. split.
  - rewrite (Hreads 3). reflexivity.
  - rewrite (Hreads 5). reflexivity.
Defined.

Lemma overlapping_reads_count_exactly_witness :
  -2147483648 <= bcache_nreads (fresh disk10 2)
  /\ bcache_nreads (fresh disk10 2) + Z.of_nat (length three_callers) <= INT_MAX
  /\ bcache_nreads
       (shared (run_schedule 5 turns_to_the_end (start (fresh disk10 2) three_callers)))
     = 3.
Proof.
  assert (Hlo : -2147483648 <= bcache_nreads (fresh disk10 2)) by (simpl; lia).
  assert (Hhi : bcache_nreads (fresh disk10 2)
                + Z.of_nat (length three_callers) <= INT_MAX)
    by (unfold INT_MAX; simpl; lia).
  split; [exact Hlo|]. split; [exact Hhi|].
  destruct (overlapping_reads_count_exactly (fresh disk10 2) 5 three_callers
              turns_to_the_end Hlo Hhi) as (_ & Hall & _).
  rewrite Hall; [reflexivity|].
  unfold all_returned. vm_compute. repeat constructor.
Defined.

Lemma overlapping_reads_add_one_block_witness :
  Part000.find_from (cache (fresh disk10 2)) 5 = None
  /\ length (sector (disk (fresh disk10 2)) 5) = BLOCK_SIZE
  /\ exists blk,
       cache (shared (run_schedule 5 turns_to_the_end
                        (start (fresh disk10 2) three_callers)))
       = [blk]
       /\ state blk = BLOCK_READY.
Proof.
  split; [reflexivity|]. split; [exact length_zero_block|].
  destruct (overlapping_reads_add_one_block (fresh disk10 2) 5 three_callers
              turns_to_the_end eq_refl length_zero_block) as (_ & _ & Hall).
  destruct Hall as (blk & Hc & _ & Hs & _).
  - unfold all_returned. vm_compute. repeat constructor.
  - discriminate.
  - exists blk. split; [exact Hc|exact Hs].
Defined.

(** ** Overlapping reads of one block in [x.c] *)

Import XReaders.

Lemma at_addr_lookup (l : list block) idx a blk :
  l !! idx = Some blk -> address l idx = a -> at_addr l a = blk.
Proof.
  intros Hi Ha. pose proof (lookup_lt_Some _ _ _ Hi) as Hlt.
  unfold at_addr, address in *.
  replace (length l - S a)%nat with idx by lia. by apply deref_lookup.
Qed.

Lemma store_addr_lookup (f : block -> block) (l : list block) idx a blk :
  l !! idx = Some blk -> address l idx = a ->
  store_addr f a l = <[idx := f blk]> l.
Proof.
  intros Hi Ha. pose proof (lookup_lt_Some _ _ _ Hi) as Hlt.
  unfold store_addr, address in *.
  replace (length l - S a)%nat with idx by lia. by apply alter_as_insert.
Qed.

Lemma address_insert (l : list block) idx j blk :
  address (<[j := blk]> l) idx = address l idx.
Proof. unfold address. by rewrite length_insert. Qed.

Lemma xthreads_insert_owner (ts : list thread) i (t' : thread) j :
  is_Some (ts !! j) -> is_Some (<[i := t']> ts !! j).
Proof.
  intros H. apply lookup_lt_is_Some. rewrite length_insert.
  by apply lookup_lt_is_Some.
Qed.

Section XcReaders.
Variable l0 : list block.
Variable b : Z.
Variable a r0 : nat.
Variable sec : list byte.
Variable miss : bool.
Hypothesis sec_length : length sec = BLOCK_SIZE.
Hypothesis miss_addr : miss = true -> a = length l0.

Lemma xstep_inv_gen s v i t t' s' v' :
  Inv l0 b a r0 sec miss s v ->
  threads s !! i = Some t ->
  threads s' = <[i := t']> (threads s) ->
  cache (shared s')
  = (if miss then from_option (fun blk => blk :: l0) l0 v' else l0) ->
  (miss = true -> sector (disk (shared s')) b = sec) ->
  view_ok b a r0 sec miss s' v' ->
  thread_ok b a r0 sec s' v' i t' ->
  (forall j tj, j <> i -> threads s !! j = Some tj ->
     thread_ok b a r0 sec s v j tj -> thread_ok b a r0 sec s' v' j tj) ->
  (forall j, cache_lock s' = Some j -> j = i \/ cache_lock s = Some j) ->
  (forall j, disk_lock s' = Some j -> j = i \/ disk_lock s = Some j) ->
  (forall j, blk_lock s' !! a = Some j -> j = i \/ blk_lock s !! a = Some j) ->
  Inv l0 b a r0 sec miss s' v'.
Proof.
  intros [Hshape Hsec Hview Hth Oc Od Ob] Hi Hts Hshape' Hsec' Hview' Hnew
    Hothers Hc Hd Hb.
  assert (Hlt : is_Some (threads s' !! i)).
  { rewrite Hts. apply xthreads_insert_owner. by exists t. }
  split; try done.
  - rewrite Hts. intros j tj Hj.
    destruct (decide (j = i)) as [->|Hne].
    + rewrite list_lookup_insert_eq in Hj by by eapply lookup_lt_Some.
      by injection Hj as <-.
    + rewrite list_lookup_insert_ne in Hj by done.
      apply Hothers; [done|done|by apply Hth].
  - intros j Hj. destruct (Hc j Hj) as [->|Hj']; [done|].
    rewrite Hts. apply xthreads_insert_owner. auto.
  - intros j Hj. destruct (Hd j Hj) as [->|Hj']; [done|].
    rewrite Hts. apply xthreads_insert_owner. auto.
  - intros j Hj. destruct (Hb j Hj) as [->|Hj']; [done|].
    rewrite Hts. apply xthreads_insert_owner. auto.
Qed.

Lemma xtake_of_memcpy (out d : list byte) :
  take BLOCK_SIZE d = sec -> take BLOCK_SIZE (memcpy out d BLOCK_SIZE) = sec.
Proof.
  intros H. unfold memcpy. rewrite H.
  rewrite take_app_le by lia. apply take_ge. lia.
Qed.

Ltac xsolve_thread :=
  unfold thread_ok, pc_ok in *; simpl in *;
  rewrite ?lookup_insert_eq, ?lookup_delete_eq in *;
  repeat match goal with
  | H : _ /\ _ |- _ => destruct H
  end;
  repeat split; intros;
  repeat match goal with
  | H : true = true -> _ |- _ => specialize (H eq_refl)
  | H : ?x = ?x -> _ |- _ => specialize (H eq_refl)
  | H : _ <-> _ |- _ => destruct H
  end;
  try done; try congruence; try (intuition congruence).

Ltac xsolve_others :=
  let j := fresh "j" in let pj := fresh "pj" in
  intros j [pj ? ?] ? ? ?; destruct pj; xsolve_thread.

Ltac xsolve_owner :=
  let j := fresh "j" in let H := fresh "H" in
  simpl; intros j H;
  rewrite ?lookup_insert_eq, ?lookup_delete_eq in H;
  first [by left; congruence | by right | done].

(** What is known of a thread that has its [blk]. *)
Lemma xhas_blk s v i t :
  Inv l0 b a r0 sec miss s v -> threads s !! i = Some t ->
  has_blk (th_pc t) = true ->
  exists blk idx,
    v = Some blk /\ th_blk t = a /\ blocknum blk = b
    /\ find_block (shared s) b = Some idx
    /\ cache (shared s) !! idx = Some blk
    /\ address (cache (shared s)) idx = a
    /\ at_addr (cache (shared s)) a = blk
    /\ (state blk = BLOCK_READING \/ state blk = BLOCK_READY)
    /\ pc_ok r0 sec (device_reads (disk (shared s)) b) blk t.
Proof.
  intros [Hshape Hsec Hview Hth Oc Od Ob] Hi Hp.
  destruct (Hth i t Hi) as (_ & _ & _ & Hv).
  destruct v as [blk|]; [|congruence].
  destruct Hv as [Ha Hpc]. destruct Hview as (Hb & (idx & Hf & Hl & Haddr) & Hst).
  exists blk, idx. repeat (split; [by auto|]).
  split; [by eapply at_addr_lookup|]. split; [|done].
  destruct (state blk); try done; auto.
Qed.

Lemma xno_waiting s v :
  Inv l0 b a r0 sec miss s v ->
  forall j tj, threads s !! j = Some tj ->
               th_pc tj <> Waiting /\ th_pc tj <> Woken.
Proof.
  intros Hinv j tj Hj.
  destruct (has_blk (th_pc tj)) eqn:Hp.
  - destruct (xhas_blk s v j tj Hinv Hj Hp) as (blk & idx & _ & _ & _ & _ & _ & _ & _ & _ & Hpc).
    unfold pc_ok in Hpc. destruct (th_pc tj); done.
  - destruct (th_pc tj); done.
Qed.

Lemma xwake_id s v :
  Inv l0 b a r0 sec miss s v -> wake a <$> threads s = threads s.
Proof.
  intros Hinv. apply list_eq. intros j. rewrite list_lookup_fmap.
  destruct (threads s !! j) as [tj|] eqn:Hj; [|done]. simpl.
  destruct (xno_waiting s v Hinv j tj Hj) as [Hw _].
  unfold wake. by rewrite decide_False by tauto.
Qed.

(** The view of a block that a store changes. *)
Lemma xview_store (f : block -> block) s s' blk :
  view_ok b a r0 sec miss s (Some blk) ->
  cache (shared s') = store_addr f a (cache (shared s)) ->
  blocknum (f blk) = blocknum blk -> state (f blk) <> BLOCK_FREE ->
  match state (f blk) with
  | BLOCK_READING =>
      miss = true /\ (device_reads (disk (shared s')) b = r0
                      \/ is_Some (blk_lock s' !! a))
  | BLOCK_READY =>
      device_reads (disk (shared s')) b = (if miss then S r0 else r0)
      /\ take BLOCK_SIZE (data (f blk)) = sec
  | _ => False
  end ->
  view_ok b a r0 sec miss s' (Some (f blk)).
Proof.
  intros (Hb & (idx & Hf & Hl & Ha) & _) Hc Hn Hs Hst.
  split; [congruence|]. split; [|done].
  exists idx. unfold find_block in *.
  rewrite Hc, (store_addr_lookup _ _ _ _ _ Hl Ha).
  split; [apply find_block_from_insert; [congruence|done|done]|].
  split; [apply list_lookup_insert_eq; by eapply lookup_lt_Some|].
  by rewrite address_insert.
Qed.

Lemma xshape_store (f : block -> block) s blk :
  Inv l0 b a r0 sec miss s (Some blk) -> miss = true ->
  store_addr f a (cache (shared s))
  = (if miss then from_option (fun blk => blk :: l0) l0 (Some (f blk)) else l0).
Proof.
  intros [Hshape _ _ _ _ _ _] Hm. rewrite Hshape, Hm. simpl.
  rewrite (miss_addr Hm). apply store_addr_head.
Qed.

Lemma xstep_inv s v i s' :
  Inv l0 b a r0 sec miss s v -> step b i s = Some s' ->
  exists v', Inv l0 b a r0 sec miss s' v'.
Proof.
  intros Hinv Hstep.
  pose proof Hinv as [Hshape Hsec Hview Hth Oc Od Ob].
  unfold step in Hstep.
  destruct (threads s !! i) as [t|] eqn:Hi; [|done].
  pose proof (Hth i t Hi) as Hti.
  pose proof (xhas_blk s v i t Hinv Hi) as Hblk.
  destruct s as [bc cl dl bl ts]. destruct t as [p ab out].
  simpl in *.
  destruct p; simpl in Hstep;
    try (destruct (Hblk eq_refl)
           as (blk & idx & -> & -> & Hb & Hf & Hl & Ha & Hat & Hst & Hpc);
         unfold pc_ok in Hpc; simpl in Hpc; rewrite ?Hat in Hstep).
  - (* Lock_cache *)
    destruct cl as [k|]; [done|]. injection Hstep as <-.
    exists v. eapply (xstep_inv_gen _ _ _ _ _ _ v Hinv Hi);
      [reflexivity|done|done|done|xsolve_thread|xsolve_others
      |xsolve_owner|xsolve_owner|xsolve_owner].
  - (* Find *)
    destruct v as [blk|]; simpl in Hview.
    + pose proof Hview as (Hb & (idx & Hf & Hl & Ha) & Hst).
      rewrite Hf in Hstep. injection Hstep as <-. rewrite Ha.
      exists (Some blk). eapply (xstep_inv_gen _ _ _ _ _ _ _ Hinv Hi);
        [reflexivity|done|done|exact Hview|xsolve_thread|xsolve_others
        |xsolve_owner|xsolve_owner|xsolve_owner].
    + destruct Hview as (Hm & Hr & Hf & Hlen).
      rewrite Hf in Hstep. injection Hstep as <-.
      rewrite address_head, Hlen.
      exists (Some {| blocknum := b; state := BLOCK_READING;
                      data := zero_block |}).
      eapply (xstep_inv_gen _ _ _ _ _ _ _ Hinv Hi);
        [reflexivity| | | |xsolve_thread|xsolve_others
        |xsolve_owner|xsolve_owner|xsolve_owner].
      * simpl. rewrite Hshape, Hm. done.
      * done.
      * simpl. split; [done|]. split.
        { exists 0%nat. unfold find_block. simpl.
          rewrite decide_True by done. split; [done|]. split; [done|].
          by rewrite address_head. }
        split; [done|by left].
  - (* Unlock_cache *)
    injection Hstep as <-.
    exists (Some blk). eapply (xstep_inv_gen _ _ _ _ _ _ _ Hinv Hi);
      [reflexivity|done|done|done|xsolve_thread|xsolve_others
      |xsolve_owner|xsolve_owner|xsolve_owner].
  - (* Lock_blk *)
    destruct (bl !! a) as [k|] eqn:Hbl; [done|]. injection Hstep as <-.
    exists (Some blk). eapply (xstep_inv_gen _ _ _ _ _ _ _ Hinv Hi);
      [reflexivity|done|done| | |xsolve_others
      |xsolve_owner|xsolve_owner|xsolve_owner].
    + destruct Hview as (Hb' & Hidx & Hv). split; [done|]. split; [done|].
      simpl. destruct (state blk); try done.
      destruct Hv as [Hm _]. split; [done|]. right.
      rewrite lookup_insert_eq. by eexists.
    + destruct Hview as (_ & _ & Hv). xsolve_thread.
      match goal with H : state blk = BLOCK_READING |- _ => rewrite H in Hv end.
      destruct Hv as [_ [?|[? ?]]]; [done|congruence].
  - (* Test_reading *)
    destruct (decide _) as [Hrd|Hrd]; injection Hstep as <-.
    + exists (Some blk). eapply (xstep_inv_gen _ _ _ _ _ _ _ Hinv Hi);
        [reflexivity|done|done|done|xsolve_thread|xsolve_others
        |xsolve_owner|xsolve_owner|xsolve_owner].
    + assert (Hready : state blk = BLOCK_READY) by (by destruct Hst).
      exists (Some blk). eapply (xstep_inv_gen _ _ _ _ _ _ _ Hinv Hi);
        [reflexivity|done|done|done|xsolve_thread|xsolve_others
        |xsolve_owner|xsolve_owner|xsolve_owner].
  - (* Lock_disk *)
    destruct dl as [k|]; [done|]. injection Hstep as <-.
    exists (Some blk). eapply (xstep_inv_gen _ _ _ _ _ _ _ Hinv Hi);
      [reflexivity|done|done|done|xsolve_thread|xsolve_others
      |xsolve_owner|xsolve_owner|xsolve_owner].
  - (* Do_read *)
    injection Hstep as <-. destruct Hpc as [Hrd Hr].
    assert (Hm : miss = true).
    { destruct Hview as (_ & _ & Hv). rewrite Hrd in Hv. by destruct Hv. }
    pose proof (device_reads_disk_read In_read (disk bc) b (data blk)) as Hr'.
    simpl in Hr'. rewrite Hr in Hr'.
    assert (Hbuf : take BLOCK_SIZE (memcpy (data blk) (sector (disk bc) b)
                                      BLOCK_SIZE) = sec).
    { rewrite (Hsec Hm). by apply take_memcpy. }
    assert (Hown : bl !! a = Some i) by xsolve_thread.
    exists (Some (set_data (memcpy (data blk) (sector (disk bc) b) BLOCK_SIZE)
                    blk)).
    eapply (xstep_inv_gen _ _ _ _ _ _ _ Hinv Hi);
      [reflexivity| | | |xsolve_thread|xsolve_others
      |xsolve_owner|xsolve_owner|xsolve_owner].
    + simpl. by apply (xshape_store _ _ _ Hinv).
    + simpl. auto.
    + eapply (xview_store _ _ _ _ Hview); [reflexivity|done| |].
      * simpl. rewrite Hrd. discriminate.
      * simpl. rewrite Hrd. split; [done|]. right. by eexists.
  - (* Unlock_disk *)
    injection Hstep as <-.
    exists (Some blk). eapply (xstep_inv_gen _ _ _ _ _ _ _ Hinv Hi);
      [reflexivity|done|done|done|xsolve_thread|xsolve_others
      |xsolve_owner|xsolve_owner|xsolve_owner].
  - (* Set_ready *)
    injection Hstep as <-. destruct Hpc as (Hrd & Hr & Hdata).
    assert (Hm : miss = true).
    { destruct Hview as (_ & _ & Hv). rewrite Hrd in Hv. by destruct Hv. }
    exists (Some (set_state BLOCK_READY blk)).
    eapply (xstep_inv_gen _ _ _ _ _ _ _ Hinv Hi);
      [reflexivity| | | |xsolve_thread|xsolve_others
      |xsolve_owner|xsolve_owner|xsolve_owner].
    + simpl. by apply (xshape_store _ _ _ Hinv).
    + simpl. auto.
    + eapply (xview_store _ _ _ _ Hview); [reflexivity|done|done|].
      simpl. by rewrite Hm.
  - (* Broadcast *)
    injection Hstep as <-.
    pose proof (xwake_id _ _ Hinv) as Hw. simpl in Hw. rewrite Hw.
    exists (Some blk). eapply (xstep_inv_gen _ _ _ _ _ _ _ Hinv Hi);
      [reflexivity|done|done|done|xsolve_thread|xsolve_others
      |xsolve_owner|xsolve_owner|xsolve_owner].
  - (* Test_ready *)
    rewrite decide_True in Hstep by done. injection Hstep as <-.
    exists (Some blk). eapply (xstep_inv_gen _ _ _ _ _ _ _ Hinv Hi);
      [reflexivity|done|done|done|xsolve_thread|xsolve_others
      |xsolve_owner|xsolve_owner|xsolve_owner].
  - (* Waiting *)
    done.
  - (* Woken *)
    done.
  - (* Copy *)
    injection Hstep as <-.
    assert (Hdata : take BLOCK_SIZE (memcpy out (data blk) BLOCK_SIZE) = sec).
    { apply xtake_of_memcpy. destruct Hview as (_ & _ & Hv).
      rewrite Hpc in Hv. by destruct Hv. }
    exists (Some blk). eapply (xstep_inv_gen _ _ _ _ _ _ _ Hinv Hi);
      [reflexivity|done|done|done|xsolve_thread|xsolve_others
      |xsolve_owner|xsolve_owner|xsolve_owner].
  - (* Unlock_blk *)
    injection Hstep as <-. destruct Hpc as [Hrd Hdata].
    exists (Some blk). eapply (xstep_inv_gen _ _ _ _ _ _ _ Hinv Hi);
      [reflexivity|done|done| |xsolve_thread|xsolve_others
      |xsolve_owner|xsolve_owner|xsolve_owner].
    destruct Hview as (Hb' & Hidx & Hv). split; [done|]. split; [done|].
    simpl. by rewrite Hrd in Hv |- *.
  - (* Count *)
    injection Hstep as <-.
    exists (Some blk). eapply (xstep_inv_gen _ _ _ _ _ _ _ Hinv Hi);
      [reflexivity|done|done|done|xsolve_thread|xsolve_others
      |xsolve_owner|xsolve_owner|xsolve_owner].
  - (* Returned *)
    done.
Qed.

Lemma xready_to_run_steps s i t :
  threads s !! i = Some t -> ready_to_run (th_pc t) = true ->
  is_Some (step b i s).
Proof.
  intros Hi Hp. unfold step. rewrite Hi.
  destruct t as [p ab out]. simpl in *.
  destruct p; try done; try (simpl; by eexists).
  - destruct (find_block (shared s) b); simpl; by eexists.
  - destruct (decide _); by eexists.
  - destruct (decide _); by eexists.
Qed.

(** No deadlock: when no thread can execute a statement, every thread
    has returned. *)
Lemma xstuck_all_returned s v :
  Inv l0 b a r0 sec miss s v -> stuck b s -> all_returned s.
Proof.
  intros Hinv Hstuck.
  pose proof Hinv as [Hshape Hsec Hview Hth Oc Od Ob].
  assert (Hnone : forall j t, threads s !! j = Some t ->
                              ready_to_run (th_pc t) = false).
  { intros j t Hj. destruct (ready_to_run (th_pc t)) eqn:Hr; [|done].
    destruct (xready_to_run_steps s j t Hj Hr) as [s' Hs'].
    by rewrite Hstuck in Hs'. }
  assert (Hcl : cache_lock s = None).
  { destruct (cache_lock s) as [j|] eqn:Hl; [|done].
    destruct (Oc j eq_refl) as [t Hj].
    destruct (Hth j t Hj) as ([_ Hh] & _). specialize (Hh Hl).
    pose proof (Hnone j t Hj). by destruct (th_pc t). }
  assert (Hdl : disk_lock s = None).
  { destruct (disk_lock s) as [j|] eqn:Hl; [|done].
    destruct (Od j eq_refl) as [t Hj].
    destruct (Hth j t Hj) as (_ & [_ Hh] & _). specialize (Hh Hl).
    pose proof (Hnone j t Hj). by destruct (th_pc t). }
  assert (Hbl : blk_lock s !! a = None).
  { destruct (blk_lock s !! a) as [j|] eqn:Hl; [|done].
    destruct (Ob j eq_refl) as [t Hj].
    destruct (Hth j t Hj) as (_ & _ & [_ Hh] & _). specialize (Hh Hl).
    pose proof (Hnone j t Hj) as Hr.
    pose proof (Hstuck j) as Hs. unfold step in Hs. rewrite Hj in Hs.
    destruct t as [p ab out]. simpl in *.
    destruct p; try done. by rewrite Hdl in Hs. }
  apply Forall_lookup. intros j t Hj.
  pose proof (Hnone j t Hj) as Hr.
  pose proof (Hstuck j) as Hs. unfold step in Hs. rewrite Hj in Hs.
  destruct (xno_waiting s v Hinv j t Hj) as [Hnw Hnk].
  pose proof (xhas_blk s v j t Hinv Hj) as Hblk.
  destruct t as [p ab out]. simpl in *.
  destruct p; try done.
  - by rewrite Hcl in Hs.
  - destruct (Hblk eq_refl) as (blk & idx & _ & -> & _).
    by rewrite Hbl in Hs.
  - by rewrite Hdl in Hs.
Qed.

Lemma xsum_rank_insert (ts : list thread) i t t' :
  ts !! i = Some t ->
  (rank (th_pc t') < rank (th_pc t))%nat ->
  (sum_list ((fun t => rank (th_pc t)) <$> <[i := t']> ts)
   < sum_list ((fun t => rank (th_pc t)) <$> ts))%nat.
Proof.
  intros Hi Hlt. revert i Hi.
  induction ts as [|x ts IH]; intros [|i] Hi; csimpl in *; try done.
  - injection Hi as ->. lia.
  - specialize (IH i Hi). lia.
Qed.

(** Every statement executed brings the threads closer to their
    return. *)
Lemma xstep_measure s v i s' :
  Inv l0 b a r0 sec miss s v -> step b i s = Some s' ->
  (measure s' < measure s)%nat.
Proof.
  intros Hinv Hstep.
  unfold step in Hstep.
  destruct (threads s !! i) as [t|] eqn:Hi; [|done].
  pose proof (xhas_blk s v i t Hinv Hi) as Hblk.
  pose proof (xwake_id _ _ Hinv) as Hw.
  destruct (xno_waiting s v Hinv i t Hi) as [Hnw Hnk].
  destruct s as [bc cl dl bl ts]. destruct t as [p ab out].
  simpl in *.
  destruct p; simpl in Hstep; try done;
    try (destruct (Hblk eq_refl)
           as (blk & idx & -> & -> & Hb & Hf & Hl & Ha & Hat & Hst & Hpc);
         unfold pc_ok in Hpc; simpl in Hpc; rewrite ?Hat in Hstep);
    repeat match goal with
      | H : context [match ?x with _ => _ end] |- _ =>
          match type of H with _ = Some _ => destruct x eqn:? end
      end;
    try done; try congruence;
    injection Hstep as <-; unfold measure; simpl; rewrite ?Hw;
    (eapply xsum_rank_insert; [exact Hi|simpl; lia]).
Qed.

Lemma xrun_inv sched : forall s v,
  Inv l0 b a r0 sec miss s v ->
  exists v', Inv l0 b a r0 sec miss (run_schedule b sched s) v'.
Proof.
  induction sched as [|i sched IH]; intros s v Hinv; simpl; [by exists v|].
  destruct (step b i s) as [s'|] eqn:Hstep; [|by eapply IH].
  destruct (xstep_inv s v i s' Hinv Hstep) as [v' Hinv'].
  by eapply IH.
Qed.

Lemma xrun_measure sched : forall s v,
  Inv l0 b a r0 sec miss s v ->
  (steps_taken b sched s + measure (run_schedule b sched s) <= measure s)%nat.
Proof.
  induction sched as [|i sched IH]; intros s v Hinv; simpl; [lia|].
  destruct (step b i s) as [s'|] eqn:Hstep; [|by eapply IH].
  destruct (xstep_inv s v i s' Hinv Hstep) as [v' Hinv'].
  pose proof (xstep_measure s v i s' Hinv Hstep).
  specialize (IH s' v' Hinv'). lia.
Qed.

Lemma xstuck_or_step s :
  stuck b s \/ exists i s', step b i s = Some s'.
Proof.
  destruct (decide (Exists (fun i => is_Some (step b i s))
                      (seq 0 (length (threads s))))) as [Hex|Hno].
  - right. apply Exists_exists in Hex as (i & _ & [s' Hs']). by exists i, s'.
  - left. intros i. destruct (step b i s) as [s'|] eqn:Hs; [|done].
    destruct Hno. apply Exists_exists. exists i. split; [|by exists s'].
    apply elem_of_seq. split; [lia|]. simpl.
    unfold step in Hs. destruct (threads s !! i) eqn:Hi; [|done].
    by eapply lookup_lt_Some.
Qed.

(** From every state the calls have reached, a schedule leads all of
    them to their return. *)
Lemma xcan_all_return s v :
  Inv l0 b a r0 sec miss s v ->
  exists sched, all_returned (run_schedule b sched s).
Proof.
  remember (measure s) as n eqn:Hn. revert s v Hn.
  induction n as [n IH] using lt_wf_ind. intros s v -> Hinv.
  destruct (xstuck_or_step s) as [Hstuck|(i & s' & Hstep)].
  - exists []. by eapply xstuck_all_returned.
  - destruct (xstep_inv s v i s' Hinv Hstep) as [v' Hinv'].
    destruct (IH (measure s') (xstep_measure s v i s' Hinv Hstep) s' v'
                eq_refl Hinv') as [sched Hall].
    exists (i :: sched). simpl. by rewrite Hstep.
Qed.

(** What the invariant says about the device, the list and the callers
    that have returned. *)
Lemma xinv_reads s v :
  Inv l0 b a r0 sec miss s v ->
  (r0 <= device_reads (disk (shared s)) b
   <= if miss then S r0 else r0)%nat
  /\ (forall i t, threads s !! i = Some t -> th_pc t = Returned ->
        take BLOCK_SIZE (th_data t) = sec
        /\ device_reads (disk (shared s)) b = if miss then S r0 else r0)
  /\ cache (shared s)
     = if miss then from_option (fun blk => blk :: l0) l0 v else l0.
Proof.
  intros Hinv.
  pose proof Hinv as [Hshape Hsec Hview Hth Oc Od Ob].
  split; [|split; [|done]].
  - destruct v as [blk|]; simpl in Hview.
    + destruct Hview as (_ & _ & Hv).
      destruct (state blk) eqn:Hst; try done.
      * destruct Hv as [-> [->|[j Hj]]]; [lia|].
        destruct (Ob j Hj) as [tj Htj].
        destruct (Hth j tj Htj) as (_ & _ & [_ Hh] & _ & Hpc).
        specialize (Hh Hj). unfold pc_ok in Hpc.
        destruct (th_pc tj); simpl in *; try done;
          intuition (try congruence; try lia).
      * destruct Hv as [-> _]. destruct miss; lia.
    + destruct Hview as (-> & -> & _). lia.
  - intros i t Hi Hret.
    destruct (xhas_blk s v i t Hinv Hi) as (blk & idx & -> & _ & _ & _ & _ & _ & _ & _ & Hpc).
    { by rewrite Hret. }
    unfold pc_ok in Hpc. rewrite Hret in Hpc. destruct Hpc as [Hrd Hdata].
    split; [done|]. simpl in Hview. destruct Hview as (_ & _ & Hv).
    rewrite Hrd in Hv. by destruct Hv.
Qed.

End XcReaders.

Lemma xstart_threads bc lock0 callers i t :
  threads (start bc lock0 callers) !! i = Some t -> th_pc t = Lock_cache.
Proof.
  unfold start. simpl. rewrite list_lookup_fmap.
  destruct (callers !! i); [|done]. by intros [= <-].
Qed.

Lemma xstart_inv_miss bc b callers :
  find_block bc b = None ->
  Inv (cache bc) b (length (cache bc)) (device_reads (disk bc) b)
    (sector (disk bc) b) true (start bc None callers) None.
Proof.
  intros Hf. pose proof (xstart_threads bc None callers) as Hlook.
  split; simpl; try done.
  intros i t Hi. apply Hlook in Hi. unfold thread_ok. rewrite Hi.
  simpl. rewrite lookup_empty. repeat split; done.
Qed.

Lemma xstart_inv_hit bc b i0 blk0 callers :
  find_block bc b = Some i0 -> cache bc !! i0 = Some blk0 ->
  state blk0 = BLOCK_READY ->
  Inv (cache bc) b (address (cache bc) i0) (device_reads (disk bc) b)
    (take BLOCK_SIZE (data blk0)) false (start bc None callers) (Some blk0).
Proof.
  intros Hf Hl Hs.
  destruct (find_block_from_Some _ _ _ Hf) as (blk & Hl' & Hb & _).
  assert (blk = blk0) as -> by congruence.
  pose proof (xstart_threads bc None callers) as Hlook.
  split; simpl; try done.
  - split; [done|]. split; [by exists i0|]. by rewrite Hs.
  - intros i t Hi. apply Hlook in Hi. unfold thread_ok, pc_ok.
    rewrite Hi. simpl. rewrite lookup_empty. repeat split; done.
Qed.

Lemma xstart_measure bc lock0 callers :
  measure (start bc lock0 callers) = (14 * length callers)%nat.
Proof.
  unfold measure, start. simpl.
  induction callers as [|c callers IH]; csimpl; [done|]. rewrite IH. lia.
Qed.

Lemma xrun_schedule_app b sched sched' s :
  run_schedule b (sched ++ sched') s
  = run_schedule b sched' (run_schedule b sched s).
Proof.
  revert s. induction sched as [|i sched IH]; intros s; simpl; [done|].
  destruct (step b i s); apply IH.
Qed.

(** When the uninitialised [cache_lock] reads as held, no caller gets
    past line 118: whatever the schedule, nothing moves. *)
Lemma xrun_schedule_lock_held bc b k callers sched :
  run_schedule b sched (start bc (Some k) callers)
  = start bc (Some k) callers.
Proof.
  induction sched as [|i sched IH]; simpl; [done|].
  assert (step b i (start bc (Some k) callers) = None) as ->; [|exact IH].
  unfold step. simpl. rewrite list_lookup_fmap.
  by destruct (callers !! i).
Qed.

(** X19: [n] threads call [bcache_read] of [x.c] together for a block
    number that is not in the list, their statements interleaved by any
    schedule, on a cache object whose [cache_lock] is a free,
    initialised mutex when they start ([bcache_create] of [x.c] does
    not make it one: it initialises [disk_lock] only).  Whatever the
    schedule: the device receives at most one read of the block; the
    list gets at most one block for the number, before the blocks it
    had; a caller that has returned has the 4096 bytes the device holds
    for the block in its buffer, and exactly one read has then been
    made; the threads never block one another for good (when none can
    move, all have returned); they execute at most 14 statements each;
    and the schedule can be continued so that all [n] callers return. *)
Theorem xc_one_device_read_for_all_readers (bc : bcache) (b : Z)
    (lock0 : option nat) (callers : list (list byte)) (sched : list nat) :
  lock0 = None ->
  find_block bc b = None ->
  length (sector (disk bc) b) = BLOCK_SIZE ->
  let s := run_schedule b sched (start bc lock0 callers) in
  (device_reads (disk bc) b <= device_reads (disk (shared s)) b
   <= S (device_reads (disk bc) b))%nat
  /\ (forall i t, threads s !! i = Some t -> th_pc t = Returned ->
        take BLOCK_SIZE (th_data t) = sector (disk bc) b
        /\ device_reads (disk (shared s)) b = S (device_reads (disk bc) b))
  /\ (cache (shared s) = cache bc
      \/ exists blk, blocknum blk = b /\ cache (shared s) = blk :: cache bc)
  /\ (stuck b s -> all_returned s)
  /\ (steps_taken b sched (start bc lock0 callers) <= 14 * length callers)%nat
  /\ exists sched',
       all_returned
         (run_schedule b (sched ++ sched') (start bc lock0 callers)).
Proof.
  intros -> Habsent Hlen s.
  pose proof (xstart_inv_miss bc b callers Habsent) as Hstart.
  destruct (xrun_inv _ _ _ _ _ _ Hlen (fun _ => eq_refl) sched _ _ Hstart)
    as [v Hinv].
  fold s in Hinv.
  destruct (xinv_reads _ _ _ _ _ _ Hlen (fun _ => eq_refl) s v Hinv)
    as (Hreads & Hret & Hshape).
  split; [done|]. split; [done|]. split.
  { destruct v as [blk|]; simpl in Hshape; [|by left].
    right. exists blk. split; [|done].
    destruct Hinv as [_ _ Hview _ _ _ _]. by destruct Hview. }
  split; [by eapply xstuck_all_returned|]. split.
  - pose proof (xrun_measure _ _ _ _ _ _ Hlen (fun _ => eq_refl) sched _ _
                  Hstart) as Hm.
    rewrite xstart_measure in Hm. lia.
  - destruct (xcan_all_return _ _ _ _ _ _ Hlen (fun _ => eq_refl) s v Hinv)
      as [sched' Hall].
    exists sched'. by rewrite xrun_schedule_app.
Qed.

(** X20: [n] threads call [bcache_read] of [x.c] together for a block
    that is ready in the list, on a cache object whose [cache_lock] is
    a free, initialised mutex when they start ([bcache_create] of [x.c]
    does not make it one).  Whatever the schedule, the device receives
    no read of the block and the list is not changed; a caller that has
    returned has the first 4096 bytes of the block's data in its
    buffer; no thread blocks another for good, each executes at most 14
    statements, and the schedule can be continued so that all callers
    return. *)
Theorem xc_readers_of_a_ready_block (bc : bcache) (b : Z) (i0 : nat)
    (blk0 : block) (lock0 : option nat) (callers : list (list byte))
    (sched : list nat) :
  lock0 = None ->
  find_block bc b = Some i0 -> cache bc !! i0 = Some blk0 ->
  state blk0 = BLOCK_READY ->
  (BLOCK_SIZE <= length (data blk0))%nat ->
  let s := run_schedule b sched (start bc lock0 callers) in
  device_reads (disk (shared s)) b = device_reads (disk bc) b
  /\ cache (shared s) = cache bc
  /\ (forall i t, threads s !! i = Some t -> th_pc t = Returned ->
        take BLOCK_SIZE (th_data t) = take BLOCK_SIZE (data blk0))
  /\ (stuck b s -> all_returned s)
  /\ (steps_taken b sched (start bc lock0 callers) <= 14 * length callers)%nat
  /\ exists sched',
       all_returned
         (run_schedule b (sched ++ sched') (start bc lock0 callers)).
Proof.
  intros -> Hf Hl Hs Hlong s.
  assert (Hlen : length (take BLOCK_SIZE (data blk0)) = BLOCK_SIZE)
    by (rewrite length_take; lia).
  assert (Hm : false = true -> address (cache bc) i0 = length (cache bc))
    by discriminate.
  pose proof (xstart_inv_hit bc b i0 blk0 callers Hf Hl Hs) as Hstart.
  destruct (xrun_inv _ _ _ _ _ _ Hlen Hm sched _ _ Hstart) as [v Hinv].
  fold s in Hinv.
  destruct (xinv_reads _ _ _ _ _ _ Hlen Hm s v Hinv)
    as (Hreads & Hret & Hshape).
  simpl in *.
  split; [lia|]. split; [done|]. split.
  { intros i t Hi Hr. by destruct (Hret i t Hi Hr). }
  split; [by eapply xstuck_all_returned|]. split.
  - pose proof (xrun_measure _ _ _ _ _ _ Hlen Hm sched _ _ Hstart) as Hme.
    rewrite xstart_measure in Hme. lia.
  - destruct (xcan_all_return _ _ _ _ _ _ Hlen Hm s v Hinv)
      as [sched' Hall].
    exists sched'. by rewrite xrun_schedule_app.
Qed.

Lemma xc_one_device_read_for_all_readers_witness :
  find_block (fresh disk10 2) 5 = None
  /\ length (sector (disk (fresh disk10 2)) 5) = BLOCK_SIZE
  /\ (steps_taken 5 turns_to_the_end
        (start (fresh disk10 2) None three_buffers)
      <= 14 * length three_buffers)%nat
  /\ device_reads
       (disk (shared (run_schedule 5 turns_to_the_end
                        (start (fresh disk10 2) None three_buffers)))) 5
     = 1%nat.
Proof.
  split; [reflexivity|]. split; [exact length_zero_block|].
  pose proof (xc_one_device_read_for_all_readers (fresh disk10 2) 5 None
                three_buffers turns_to_the_end eq_refl eq_refl
                length_zero_block)
    as (_ & Hret & _ & _ & Hsteps & _).
  split; [exact Hsteps|].
  destruct (threads (run_schedule 5 turns_to_the_end
                       (start (fresh disk10 2) None three_buffers)) !! 0%nat)
    as [t|] eqn:Ht; [|vm_compute in Ht; discriminate].
  refine (proj2 (Hret 0%nat t Ht _)).
  vm_compute in Ht. injection Ht as <-. reflexivity.
Defined.

Lemma xc_readers_of_a_ready_block_witness :
  find_block two_blocks 1 = Some 0%nat
  /\ (BLOCK_SIZE <= length zero_block)%nat
  /\ cache (shared (run_schedule 1 turns_to_the_end
                      (start two_blocks None three_buffers)))
     = cache two_blocks
  /\ device_reads
       (disk (shared (run_schedule 1 turns_to_the_end
                        (start two_blocks None three_buffers)))) 1 = 0%nat.
Proof.
  assert (Hlong : (BLOCK_SIZE <= length zero_block)%nat)
    by (rewrite length_zero_block; lia).
  split; [reflexivity|]. split; [exact Hlong|].
  pose proof (xc_readers_of_a_ready_block two_blocks 1 0
                {| blocknum := 1; state := BLOCK_READY; data := zero_block |}
                None three_buffers turns_to_the_end eq_refl eq_refl eq_refl
                eq_refl Hlong)
    as (Hreads & Hcache & _).
  split; [exact Hcache|]. rewrite Hreads. reflexivity.
Defined.

(** ** Overlapping writes in [part_000] *)

Import Writers.

Lemma store_addr_alter (f : block -> block) (l : list block) idx a blk :
  l !! idx = Some blk -> address l idx = a ->
  store_addr f a l = alter f idx l.
Proof.
  intros Hi Ha. pose proof (lookup_lt_Some _ _ _ Hi) as Hlt.
  unfold store_addr, address in *.
  by replace (length l - S a)%nat with idx by lia.
Qed.

Lemma address_alter (f : block -> block) (l : list block) idx j :
  address (alter f j l) idx = address l idx.
Proof. unfold address. by rewrite length_alter. Qed.

Lemma address_cons (blk : block) (l : list block) idx :
  address (blk :: l) (S idx) = address l idx.
Proof. unfold address. simpl. lia. Qed.

Lemma wthreads_insert_owner (ts : list thread) i (t' : thread) j :
  is_Some (ts !! j) -> is_Some (<[i := t']> ts !! j).
Proof.
  intros H. apply lookup_lt_is_Some. rewrite length_insert.
  by apply lookup_lt_is_Some.
Qed.

(** A call that has copied stays a witness of what it wrote while it
    moves on. *)
Lemma written_step s s' i t t' b blk :
  threads s !! i = Some t ->
  threads s' = <[i := t']> (threads s) ->
  caller_of t' = caller_of t ->
  (past_copy (th_pc t) = true -> past_copy (th_pc t') = true) ->
  written s b blk -> written s' b blk.
Proof.
  intros Hi Hts Hc Hp (j & tj & Hj & Hn & Hpc & Hd). unfold written.
  rewrite Hts. destruct (decide (j = i)) as [->|Hne].
  - exists i, t'. rewrite list_lookup_insert_eq by by eapply lookup_lt_Some.
    assert (tj = t) as -> by congruence.
    injection Hc as Hnum Hdata _.
    split; [done|]. split; [congruence|]. split; [auto|congruence].
  - exists j, tj. by rewrite list_lookup_insert_ne.
Qed.

Lemma blk_ok_move s s' t t' :
  blk_ok s t ->
  cache (shared s') = cache (shared s) ->
  th_num t' = th_num t -> th_blk t' = th_blk t ->
  (past_copy (th_pc t') = true -> past_copy (th_pc t) = true) ->
  (past_dirty (th_pc t') = true -> past_dirty (th_pc t) = true) ->
  (forall blk, written s (th_num t) blk -> written s' (th_num t) blk) ->
  blk_ok s' t'.
Proof.
  intros (idx & blk & Hf & Hl & Ha & Hw & Hd) Hc Hn Hb Hpc Hpd Hws.
  exists idx, blk. rewrite Hc, Hn, Hb. repeat (split; [done|]). split; auto.
Qed.

Lemma blk_ok_cons s s' t new :
  blk_ok s t ->
  cache (shared s') = new :: cache (shared s) ->
  blocknum new ∉ nums (cache (shared s)) ->
  (forall blk, written s (th_num t) blk -> written s' (th_num t) blk) ->
  blk_ok s' t.
Proof.
  intros (idx & blk & Hf & Hl & Ha & Hw & Hd) Hc Hnew Hws.
  exists (S idx), blk. rewrite Hc. simpl.
  rewrite decide_False, Hf.
  - split; [done|]. split; [done|]. rewrite address_cons.
    split; [done|]. split; auto.
  - intros Heq. apply Hnew. rewrite Heq. by eapply find_from_elem.
Qed.

Lemma blk_ok_alter (f : block -> block) s s' t idx0 b0 :
  blk_ok s t ->
  cache (shared s') = alter f idx0 (cache (shared s)) ->
  Part000.find_from (cache (shared s)) b0 = Some idx0 ->
  (forall blk, blocknum (f blk) = blocknum blk) ->
  (forall blk, state blk = BLOCK_DIRTY -> state (f blk) = BLOCK_DIRTY) ->
  (forall blk, th_num t <> b0 ->
     written s (th_num t) blk -> written s' (th_num t) blk) ->
  (forall blk, th_num t = b0 -> past_copy (th_pc t) = true ->
     written s b0 blk -> written s' b0 (f blk)) ->
  blk_ok s' t.
Proof.
  intros (idx & blk & Hf & Hl & Ha & Hw & Hd) Hc Hf0 Hnum Hst Hother Hsame.
  destruct (decide (th_num t = b0)) as [Heq|Hne].
  - assert (idx = idx0) as -> by congruence.
    exists idx0, (f blk). rewrite Hc, find_from_alter by done.
    split; [done|]. split; [by apply lookup_alter_Some|].
    rewrite address_alter. split; [done|]. split.
    + intros Hp. rewrite Heq. apply Hsame; [done|done|].
      rewrite <- Heq. auto.
    + auto.
  - assert (idx <> idx0).
    { intros ->. apply Hne.
      destruct (find_from_Some _ _ _ Hf) as (b1 & Hl1 & <-).
      destruct (find_from_Some _ _ _ Hf0) as (b2 & Hl2 & <-). congruence. }
    exists idx, blk. rewrite Hc, find_from_alter by done.
    split; [done|]. split; [by rewrite list_lookup_alter_ne|].
    rewrite address_alter. split; [done|]. split; auto.
Qed.

Ltac wwritten Hws :=
  intros; eapply Hws; [ | |simpl; reflexivity|eassumption];
  [reflexivity|simpl; done].

Ltac wmove Hws Hok :=
  eapply (blk_ok_move _ _ _ _ Hok);
  [reflexivity|reflexivity|reflexivity|simpl; done|simpl; done|wwritten Hws].

Section WritersInv.
Variable bc0 : bcache.
Variable callers : list caller.
Hypothesis payloads : Forall (fun c => length (c_data c) = BLOCK_SIZE) callers.

Lemma wthread_caller s i t :
  Inv bc0 callers s -> threads s !! i = Some t ->
  caller_of t ∈ callers /\ length (th_data t) = BLOCK_SIZE.
Proof.
  intros Hinv Hi.
  assert (Hin : caller_of t ∈ callers).
  { rewrite <- (inv_callers _ _ _ Hinv). apply list_elem_of_fmap.
    exists t. split; [done|]. by eapply list_elem_of_lookup_2. }
  split; [done|]. rewrite Forall_forall in payloads.
  exact (payloads _ Hin).
Qed.

Lemma winv_step s s' i t t' :
  Inv bc0 callers s ->
  threads s !! i = Some t ->
  threads s' = <[i := t']> (threads s) ->
  caller_of t' = caller_of t ->
  disk (shared s') = disk (shared s) ->
  nreads (shared s') = nreads (shared s) ->
  memory_blocks (shared s') = memory_blocks (shared s) ->
  (forall b, b <> th_num t ->
     entry Part000.find_from (cache (shared s')) b
     = entry Part000.find_from (cache (shared s)) b) ->
  thread_ok s' i t' ->
  (forall j tj, j <> i -> threads s !! j = Some tj ->
     has_blk (th_pc tj) = true -> blk_ok s tj -> blk_ok s' tj) ->
  (forall j, j <> i -> (cache_lock s' = Some j <-> cache_lock s = Some j)) ->
  (forall a j, j <> i -> blk_lock s' !! a = Some j -> blk_lock s !! a = Some j) ->
  (forall j tj, j <> i -> threads s !! j = Some tj ->
     blk_lock s !! th_blk tj = Some j -> blk_lock s' !! th_blk tj = Some j) ->
  (forall a, blk_lock s' !! a = Some i ->
     holds_blk (th_pc t') = true /\ th_blk t' = a) ->
  Inv bc0 callers s'.
Proof.
  intros Hinv Hi Hts Hc Hd Hr Hm Hframe Hnew Hothers Hcl Hbl1 Hbl2 Hbl3.
  pose proof Hinv as [Id Ir Im Ifr Ica Ith Ico Ibo].
  destruct (wthread_caller s i t Hinv Hi) as [Hin _].
  assert (Hlt : (i < length (threads s))%nat) by by eapply lookup_lt_Some.
  split; try congruence.
  - intros b Hb. rewrite Hframe; [by apply Ifr|].
    intros ->. by apply (Hb _ Hin).
  - rewrite Hts, list_fmap_insert, Hc, list_insert_id; [done|].
    by rewrite list_lookup_fmap, Hi.
  - rewrite Hts. intros j tj Hj.
    destruct (decide (j = i)) as [->|Hne].
    + rewrite list_lookup_insert_eq in Hj by done. by injection Hj as <-.
    + rewrite list_lookup_insert_ne in Hj by done.
      destruct (Ith j tj Hj) as (Hhc & Hhb & Hb).
      split; [by rewrite (Hcl j Hne)|]. split; [by eauto|]. eauto.
  - intros j Hj. rewrite Hts. apply wthreads_insert_owner.
    destruct (decide (j = i)) as [->|Hne]; [by exists t|].
    apply Ico. by apply Hcl.
  - intros a j Hj. rewrite Hts.
    destruct (decide (j = i)) as [->|Hne].
    + exists t'. rewrite list_lookup_insert_eq by done.
      destruct (Hbl3 a Hj). done.
    + destruct (Ibo a j (Hbl1 a j Hne Hj)) as (tj & Htj & Hh & Ha).
      exists tj. by rewrite list_lookup_insert_ne.
Qed.

Lemma wstep_inv s i s' :
  Inv bc0 callers s -> step i s = Some s' -> Inv bc0 callers s'.
Proof.
  intros Hinv Hstep.
  pose proof Hinv as [Id Ir Im Ifr Ica Ith Ico Ibo].
  unfold step in Hstep.
  destruct (threads s !! i) as [t|] eqn:Hi; [|done].
  destruct (Ith i t Hi) as (Hhc & Hhb & Hb).
  destruct (wthread_caller s i t Hinv Hi) as [_ Hlen].
  assert (Hlt : (i < length (threads s))%nat) by by eapply lookup_lt_Some.
  assert (Hnot : holds_blk (th_pc t) = false ->
                 forall a, blk_lock s !! a = Some i -> False).
  { intros Hf a Ha. destruct (Ibo a i Ha) as (ti & Hti & Hh & _).
    assert (ti = t) as -> by congruence. congruence. }
  assert (Hws : forall t', caller_of t' = caller_of t ->
                (past_copy (th_pc t) = true -> past_copy (th_pc t') = true) ->
                forall s1, threads s1 = <[i := t']> (threads s) ->
                forall b blk, written s b blk -> written s1 b blk).
  { intros t' Hc Hp s1 Hts b blk. by eapply written_step. }
  destruct s as [bc cl bl ts]. destruct t as [p num ab payload junk].
  simpl in *.
  destruct p; simpl in Hstep.
  - (* Lock_cache *)
    destruct cl as [k|]; [done|]. injection Hstep as <-.
    eapply (winv_step _ _ _ _ _ Hinv Hi); simpl;
      try reflexivity; try done.
    + intros j tj Hne Hj Hp Hok.
      wmove Hws Hok.
    + intros j Hne. split; [congruence|done].
    + intros a Ha. by destruct (Hnot eq_refl a Ha).
  - (* Find *)
    unfold Part000.find_or_create_block in Hstep. simpl in Hstep.
    destruct (Part000.find_from (cache bc) num) as [idx|] eqn:Hf.
    + injection Hstep as <-.
      destruct (find_from_Some _ _ _ Hf) as (blk & Hl & Hn).
      eapply (winv_step _ _ _ _ _ Hinv Hi); simpl;
        try reflexivity; try done.
      * split; [done|]. split; [done|]. intros _.
        exists idx, blk. simpl. by repeat split.
      * intros j tj Hne Hj Hp Hok.
        wmove Hws Hok.
      * intros a Ha. by destruct (Hnot eq_refl a Ha).
    + injection Hstep as <-.
      pose proof (find_from_not_elem _ _ Hf) as Hnew.
      eapply (winv_step _ _ _ _ _ Hinv Hi); simpl;
        try reflexivity; try done.
      * intros b Hne. by apply entry_find_from_cons.
      * split; [done|]. split; [done|]. intros _.
        eexists 0%nat, _. simpl. rewrite decide_True by done.
        by repeat split.
      * intros j tj Hne Hj Hp Hok.
        eapply blk_ok_cons; [exact Hok|reflexivity|done|wwritten Hws].
      * intros a Ha. by destruct (Hnot eq_refl a Ha).
  - (* Unlock_cache *)
    injection Hstep as <-.
    eapply (winv_step _ _ _ _ _ Hinv Hi); simpl;
      try reflexivity; try done.
    + split; [done|]. split; [done|]. intros _.
      wmove Hws (Hb eq_refl).
    + intros j tj Hne Hj Hp Hok.
      wmove Hws Hok.
    + intros j Hne. split; [done|]. intros Hj.
      destruct Hhc as [Hhc _]. specialize (Hhc eq_refl). congruence.
    + intros a Ha. by destruct (Hnot eq_refl a Ha).
  - (* Lock_blk *)
    destruct (bl !! ab) as [k|] eqn:Hbl; [done|]. injection Hstep as <-.
    eapply (winv_step _ _ _ _ _ Hinv Hi); simpl;
      try reflexivity; try done.
    + split; [done|].
      split; [intros _; simpl; by rewrite lookup_insert_eq|]. intros _.
      wmove Hws (Hb eq_refl).
    + intros j tj Hne Hj Hp Hok.
      wmove Hws Hok.
    + intros a j Hne Ha. destruct (decide (a = ab)) as [->|Hna].
      * rewrite lookup_insert_eq in Ha. congruence.
      * by rewrite lookup_insert_ne in Ha.
    + intros j tj Hne Hj Hown. rewrite lookup_insert_ne; [done|].
      intros Heq. rewrite <- Heq in Hown. congruence.
    + intros a Ha. destruct (decide (a = ab)) as [->|Hna]; [done|].
      rewrite lookup_insert_ne in Ha by done.
      by destruct (Hnot eq_refl a Ha).
  - (* Copy *)
    injection Hstep as <-.
    destruct (Hb eq_refl) as (idx & blk & Hf & Hl & Ha & _ & _).
    simpl in *.
    rewrite (store_addr_alter _ _ _ _ _ Hl Ha).
    eapply (winv_step _ _ _ _ _ Hinv Hi); simpl;
      try reflexivity; try done.
    + intros b Hne.
      apply (entry_find_from_alter _ _ _ num); [done| |done].
      destruct (find_from_Some _ _ _ Hf) as (blk1 & Hl1 & Hn1).
      by exists blk1.
    + split; [done|]. split; [by apply Hhb|]. intros _.
      eexists idx, _. simpl. rewrite find_from_alter by done.
      split; [done|]. split; [by apply lookup_alter_Some|].
      rewrite address_alter. split; [done|]. split; [|done].
      intros _. eexists i, _. simpl.
      rewrite list_lookup_insert_eq by done. split; [done|]. simpl.
      split; [done|]. split; [done|]. by apply take_memcpy.
    + intros j tj Hne Hj Hp Hok.
      eapply (blk_ok_alter _ _ _ _ idx num Hok); simpl;
        [reflexivity|done|done|done| |].
      * intros blk0 _. wwritten Hws.
      * intros blk0 _ _ _. eexists i, _. simpl.
        rewrite list_lookup_insert_eq by done. split; [done|]. simpl.
        split; [done|]. split; [done|]. by apply take_memcpy.
    + intros a Ha'. specialize (Hhb eq_refl).
      destruct (Ibo a i Ha') as (ti & Hti & _ & Hta).
      assert (ti = {| th_pc := Copy; th_num := num; th_blk := ab;
                      th_data := payload; th_junk := junk |}) as ->
        by congruence.
      done.
  - (* Set_dirty *)
    injection Hstep as <-.
    destruct (Hb eq_refl) as (idx & blk & Hf & Hl & Ha & Hw & _).
    simpl in *.
    rewrite (store_addr_alter _ _ _ _ _ Hl Ha).
    eapply (winv_step _ _ _ _ _ Hinv Hi); simpl;
      try reflexivity; try done.
    + intros b Hne.
      apply (entry_find_from_alter _ _ _ num); [done| |done].
      destruct (find_from_Some _ _ _ Hf) as (blk1 & Hl1 & Hn1).
      by exists blk1.
    + split; [done|]. split; [by apply Hhb|]. intros _.
      eexists idx, _. simpl. rewrite find_from_alter by done.
      split; [done|]. split; [by apply lookup_alter_Some|].
      rewrite address_alter. split; [done|]. split; [|done].
      intros _. destruct (Hw eq_refl) as (j & tj & Hj & Hn & Hp & Hd).
      eapply (written_step
                {| shared := bc; cache_lock := cl; blk_lock := bl;
                   threads := ts |} _ i _ _ num);
        [exact Hi|reflexivity|reflexivity|simpl; done|].
      by exists j, tj.
    + intros j tj Hne Hj Hp Hok.
      eapply (blk_ok_alter _ _ _ _ idx num Hok); simpl;
        [reflexivity|done|done|done| |].
      * intros blk0 _. wwritten Hws.
      * intros blk0 _ _ (k & tk & Hk & Hn & Hpk & Hd).
        eapply (written_step
                  {| shared := bc; cache_lock := cl; blk_lock := bl;
                     threads := ts |} _ i _ _ num);
          [exact Hi|reflexivity|reflexivity|simpl; done|].
        by exists k, tk.
    + intros a Ha'.
      destruct (Ibo a i Ha') as (ti & Hti & _ & Hta).
      assert (ti = {| th_pc := Set_dirty; th_num := num; th_blk := ab;
                      th_data := payload; th_junk := junk |}) as ->
        by congruence.
      done.
  - (* Unlock_blk *)
    injection Hstep as <-. specialize (Hhb eq_refl).
    eapply (winv_step _ _ _ _ _ Hinv Hi); simpl;
      try reflexivity; try done.
    + split; [done|]. split; [done|]. intros _.
      wmove Hws (Hb eq_refl).
    + intros j tj Hne Hj Hp Hok.
      wmove Hws Hok.
    + intros a j Hne Ha. by apply lookup_delete_Some in Ha as [_ ?].
    + intros j tj Hne Hj Hown. rewrite lookup_delete_ne; [done|].
      intros Heq. rewrite <- Heq in Hown. congruence.
    + intros a Ha. apply lookup_delete_Some in Ha as [Hna Ha].
      destruct (Ibo a i Ha) as (ti & Hti & _ & Hta).
      assert (ti = {| th_pc := Unlock_blk; th_num := num; th_blk := ab;
                      th_data := payload; th_junk := junk |}) as ->
        by congruence.
      done.
  - (* Count *)
    injection Hstep as <-.
    eapply (winv_step _ _ _ _ _ Hinv Hi); simpl;
      try reflexivity; try done.
    + split; [done|]. split; [done|]. intros _.
      wmove Hws (Hb eq_refl).
    + intros j tj Hne Hj Hp Hok.
      wmove Hws Hok.
    + intros a Ha. by destruct (Hnot eq_refl a Ha).
  - (* Returned *)
    done.
Qed.
Lemma wready_to_run_steps s i t :
  threads s !! i = Some t -> ready_to_run (th_pc t) = true ->
  is_Some (step i s).
Proof.
  intros Hi Hp. unfold step. rewrite Hi.
  destruct t as [p num ab payload junk]. simpl in *.
  destruct p; try done; try (simpl; by eexists).
  unfold Part000.find_or_create_block.
  destruct (Part000.find_from _ _); simpl; by eexists.
Qed.

(** No deadlock: when no thread can execute a statement, every thread
    has returned. *)
Lemma wstuck_all_returned s :
  Inv bc0 callers s -> stuck s -> all_returned s.
Proof.
  intros Hinv Hstuck.
  pose proof Hinv as [Id Ir Im Ifr Ica Ith Ico Ibo].
  assert (Hnone : forall j t, threads s !! j = Some t ->
                              ready_to_run (th_pc t) = false).
  { intros j t Hj. destruct (ready_to_run (th_pc t)) eqn:Hr; [|done].
    destruct (wready_to_run_steps s j t Hj Hr) as [s' Hs'].
    by rewrite Hstuck in Hs'. }
  assert (Hcl : cache_lock s = None).
  { destruct (cache_lock s) as [j|] eqn:Hl; [|done].
    destruct (Ico j eq_refl) as [t Hj].
    destruct (Ith j t Hj) as ([_ Hh] & _). specialize (Hh Hl).
    pose proof (Hnone j t Hj). by destruct (th_pc t). }
  assert (Hbl : forall a, blk_lock s !! a = None).
  { intros a. destruct (blk_lock s !! a) as [j|] eqn:Hl; [|done].
    destruct (Ibo a j Hl) as (t & Hj & Hh & _).
    pose proof (Hnone j t Hj). by destruct (th_pc t). }
  apply Forall_lookup. intros j t Hj.
  pose proof (Hnone j t Hj) as Hr.
  pose proof (Hstuck j) as Hs. unfold step in Hs. rewrite Hj in Hs.
  destruct t as [p num ab payload junk]. simpl in *.
  destruct p; try done.
  - by rewrite Hcl in Hs.
  - by rewrite Hbl in Hs.
Qed.

Lemma wrun_inv sched : forall s,
  Inv bc0 callers s -> Inv bc0 callers (run_schedule sched s).
Proof.
  induction sched as [|i sched IH]; intros s Hinv; simpl; [done|].
  destruct (step i s) as [s'|] eqn:Hstep; [|by apply IH].
  apply IH. by eapply wstep_inv.
Qed.

(** What the invariant says of a call that has returned. *)
Lemma winv_returned s i t :
  Inv bc0 callers s -> threads s !! i = Some t -> th_pc t = Returned ->
  exists blk c,
    entry Part000.find_from (cache (shared s)) (th_num t) = Some blk
    /\ state blk = BLOCK_DIRTY
    /\ c ∈ callers /\ c_num c = th_num t
    /\ take BLOCK_SIZE (data blk) = c_data c.
Proof.
  intros Hinv Hi Hret.
  destruct (inv_threads _ _ _ Hinv i t Hi) as (_ & _ & Hb).
  rewrite Hret in Hb.
  destruct (Hb eq_refl) as (idx & blk & Hf & Hl & _ & Hw & Hd).
  rewrite Hret in Hw, Hd.
  destruct (Hw eq_refl) as (j & tj & Hj & Hn & _ & Hdata).
  destruct (wthread_caller s j tj Hinv Hj) as [Hin _].
  exists blk, (caller_of tj). unfold entry. rewrite Hf. simpl.
  split; [done|]. split; [by apply Hd|]. by repeat split.
Qed.

End WritersInv.

Lemma wsum_rank_insert (ts : list thread) i t t' :
  ts !! i = Some t ->
  (rank (th_pc t') < rank (th_pc t))%nat ->
  (sum_list ((fun t => rank (th_pc t)) <$> <[i := t']> ts)
   < sum_list ((fun t => rank (th_pc t)) <$> ts))%nat.
Proof.
  intros Hi Hlt. revert i Hi.
  induction ts as [|x ts IH]; intros [|i] Hi; csimpl in *; try done.
  - injection Hi as ->. lia.
  - specialize (IH i Hi). lia.
Qed.

(** Every statement executed brings the calls closer to their return. *)
Lemma wstep_measure s i s' :
  step i s = Some s' -> (measure s' < measure s)%nat.
Proof.
  intros Hstep. unfold step in Hstep.
  destruct (threads s !! i) as [t|] eqn:Hi; [|done].
  destruct s as [bc cl bl ts]. destruct t as [p num ab payload junk].
  simpl in *.
  destruct p; simpl in Hstep; try done;
    repeat match goal with
      | H : context [match ?x with _ => _ end] |- _ =>
          match type of H with _ = Some _ => destruct x eqn:? end
      end;
    try done; injection Hstep as <-; unfold measure; simpl;
    (eapply wsum_rank_insert; [exact Hi|simpl; lia]).
Qed.

Lemma wrun_measure sched : forall s,
  (steps_taken sched s + measure (run_schedule sched s) <= measure s)%nat.
Proof.
  induction sched as [|i sched IH]; intros s; simpl; [lia|].
  destruct (step i s) as [s'|] eqn:Hstep; [|by apply IH].
  pose proof (wstep_measure s i s' Hstep). specialize (IH s'). lia.
Qed.

Lemma wstuck_or_step s :
  stuck s \/ exists i s', step i s = Some s'.
Proof.
  destruct (decide (Exists (fun i => is_Some (step i s))
                      (seq 0 (length (threads s))))) as [Hex|Hno].
  - right. apply Exists_exists in Hex as (i & _ & [s' Hs']). by exists i, s'.
  - left. intros i. destruct (step i s) as [s'|] eqn:Hs; [|done].
    destruct Hno. apply Exists_exists. exists i. split; [|by exists s'].
    apply elem_of_seq. split; [lia|]. simpl.
    unfold step in Hs. destruct (threads s !! i) eqn:Hi; [|done].
    by eapply lookup_lt_Some.
Qed.

(** From every state the calls have reached, a schedule leads all of
    them to their return. *)
Lemma wcan_all_return bc0 callers s :
  Forall (fun c => length (c_data c) = BLOCK_SIZE) callers ->
  Inv bc0 callers s ->
  exists sched, all_returned (run_schedule sched s).
Proof.
  intros Hpay. remember (measure s) as n eqn:Hn. revert s Hn.
  induction n as [n IH] using lt_wf_ind. intros s -> Hinv.
  destruct (wstuck_or_step s) as [Hstuck|(i & s' & Hstep)].
  - exists []. by eapply wstuck_all_returned.
  - destruct (IH (measure s') (wstep_measure s i s' Hstep) s' eq_refl)
      as [sched Hall].
    { by eapply wstep_inv. }
    exists (i :: sched). simpl. by rewrite Hstep.
Qed.

Lemma wstart_inv bc callers : Inv bc callers (start bc callers).
Proof.
  split; simpl; try done.
  - rewrite <- list_fmap_compose. rewrite <- (list_fmap_id callers) at 2.
    apply list_fmap_ext. by intros _ [] _.
  - intros i t Hi. rewrite list_lookup_fmap in Hi.
    destruct (callers !! i); [|done]. injection Hi as <-.
    unfold thread_ok. simpl. repeat split; done.
Qed.

Lemma wstart_measure bc callers :
  measure (start bc callers) = (8 * length callers)%nat.
Proof.
  unfold measure, start. simpl.
  induction callers as [|c callers IH]; csimpl; [done|]. rewrite IH. lia.
Qed.

Lemma wrun_schedule_app sched sched' s :
  run_schedule (sched ++ sched') s
  = run_schedule sched' (run_schedule sched s).
Proof.
  revert s. induction sched as [|i sched IH]; intros s; simpl; [done|].
  destruct (step i s); apply IH.
Qed.

Lemma wreturned_insert (ts : list thread) i t t' :
  ts !! i = Some t -> th_pc t <> Returned ->
  length (filter (fun t => th_pc t = Returned) (<[i := t']> ts))
  = (length (filter (fun t => th_pc t = Returned) ts)
     + if decide (th_pc t' = Returned) then 1 else 0)%nat.
Proof.
  revert i. induction ts as [|x ts IH]; intros [|i] Hi Hne; simpl in *;
    try done.
  - injection Hi as ->. rewrite (filter_cons_False _ t) by done.
    destruct (decide (th_pc t' = Returned)).
    + rewrite filter_cons_True by done. simpl. lia.
    + rewrite filter_cons_False by done. lia.
  - destruct (decide (th_pc x = Returned)).
    + rewrite !filter_cons_True by done. simpl. by rewrite (IH i).
    + rewrite !filter_cons_False by done. by rewrite (IH i).
Qed.

Lemma wstep_counts i s s' :
  step i s = Some s' ->
  length (threads s') = length (threads s)
  /\ disk (shared s') = disk (shared s)
  /\ nreads (shared s') = nreads (shared s)
  /\ memory_blocks (shared s') = memory_blocks (shared s)
  /\ (NoDup (nums (cache (shared s))) -> NoDup (nums (cache (shared s'))))
  /\ ((nwrites (shared s') = nwrites (shared s) /\ returned s' = returned s)
      \/ (nwrites (shared s') = int_incr (nwrites (shared s))
          /\ returned s' = S (returned s))).
Proof.
  unfold step. destruct (threads s !! i) as [t|] eqn:Hi; [|done].
  destruct t as [p num ab payload junk]. simpl.
  destruct p; simpl;
    repeat match goal with
      | |- context [match ?x with _ => _ end] => destruct x eqn:?
      end;
    try done; intros [= <-]; unfold returned, store_addr; simpl;
    rewrite ?length_insert, ?nums_alter by done;
    try (erewrite wreturned_insert; [|exact Hi|simpl; discriminate]);
    simpl; rewrite ?Nat.add_0_r; try (repeat (split; [done|]); by left).
  - match goal with H : Part000.find_or_create_block _ _ _ = _ |- _ =>
      destruct (part000_find_or_create _ _ _ _ _ H)
        as (Hd & Hr & Hw & Hm & Hn & _)
    end.
    repeat (split; [done|]). split; [|by left].
    rewrite Hn. unfold grown. destruct (decide _); [done|].
    intros Hnd. apply NoDup_cons. by split.
  - repeat (split; [done|]). right. split; [done|lia].
Qed.

Lemma wrun_counts sched : forall s,
  let s' := run_schedule sched s in
  length (threads s') = length (threads s)
  /\ disk (shared s') = disk (shared s)
  /\ nreads (shared s') = nreads (shared s)
  /\ memory_blocks (shared s') = memory_blocks (shared s)
  /\ (NoDup (nums (cache (shared s))) -> NoDup (nums (cache (shared s'))))
  /\ (returned s <= returned s')%nat
  /\ nwrites (shared s')
     = Nat.iter (returned s' - returned s) int_incr (nwrites (shared s)).
Proof.
  induction sched as [|i sched IH]; intros s; simpl.
  - repeat (split; [done|]). by rewrite Nat.sub_diag.
  - destruct (step i s) as [s1|] eqn:Hstep; [|apply IH].
    destruct (wstep_counts _ _ _ Hstep) as (Hl & Hd & Hr & Hm & Hn & Hcount).
    destruct (IH s1) as (Hl' & Hd' & Hr' & Hm' & Hn' & Hle & Hw').
    simpl in *. split; [congruence|]. split; [congruence|].
    split; [congruence|]. split; [congruence|]. split; [by auto|].
    destruct Hcount as [[Hw Hret]|[Hw Hret]].
    + rewrite Hret in *. split; [done|]. by rewrite Hw', Hw.
    + rewrite Hret in *. split; [lia|]. rewrite Hw', Hw.
      replace (returned (run_schedule sched s1) - returned s)%nat
        with (S (returned (run_schedule sched s1) - S (returned s)))
        by lia.
      by rewrite Nat.iter_succ_r.
Qed.

Lemma wreturned_start bc callers : returned (start bc callers) = 0%nat.
Proof.
  unfold returned, start. simpl.
  induction callers as [|c callers IH]; [done|]. rewrite fmap_cons.
  by rewrite filter_cons_False.
Qed.

Lemma wreturned_all s :
  all_returned s -> returned s = length (threads s).
Proof.
  unfold all_returned, returned.
  induction 1 as [|t ts Ht Hts IH]; [done|].
  rewrite filter_cons_True by done. simpl. by rewrite IH.
Qed.

(** X21: [n] threads call [bcache_write] of [part_000] together, each
    with a block number and 4096 bytes of its own, their statements
    interleaved by any schedule.  Whatever the schedule: a caller that
    has returned finds the block of its number in the list, dirty and
    holding the 4096 bytes of a caller (itself or another) that wrote
    that number; a block whose number no caller writes is as it was;
    no second block appears for a number; the device, the read counter
    and the capacity are not touched; no thread blocks another for good
    (when none can move, all have returned); each executes at most 8
    statements; and the schedule can be continued so that all callers
    return. *)
Theorem overlapping_writes_leave_a_callers_bytes (bc : bcache)
    (callers : list caller) (sched : list nat) :
  Forall (fun c => length (c_data c) = BLOCK_SIZE) callers ->
  let s := run_schedule sched (start bc callers) in
  caller_of <$> threads s = callers
  /\ (forall i t, threads s !! i = Some t -> th_pc t = Returned ->
        exists blk c,
          entry Part000.find_from (cache (shared s)) (th_num t) = Some blk
          /\ state blk = BLOCK_DIRTY
          /\ c ∈ callers /\ c_num c = th_num t
          /\ take BLOCK_SIZE (data blk) = c_data c)
  /\ (forall b, (forall c, c ∈ callers -> c_num c <> b) ->
        entry Part000.find_from (cache (shared s)) b
        = entry Part000.find_from (cache bc) b)
  /\ (NoDup (nums (cache bc)) -> NoDup (nums (cache (shared s))))
  /\ disk (shared s) = disk bc
  /\ bcache_nreads (shared s) = bcache_nreads bc
  /\ bcache_memory_blocks (shared s) = bcache_memory_blocks bc
  /\ (stuck s -> all_returned s)
  /\ (steps_taken sched (start bc callers) <= 8 * length callers)%nat
  /\ exists sched',
       all_returned (run_schedule (sched ++ sched') (start bc callers)).
Proof.
  intros Hpay s.
  pose proof (wrun_inv bc callers Hpay sched _ (wstart_inv bc callers))
    as Hinv.
  fold s in Hinv.
  destruct (wrun_counts sched (start bc callers))
    as (_ & Hd & Hr & Hm & Hnd & _).
  fold s in Hd, Hr, Hm, Hnd.
  split; [exact (inv_callers _ _ _ Hinv)|].
  split; [intros i t; by apply (winv_returned bc callers Hpay)|].
  split; [exact (inv_frame _ _ _ Hinv)|].
  split; [done|]. split; [done|]. split; [done|]. split; [done|].
  split; [by eapply wstuck_all_returned|]. split.
  - pose proof (wrun_measure sched (start bc callers)) as Hme.
    rewrite wstart_measure in Hme. lia.
  - destruct (wcan_all_return bc callers s Hpay Hinv) as [sched' Hall].
    exists sched'. by rewrite wrun_schedule_app.
Qed.

(** X22: overlapping calls of [bcache_write] in [part_000] count
    themselves exactly.  Whatever the schedule and whichever blocks the
    callers write, as long as the count fits an [int] the write counter
    is its value at the start plus the number of callers that have
    returned, so plus the number of callers once all have. *)
Theorem overlapping_writes_count_exactly (bc : bcache)
    (callers : list caller) (sched : list nat) :
  -2147483648 <= bcache_nwrites bc ->
  bcache_nwrites bc + Z.of_nat (length callers) <= INT_MAX ->
  let s := run_schedule sched (start bc callers) in
  bcache_nwrites (shared s) = bcache_nwrites bc + Z.of_nat (returned s)
  /\ (all_returned s ->
      bcache_nwrites (shared s)
      = bcache_nwrites bc + Z.of_nat (length callers)).
Proof.
  intros Hlo Hhi s.
  destruct (wrun_counts sched (start bc callers))
    as (Hl & _ & _ & _ & _ & Hle & Hw).
  fold s in Hl, Hle, Hw.
  rewrite wreturned_start, Nat.sub_0_r in Hw. simpl in Hl, Hw.
  rewrite length_fmap in Hl.
  assert (Hbound : (returned s <= length callers)%nat).
  { unfold returned. rewrite <- Hl. apply length_filter. }
  assert (Hcount : bcache_nwrites (shared s)
                   = bcache_nwrites bc + Z.of_nat (returned s)).
  { unfold bcache_nwrites in *. rewrite Hw. apply iter_int_incr; lia. }
  split; [done|].
  intros Hall. rewrite Hcount, (wreturned_all _ Hall), Hl. done.
Qed.

Lemma overlapping_writes_leave_a_callers_bytes_witness :
  Forall (fun c => length (c_data c) = BLOCK_SIZE) three_writers
  /\ (steps_taken turns_to_the_end (start (fresh disk10 2) three_writers)
      <= 8 * length three_writers)%nat
  /\ disk (shared (run_schedule turns_to_the_end
                     (start (fresh disk10 2) three_writers)))
     = disk10.
Proof.
  assert (Hpay : Forall (fun c => length (c_data c) = BLOCK_SIZE)
                   three_writers).
  { repeat constructor; simpl;
      first [exact length_bytes_A | exact length_zero_block]. }
  split; [exact Hpay|].
  pose proof (overlapping_writes_leave_a_callers_bytes (fresh disk10 2)
                three_writers turns_to_the_end Hpay)
    as (_ & _ & _ & _ & Hd & _ & _ & _ & Hsteps & _).
  split; [exact Hsteps|exact Hd].
Defined.

Lemma overlapping_writes_count_exactly_witness :
  -2147483648 <= bcache_nwrites (fresh disk10 2)
  /\ bcache_nwrites (fresh disk10 2) + Z.of_nat (length three_writers)
     <= INT_MAX
  /\ bcache_nwrites
       (shared (run_schedule turns_to_the_end
                  (start (fresh disk10 2) three_writers)))
     = 3.
Proof.
  assert (Hlo : -2147483648 <= bcache_nwrites (fresh disk10 2))
    by (vm_compute; discriminate).
  assert (Hhi : bcache_nwrites (fresh disk10 2)
                + Z.of_nat (length three_writers) <= INT_MAX)
    by (vm_compute; discriminate).
  split; [exact Hlo|]. split; [exact Hhi|].
  refine (proj2 (overlapping_writes_count_exactly (fresh disk10 2)
                   three_writers turns_to_the_end Hlo Hhi) _).
  vm_compute. repeat constructor.
Defined.
(** ** [bcache_sync] beside the scheduler in [bcache.c] *)

Import SyncAndScheduler.

Lemma first_dirty (l : list block) :
  Exists (fun blk => state blk = BLOCK_DIRTY) l ->
  exists k blk,
    l !! k = Some blk /\ state blk = BLOCK_DIRTY
    /\ forall i, (i < k)%nat -> state (deref l i) <> BLOCK_DIRTY.
Proof.
  induction l as [|current next IH]; intros Hex.
  - by apply Exists_nil in Hex.
  - destruct (decide (state current = BLOCK_DIRTY)) as [Hd|Hd].
    + exists 0%nat, current. split; [done|]. split; [done|]. lia.
    + apply Exists_cons in Hex as [Hex|Hex]; [done|].
      destruct (IH Hex) as (k & blk & Hk & Hs & Hbefore).
      exists (S k), blk. split; [done|]. split; [done|].
      intros [|i] Hi; [done|]. apply Hbefore. lia.
Qed.

Lemma settled_deref (l : list block) i :
  Forall settled l ->
  state (deref l i) <> BLOCK_READING /\ state (deref l i) <> BLOCK_WRITING.
Proof.
  intros Hall. unfold deref. destruct (l !! i) as [blk|] eqn:Hi; simpl.
  - rewrite Forall_lookup in Hall.
    destruct (Hall i blk Hi) as [Hs|Hs]; rewrite Hs; done.
  - done.
Qed.

Section SyncNeverReturns.
Variable bc0 : bcache.
Variable k : nat.
Variable blk0 : block.
Hypothesis at_rest : all_settled bc0.
Hypothesis dirty_at_k : cache bc0 !! k = Some blk0.
Hypothesis dirty_state : state blk0 = BLOCK_DIRTY.
Hypothesis clean_before :
  forall i, (i < k)%nat -> state (deref (cache bc0) i) <> BLOCK_DIRTY.

Lemma sync_start_inv : Inv bc0 k (start bc0).
Proof. by split. Qed.

Lemma sync_step_inv w s s' :
  Inv bc0 k s -> step w s = Some s' -> Inv bc0 k s'.
Proof.
  intros [Hd Hy Hk Hsync Hsched] Hstep.
  pose proof (lookup_lt_Some _ _ _ dirty_at_k) as Hlt.
  assert (Hdk : state (deref (cache bc0) k) = BLOCK_DIRTY).
  { unfold deref. by rewrite dirty_at_k. }
  destruct s as [bc cl bl yp yi kp ki]. unfold sync_ok, sched_ok in *.
  simpl in *.
  destruct w; simpl in Hstep.
  - unfold sync_step in Hstep. simpl in Hstep.
    assert (Hother : cl = Some Caller -> sched_inside kp = false).
    { intros ->. destruct (sched_inside kp); [|done].
      by destruct Hk as [Hk _]; specialize (Hk eq_refl). }
    destruct yp; simpl in *; try done.
    + (* 168 *)
      destruct cl as [w|]; [done|]. injection Hstep as <-.
      split; unfold sync_ok, sched_ok; simpl; try done.
      destruct (sched_inside kp); [|done].
      by destruct Hk as [Hk _]; specialize (Hk eq_refl).
    + (* 169 *)
      injection Hstep as <-.
      split; unfold sync_ok, sched_ok; simpl; try done. split; [done|lia].
    + (* 170 *)
      destruct Hsync as [Hc Hi].
      destruct (decide _) as [Hin|Hout]; [|rewrite Hc in Hout; lia].
      injection Hstep as <-.
      by split; unfold sync_ok, sched_ok; simpl.
    + (* 171 *)
      destruct (bl !! yi); [done|]. injection Hstep as <-.
      by split; unfold sync_ok, sched_ok; simpl.
    + (* 172 *)
      destruct Hsync as [Hc Hi]. rewrite Hc in Hstep.
      destruct (decide _) as [Hdirty|Hclean]; injection Hstep as <-;
        split; unfold sync_ok, sched_ok; simpl; try done; split; try done.
      * destruct (decide (yi = k)) as [->|Hne]; [done|].
        exfalso. apply (clean_before yi); [lia|done].
      * destruct (decide (yi = k)) as [->|Hne]; [congruence|lia].
    + (* 173 *)
      destruct Hsync as [Hc ->]. injection Hstep as <-.
      split; unfold sync_ok, sched_ok; simpl; try done.
      by rewrite Hc.
    + (* 174 *)
      injection Hstep as <-.
      by split; unfold sync_ok, sched_ok; simpl.
    + (* 176 *)
      injection Hstep as <-.
      by split; unfold sync_ok, sched_ok; simpl.
    + (* 177 *)
      destruct Hsync as [Hc Hi]. injection Hstep as <-.
      split; unfold sync_ok, sched_ok; simpl; try done;
        try (split; [done|lia]).
  - unfold sched_step in Hstep. simpl in Hstep.
    assert (Hout : sched_inside kp = true ->
                   yp = Y_lock_cache /\ cache bc = cache bc0).
    { intros Hin. apply Hk in Hin. subst cl.
      destruct yp; simpl in *; try done; destruct Hy as [Hy _];
        by specialize (Hy eq_refl). }
    assert (Hsame : forall kp',
              sched_inside kp' = sched_inside kp ->
              match kp' with
              | K_disk_read | K_ready_read | K_disk_write
              | K_ready_written => False
              | _ => True
              end ->
              Inv bc0 k {| shared := bc; cache_lock := cl; blk_lock := bl;
                           sync_at := yp; sync_current := yi;
                           sched_at := kp'; sched_current := ki |}).
    { intros kp' Hin Hok. split; simpl; try done. by rewrite Hin. }
    destruct kp; simpl in *; try done.
    + (* 191 *)
      destruct cl as [w|]; [done|]. injection Hstep as <-.
      split; unfold sync_ok, sched_ok; simpl; try done.
      destruct (sync_inside yp); [|done].
      by destruct Hy as [Hy _]; specialize (Hy eq_refl).
    + (* 192 *)
      injection Hstep as <-. by split.
    + (* 193 *)
      destruct (decide _); injection Hstep as <-; by apply Hsame.
    + (* 194 *)
      destruct (bl !! ki); [done|]. injection Hstep as <-. by split.
    + (* 195 *)
      destruct (Hout eq_refl) as [-> Hc]. rewrite Hc in Hstep.
      destruct (settled_deref (cache bc0) ki at_rest) as [Hr _].
      destruct (decide _); [done|]. injection Hstep as <-. by apply Hsame.
    + (* 198 *)
      destruct (Hout eq_refl) as [-> Hc]. rewrite Hc in Hstep.
      destruct (settled_deref (cache bc0) ki at_rest) as [_ Hw].
      destruct (decide _); [done|]. injection Hstep as <-. by apply Hsame.
    + (* 202 *)
      destruct (Hout eq_refl) as [-> Hc]. injection Hstep as <-.
      by apply Hsame.
    + (* 203 *)
      injection Hstep as <-. by split.
    + (* 204 *)
      injection Hstep as <-. by split.
    + (* 206 *)
      destruct (Hout eq_refl) as [-> Hc]. injection Hstep as <-.
      by split.
    + (* 207 *)
      injection Hstep as <-. by apply Hsame.
Qed.

Lemma sync_run_inv sched : forall s,
  Inv bc0 k s -> Inv bc0 k (run_schedule sched s).
Proof.
  induction sched as [|w sched IH]; intros s Hinv; simpl; [done|].
  destruct (step w s) as [s'|] eqn:Hstep; [|by apply IH].
  apply IH. by eapply sync_step_inv.
Qed.

(** Once [bcache_sync] sleeps it holds [cache_lock], the scheduler is
    outside its pass, and no statement of either thread wakes it. *)
Lemma asleep_stays w s s' :
  Inv bc0 k s -> sync_at s = Y_asleep -> step w s = Some s' ->
  sync_at s' = Y_asleep.
Proof.
  intros [Hd Hy Hk Hsync Hsched] Hz Hstep.
  destruct s as [bc cl bl yp yi kp ki]. simpl in *. subst yp.
  destruct w; simpl in Hstep; [done|].
  assert (cl = Some Caller) as -> by by apply Hy.
  unfold sched_step in Hstep. simpl in Hstep.
  destruct kp; simpl in *; try done;
    try (by destruct Hk as [Hk _]; specialize (Hk eq_refl)).
  by injection Hstep as <-.
Qed.

Lemma asleep_for_ever sched : forall s,
  Inv bc0 k s -> sync_at s = Y_asleep ->
  sync_at (run_schedule sched s) = Y_asleep.
Proof.
  induction sched as [|w sched IH]; intros s Hinv Hz; simpl; [done|].
  destruct (step w s) as [s'|] eqn:Hstep; [|by apply IH].
  apply IH; [by eapply sync_step_inv|by eapply asleep_stays].
Qed.

(** Left to itself, [bcache_sync] walks to the dirty block, marks it
    and goes to sleep. *)
Lemma caller_walks j : forall i kp ki,
  (i + j)%nat = k ->
  exists sched,
    sync_at (run_schedule sched
               {| shared := bc0; cache_lock := Some Caller; blk_lock := ∅;
                  sync_at := Y_while; sync_current := i;
                  sched_at := kp; sched_current := ki |}) = Y_asleep.
Proof.
  pose proof (lookup_lt_Some _ _ _ dirty_at_k) as Hlt.
  induction j as [|j IH]; intros i kp ki Hi.
  - assert (i = k) as -> by lia.
    exists [Caller; Caller; Caller; Caller; Caller].
    unfold run_schedule, step, sync_step. simpl.
    rewrite decide_True by done. simpl. rewrite lookup_empty. simpl.
    rewrite decide_True by (unfold deref; by rewrite dirty_at_k). done.
  - destruct (IH (S i) kp ki ltac:(lia)) as [sched Hs].
    exists ([Caller; Caller; Caller; Caller; Caller] ++ sched).
    unfold run_schedule at 1, step, sync_step. simpl.
    rewrite decide_True by lia. simpl. rewrite lookup_empty. simpl.
    rewrite decide_False by (apply clean_before; lia). simpl.
    rewrite delete_insert_eq, delete_empty. exact Hs.
Qed.

Lemma caller_goes_to_sleep :
  exists sched, sync_at (run_schedule sched (start bc0)) = Y_asleep.
Proof.
  destruct (caller_walks k 0%nat K_lock_cache 0%nat eq_refl) as [sched Hs].
  exists (Caller :: Caller :: sched). by destruct bc0.
Qed.

End SyncNeverReturns.

Lemma sync_run_schedule_app sched sched' s :
  run_schedule (sched ++ sched') s
  = run_schedule sched' (run_schedule sched s).
Proof.
  revert s. induction sched as [|w sched IH]; intros s; simpl; [done|].
  destruct (step w s); apply IH.
Qed.

(** C5: [bcache_sync] of [bcache.c] on a list with a dirty block,
    beside the scheduler: whatever the order in which the statements of
    the two threads run, [bcache_sync] has not returned, the device has
    received no call, and a block of the list is dirty or being written.
    Once [bcache_sync] sleeps on the dirty block it holds [cache_lock],
    the scheduler is outside its pass and cannot enter it, and
    [bcache_sync] sleeps for ever; there is an order in which it gets
    there.  [bcache_sync] of [part_000] on the same list returns, with
    every dirty block written back and no block dirty or being
    written. *)
Theorem C5_sync_never_returns (bc : bcache) (sched : list who) :
  all_settled bc ->
  Exists (fun blk => state blk = BLOCK_DIRTY) (cache bc) ->
  let s := run_schedule sched (start bc) in
  sync_at s <> Y_returned
  /\ disk (shared s) = disk bc
  /\ Exists (fun blk => ~ clean blk) (cache (shared s))
  /\ (sync_at s = Y_asleep ->
      cache_lock s = Some Caller
      /\ sched_inside (sched_at s) = false
      /\ forall sched',
           sync_at (run_schedule (sched ++ sched') (start bc)) = Y_asleep)
  /\ (exists sched0, sync_at (run_schedule sched0 (start bc)) = Y_asleep)
  /\ (exists bc', BcacheC.bcache_sync bc = Blocked bc')
  /\ (exists bc', Part000.bcache_sync bc = Done bc' tt
                  /\ cache bc' = written_back <$> cache bc
                  /\ Forall clean (cache bc')).
Proof.
  intros Hrest Hex s.
  destruct (first_dirty _ Hex) as (k & blk0 & Hk & Hs & Hbefore).
  pose proof (sync_run_inv bc k blk0 Hrest Hk Hs Hbefore sched _
                (sync_start_inv bc k)) as Hinv.
  fold s in Hinv.
  pose proof Hinv as [Hd Hy Hsk Hsync Hsched].
  split; [|split; [done|split; [|split; [|split; [|split]]]]].
  - intros Hret. unfold sync_ok in Hsync. by rewrite Hret in Hsync.
  - unfold sync_ok in Hsync.
    assert (Hcases : cache (shared s) = cache bc
                     \/ cache (shared s)
                        = alter (set_state BLOCK_WRITING) k (cache bc)).
    { destruct (sync_at s); try done; destruct Hsync; auto. }
    destruct Hcases as [->| ->].
    + apply Exists_exists. exists blk0.
      split; [by eapply list_elem_of_lookup_2|].
      intros [Hnd _]. done.
    + apply Exists_exists. exists (set_state BLOCK_WRITING blk0).
      split.
      * eapply list_elem_of_lookup_2. by apply lookup_alter_Some.
      * intros [_ Hnw]. done.
  - intros Hz. split; [by apply Hy; rewrite Hz|]. split.
    + assert (Hown : cache_lock s = Some Caller)
        by (apply Hy; by rewrite Hz).
      destruct (sched_inside (sched_at s)); [|done].
      destruct Hsk as [Hsk _]. specialize (Hsk eq_refl). congruence.
    + intros sched'. rewrite sync_run_schedule_app. fold s.
      by eapply asleep_for_ever.
  - by eapply caller_goes_to_sleep.
  - unfold BcacheC.bcache_sync.
    pose proof (bcache_sync_locked_returns bc) as H.
    destruct (bcache_sync_locked bc) as [bc' []|bc'|bc'|]; try done;
      [|by exists bc'].
    destruct H as [_ Hall]. rewrite Forall_forall in Hall.
    exfalso. apply (Hall blk0); [by eapply list_elem_of_lookup_2|done].
  - unfold Part000.bcache_sync. rewrite sync_blocks_spec.
    eexists. split; [reflexivity|]. simpl. split; [done|].
    apply Forall_fmap, Forall_forall. intros blk Hin.
    unfold all_settled in Hrest. rewrite Forall_forall in Hrest.
    unfold written_back, clean. simpl.
    destruct (decide _) as [Hdirty|Hclean]; simpl.
    + done.
    + destruct (Hrest blk Hin) as [Hr|Hr]; [|done]. by rewrite Hr.
Qed.

Lemma C5_sync_never_returns_witness :
  all_settled two_blocks
  /\ Exists (fun blk => state blk = BLOCK_DIRTY) (cache two_blocks)
  /\ sync_at (run_schedule caller_and_scheduler (start two_blocks))
     = Y_asleep
  /\ sync_at (run_schedule (caller_and_scheduler ++ caller_and_scheduler)
                (start two_blocks)) = Y_asleep
  /\ disk (shared (run_schedule caller_and_scheduler (start two_blocks)))
     = disk10.
Proof.
  assert (Hrest : all_settled two_blocks).
  { apply Forall_cons. split; [by left|].
    apply Forall_cons. split; [by right|]. constructor. }
  assert (Hex : Exists (fun blk => state blk = BLOCK_DIRTY)
                  (cache two_blocks)).
  { apply Exists_cons_tl, Exists_cons_hd. reflexivity. }
  split; [exact Hrest|]. split; [exact Hex|].
  pose proof (C5_sync_never_returns two_blocks caller_and_scheduler
                Hrest Hex) as (_ & Hd & _ & Hz & _).
  assert (Hasleep : sync_at (run_schedule caller_and_scheduler
                               (start two_blocks)) = Y_asleep)
    by (vm_compute; reflexivity).
  split; [exact Hasleep|]. split; [|exact Hd].
  exact (proj2 (proj2 (Hz Hasleep)) caller_and_scheduler).
Defined.
